(** * Geographic network generation and send-once propagation

    A shallow embedding of [large_network_analysis.py] and
    [simple_large_network_test.py]: the two wavefront propagation
    simulators, the two geographical network builders, the connection
    probability and the network-property report.

    Conventions.
    - Node identifiers are [nat].  The node count and the connection
      limit of the builders are [nat] as well; [int_create_network] and
      [int_create_geographical_network_optimized] take them as Python
      integers and agree with the builders on natural counts.
    - A Python [set] of nodes is a [gset nat]; iterating over it visits
      [elements s].
    - Both adjacency stores ([networkx.Graph._adj], a dict of dicts, and the
      [defaultdict(list)] of the standard-library script) are finite maps
      from a node to the list of its neighbours in insertion order.
    - Python floats are idealised as real numbers, without rounding.
    - The wall-clock fields [step_time] and [total_time] of a step record
      are instrumentation and are left out. *)

From Stdlib Require Import Reals Lra.
From stdpp Require Import gmap list strings.

Abbreviation adjacency := (gmap nat (list nat)).

(** ** Step records *)

Record StepData := mkStep {
  step : nat;
  received_count : nat;
  propagating_count : nat;
  pending_count : Z
}.

(** Result of running Python code that may raise; [OutOfFuel] is the
    artefact of bounding the [while] loop and is shown never to occur. *)
Inductive outcome (A : Type) : Type :=
  | Returned (a : A)
  | Raised
  | OutOfFuel.
Arguments Returned {A} a.
Arguments Raised {A}.
Arguments OutOfFuel {A}.

(** ** One propagation round

    [[
      for neighbor in neighbors:
          if neighbor not in received:
              received.add(neighbor)
              new_propagating.add(neighbor)
    ]] *)
Definition inform (st : gset nat * gset nat) (neighbor : nat)
  : gset nat * gset nat :=
  if decide (neighbor ∈ st.1) then st
  else ({[neighbor]} ∪ st.1, {[neighbor]} ∪ st.2).

Definition send_to (st : gset nat * gset nat) (neighbors : list nat)
  : gset nat * gset nat :=
  foldl inform st neighbors.

(** [network[node]] on a [defaultdict(list)]: a missing key reads as the
    empty list. *)
Definition network_get (network : adjacency) (node : nat) : list nat :=
  default [] (network !! node).

(** [graph.neighbors(node)]: networkx raises when the node is absent. *)
Definition nx_neighbors (G : adjacency) (node : nat) : option (list nat) :=
  G !! node.

Definition simple_round (network : adjacency) (received : gset nat)
    (nodes : list nat) : gset nat * gset nat :=
  foldl (λ st node, send_to st (network_get network node)) (received, ∅) nodes.

Fixpoint nx_send_all (G : adjacency) (st : gset nat * gset nat)
    (nodes : list nat) : option (gset nat * gset nat) :=
  match nodes with
  | [] => Some st
  | node :: rest =>
      match nx_neighbors G node with
      | None => None
      | Some neighbors => nx_send_all G (send_to st neighbors) rest
      end
  end.

Definition nx_round (G : adjacency) (received : gset nat)
    (nodes : list nat) : option (gset nat * gset nat) :=
  nx_send_all G (received, ∅) nodes.

Definition record_step (total_nodes step : nat)
    (received propagating : gset nat) : StepData :=
  {| step := step;
     received_count := size received;
     propagating_count := size propagating;
     pending_count := Z.of_nat total_nodes - Z.of_nat (size received) |}.

(** ** [MessagePropagationSimulator.simulate_propagation]

    The boolean of the result tells whether the safety check printed its
    warning and broke out of the loop. *)
Fixpoint message_loop (fuel : nat) (G : adjacency) (total_nodes step : nat)
    (received propagating : gset nat) : outcome (list StepData * bool) :=
  match fuel with
  | O => OutOfFuel
  | S fuel' =>
      if decide (propagating = ∅) then Returned ([], false)
      else
        match nx_round G received (elements propagating) with
        | None => Raised
        | Some (received', new_propagating) =>
            let step_data :=
              record_step total_nodes step received' propagating in
            let step' := S step in
            if total_nodes <? step' then Returned ([step_data], true)
            else
              match message_loop fuel' G total_nodes step'
                      received' new_propagating with
              | Returned (steps, warned) => Returned (step_data :: steps, warned)
              | Raised => Raised
              | OutOfFuel => OutOfFuel
              end
        end
  end.

Definition message_simulate_propagation (G : adjacency) (origin_node : nat)
  : outcome (list StepData * bool) :=
  let total_nodes := size G in
  message_loop (S total_nodes) G total_nodes 0 {[origin_node]} {[origin_node]}.

(** ** [SimpleNetworkAnalyzer.simulate_propagation] *)
Fixpoint simple_loop (fuel : nat) (network : adjacency) (total_nodes step : nat)
    (received propagating : gset nat) : outcome (list StepData * bool) :=
  match fuel with
  | O => OutOfFuel
  | S fuel' =>
      if decide (propagating ≠ ∅ ∧ size received < total_nodes) then
        let '(received', new_propagating) :=
          simple_round network received (elements propagating) in
        let step_data :=
          record_step total_nodes step received' propagating in
        let step' := S step in
        if total_nodes <? step' then Returned ([step_data], true)
        else
          match simple_loop fuel' network total_nodes step'
                  received' new_propagating with
          | Returned (steps, warned) => Returned (step_data :: steps, warned)
          | Raised => Raised
          | OutOfFuel => OutOfFuel
          end
      else Returned ([], false)
  end.

Definition simple_simulate_propagation (total_nodes : nat)
    (network : adjacency) (origin_node : nat)
  : outcome (list StepData * bool) :=
  simple_loop (S total_nodes) network total_nodes 0
    {[origin_node]} {[origin_node]}.

(** ** The six-node cycle 0-1-2-3-4-5-0 *)
Definition cycle6 : adjacency :=
  list_to_map [(0, [1; 5]); (1, [0; 2]); (2, [1; 3]);
               (3, [2; 4]); (4, [3; 5]); (5, [4; 0])].

(** The nodes adjacent to some node of [nodes]. *)
Definition neighborhood (network : adjacency) (nodes : list nat) : gset nat :=
  ⋃ (map (λ node, list_to_set (network_get network node)) nodes).

(** * Executions as sequences of rounds

    [rounds network N k R P steps Rf Pf]: starting round [k] with received
    set [R] and wavefront [P], some number of consecutive rounds is run,
    appending [steps] and leaving the sets [Rf] and [Pf].  Both loops
    perform such a sequence; they differ in when they stop. *)
Inductive rounds (network : adjacency) (total_nodes : nat)
  : nat → gset nat → gset nat → list StepData → gset nat → gset nat → Prop :=
  | rounds_done k R P :
      rounds network total_nodes k R P [] R P
  | rounds_step k R P R' P' steps Rf Pf :
      P ≠ ∅ →
      simple_round network R (elements P) = (R', P') →
      rounds network total_nodes (S k) R' P' steps Rf Pf →
      rounds network total_nodes k R P
        (record_step total_nodes k R' P :: steps) Rf Pf.

(** [received_count] of record [i], and the size of the received set with
    which round [k] starts ([r0] before the first recorded round). *)
Definition received_at (steps : list StepData) (i : nat) : nat :=
  from_option received_count 0 (steps !! i).

Definition received_before (r0 : nat) (steps : list StepData) (k : nat) : nat :=
  match k with
  | O => r0
  | S j => received_at steps j
  end.

Definition received_nondecreasing (steps : list StepData) : Prop :=
  ∀ i r1 r2, steps !! i = Some r1 → steps !! S i = Some r2 →
             received_count r1 ≤ received_count r2.

Definition pending_consistent (total_nodes : nat) (steps : list StepData)
  : Prop :=
  ∀ r, r ∈ steps →
       pending_count r = (Z.of_nat total_nodes - Z.of_nat (received_count r))%Z.

(** What the code records: the wavefront of round [k] is the set informed
    in round [k-1]; the first wavefront is the origin alone. *)
Definition propagating_is_previous_arrivals (r0 p0 : nat)
    (steps : list StepData) : Prop :=
  ∀ k r, steps !! k = Some r →
         propagating_count r =
           match k with
           | O => p0
           | S j => received_at steps j - received_before r0 steps j
           end.

(** Every node that has been received and is not in the wavefront has
    already informed all its neighbours. *)
Definition frontier_closed (network : adjacency) (R P : gset nat) : Prop :=
  P ⊆ R ∧ ∀ u v, u ∈ R → u ∉ P → v ∈ network_get network u → v ∈ R.

(** * Graphs

    A networkx graph only lists neighbours that are nodes of the graph. *)
Definition nx_closed (G : adjacency) : Prop :=
  ∀ u v, v ∈ network_get G u → v ∈ dom G.

Definition edge (network : adjacency) (u v : nat) : Prop :=
  v ∈ network_get network u.

Definition connected (network : adjacency) (nodes : gset nat) : Prop :=
  ∀ u v, u ∈ nodes → v ∈ nodes → rtc (edge network) u v.

(** The nodes of the standard-library script are [0 .. total_nodes-1]. *)
Definition node_range (total_nodes : nat) : gset nat := set_seq 0 total_nodes.

Definition simple_closed (total_nodes : nat) (network : adjacency) : Prop :=
  ∀ u v, u < total_nodes → v ∈ network_get network u → v < total_nodes.

(** The step records of a run, when it returned. *)
Definition steps_of (run : outcome (list StepData * bool))
  : option (list StepData) :=
  match run with
  | Returned (steps, _) => Some steps
  | _ => None
  end.

(** The trace the specification expects for [cycle6] with origin 0. *)
Definition expected_cycle6_trace : list StepData :=
  [ mkStep 0 3 2 3; mkStep 1 5 2 1; mkStep 2 6 1 0 ].

(** The property the specification states, for the rounds from [k0] on:
    the wavefront recorded in round [k] has the size of that round's own
    arrivals ([k0 = 0] covers every round, the first one against the initial
    received count of 1). *)
Definition propagating_is_own_arrivals_from (k0 : nat)
    (steps : list StepData) : Prop :=
  ∀ k r, k0 ≤ k → steps !! k = Some r →
         propagating_count r = received_count r - received_before 1 steps k.

(** * Connection probability

    [math.pow] and [numpy.power] on a non-negative base: [x ** 0 = 1] for
    every [x] (also for [x = 0]), and [0 ** y = 0] for [y > 0].  The scripts
    only raise bases [1 - d / max_distance] with [d <= max_distance].  The
    value of [power 0 y] for [y < 0], and that of [d / max_distance] for
    [max_distance = 0], are not those of Python; the statements about a
    probability take [0 < max_distance], and a base of zero only with
    [0 <= distance_weight]. *)
#[local] Instance Req_decision (a b : R) : Decision (a = b) := Req_dec_T a b.
#[local] Instance Rle_decision (a b : R) : Decision (a <= b)%R := Rle_dec a b.
#[local] Instance Rlt_decision (a b : R) : Decision (a < b)%R := Rlt_dec a b.

Definition power (x y : R) : R :=
  if decide (y = 0%R) then 1%R
  else if decide (x = 0%R) then 0%R
  else Rpower x y.

(** [probability = pow(1 - distance / max_distance, distance_weight)] *)
Definition connection_probability (max_distance distance_weight distance : R)
  : R :=
  power (1 - distance / max_distance) distance_weight.

(** * Random sources

    The scripts draw from the global generators of [random] and of
    [numpy.random]; their states are threaded explicitly. *)
Record PyRandom := {
  py_state : Type;
  (** [random.random()] *)
  random_random : py_state → R * py_state;
  (** [random.sample(population, k)] *)
  random_sample : py_state → list nat → nat → list nat * py_state
}.

Record NpRandom := {
  np_state : Type;
  (** one double of [numpy.random.random] *)
  np_random_double : np_state → R * np_state
}.

(** [numpy.random.random(n)]: [n] consecutive doubles of the stream. *)
Fixpoint np_random_random (np : NpRandom) (n : nat) (st : np_state np)
  : list R * np_state np :=
  match n with
  | O => ([], st)
  | S n' =>
      let '(r, st1) := np_random_double np st in
      let '(rs, st2) := np_random_random np n' st1 in
      (r :: rs, st2)
  end.

(** What the proofs need of [random.sample]: it returns members of the
    population. *)
Definition sample_sound (py : PyRandom) : Prop :=
  ∀ st population k x,
    x ∈ (random_sample py st population k).1 → x ∈ population.

Abbreviation position := (R * R)%type.

(** * [simple_large_network_test.py]: the network builder *)

Definition MAX_CONNECTION_DISTANCE : R := 3 / 10.
Definition DISTANCE_WEIGHT : R := 7 / 10.

(** [math.sqrt(dx*dx + dy*dy)] on the reals that the doubles denote; the
    rounding of the double result is not modelled. *)
Definition calculate_distance (pos1 pos2 : position) : R :=
  let dx := (pos1.1 - pos2.1)%R in
  let dy := (pos1.2 - pos2.2)%R in
  sqrt (dx * dx + dy * dy).

(** The [for j, other_pos in enumerate(positions)] loop; [j] is the index
    of the head of [others]. *)
Fixpoint scan_candidates (py : PyRandom) (node_idx : nat) (node_pos : position)
    (j : nat) (others : list position) (st : py_state py)
    (candidates : list nat) : list nat * py_state py :=
  match others with
  | [] => (candidates, st)
  | other_pos :: rest =>
      if decide (j ≠ node_idx) then
        let distance := calculate_distance node_pos other_pos in
        if decide (distance <= MAX_CONNECTION_DISTANCE)%R then
          let probability :=
            connection_probability MAX_CONNECTION_DISTANCE DISTANCE_WEIGHT
              distance in
          let '(r, st1) := random_random py st in
          if decide (r < probability)%R then
            scan_candidates py node_idx node_pos (S j) rest st1
              (candidates ++ [j])
          else
            scan_candidates py node_idx node_pos (S j) rest st1 candidates
        else scan_candidates py node_idx node_pos (S j) rest st candidates
      else scan_candidates py node_idx node_pos (S j) rest st candidates
  end.

(** [None] stands for the [IndexError] of [positions[node_idx]]. *)
Definition find_geographical_neighbors (py : PyRandom)
    (connections_per_node node_idx : nat) (positions : list position)
    (st : py_state py) : option (list nat * py_state py) :=
  match positions !! node_idx with
  | None => None
  | Some node_pos =>
      let '(candidates, st1) :=
        scan_candidates py node_idx node_pos 0 positions st [] in
      if connections_per_node <? length candidates then
        Some (random_sample py st1 candidates connections_per_node)
      else Some (candidates, st1)
  end.

(** Reading [network[i]] on the [defaultdict] creates the key. *)
Definition touch (network : adjacency) (i : nat) : adjacency :=
  <[i := network_get network i]> network.

Definition append_to (network : adjacency) (i x : nat) : adjacency :=
  <[i := network_get network i ++ [x]]> network.

(** [[
      if neighbor not in network[i]:
          network[i].append(neighbor)
          network[neighbor].append(i)
    ]] *)
Definition connect (network : adjacency) (i neighbor : nat) : adjacency :=
  let network := touch network i in
  if decide (neighbor ∈ network_get network i) then network
  else append_to (append_to network i neighbor) neighbor i.

(** [range(start, stop, step)] for [step > 0]. *)
Fixpoint range_step (fuel start stop step : nat) : list nat :=
  match fuel with
  | O => []
  | S fuel' =>
      if start <? stop then start :: range_step fuel' (start + step) stop step
      else []
  end.

Definition py_range (start stop step : nat) : list nat :=
  range_step (stop - start) start stop step.

(** The nodes in the order in which the two nested loops visit them. *)
Definition batched_order (total_nodes batch_size : nat) : list nat :=
  flat_map
    (λ batch_start,
       let batch_end := (batch_start + batch_size) `min` total_nodes in
       seq batch_start (batch_end - batch_start))
    (py_range 0 total_nodes batch_size).

(** The body of the node loop, run over the nodes in a given order. *)
Fixpoint simple_process (py : PyRandom) (connections_per_node : nat)
    (positions : list position) (order : list nat)
    (network : adjacency) (st : py_state py)
  : option (adjacency * py_state py) :=
  match order with
  | [] => Some (network, st)
  | i :: rest =>
      match find_geographical_neighbors py connections_per_node i positions st
      with
      | None => None
      | Some (neighbors, st1) =>
          simple_process py connections_per_node positions rest
            (foldl (λ network neighbor, connect network i neighbor)
                   network neighbors) st1
      end
  end.

(** [SimpleNetworkAnalyzer.create_network]; [range] raises [ValueError] on
    a zero step, which happens for [total_nodes = 0]. *)
Definition create_network (py : PyRandom)
    (total_nodes connections_per_node : nat) (positions : list position)
    (st : py_state py) : option (adjacency * py_state py) :=
  let batch_size := 1000 `min` total_nodes in
  if batch_size =? 0 then None
  else
    simple_process py connections_per_node positions
      (batched_order total_nodes batch_size) ∅ st.

(** * [large_network_analysis.py]: the network builder *)

Definition BATCH_SIZE : nat := 1000.

(** Parameters of [OptimizedNetworkGenerator]. *)
Record Generator := {
  total_nodes : nat;
  connections_per_node : nat;
  max_distance : R;
  distance_weight : R
}.

(** The operations of [networkx.Graph] on its adjacency. *)
Definition nx_add_node (G : adjacency) (n : nat) : adjacency :=
  match G !! n with
  | Some _ => G
  | None => <[n := []]> G
  end.

Definition nx_add_nodes_from (G : adjacency) (nodes : list nat) : adjacency :=
  foldl nx_add_node G nodes.

Definition nx_has_edge (G : adjacency) (u v : nat) : bool :=
  bool_decide (v ∈ network_get G u).

(** [adj[u][v] = {}]: a key already present keeps its place. *)
Definition dict_set (keys : list nat) (k : nat) : list nat :=
  if decide (k ∈ keys) then keys else keys ++ [k].

Definition nx_add_edge (G : adjacency) (u v : nat) : adjacency :=
  let G := nx_add_node (nx_add_node G u) v in
  let G := <[u := dict_set (network_get G u) v]> G in
  <[v := dict_set (network_get G v) u]> G.

(** [_add_connections]; the returned count is only printed and is left
    out. *)
Definition add_connections (G : adjacency) (node_idx : nat)
    (neighbors : list nat) : adjacency :=
  foldl (λ G neighbor,
           if nx_has_edge G node_idx neighbor then G
           else nx_add_edge G node_idx neighbor)
        G neighbors.

(** [numpy.sqrt(numpy.sum((positions - node_pos)**2, axis=1))], likewise
    without rounding. *)
Definition distances_from (node_pos : position) (positions : list position)
  : list R :=
  map (λ p, sqrt ((p.1 - node_pos.1)² + (p.2 - node_pos.2)²)) positions.

(** [nearby_indices[selected_mask]] *)
Fixpoint select_masked (indices : list nat) (mask : list bool) : list nat :=
  match indices, mask with
  | i :: indices', b :: mask' =>
      if b then i :: select_masked indices' mask'
      else select_masked indices' mask'
  | _, _ => []
  end.

Definition opt_find_geographical_neighbors (gen : Generator)
    (np : NpRandom) (py : PyRandom) (node_idx : nat)
    (positions : list position) (st : np_state np * py_state py)
  : option (list nat * (np_state np * py_state py)) :=
  match positions !! node_idx with
  | None => None
  | Some node_pos =>
      let distances := distances_from node_pos positions in
      let nearby_indices :=
        filter (λ j, (nth j distances 0 <= max_distance gen)%R)
               (seq 0 (length positions)) in
      let nearby_indices := filter (λ j, j ≠ node_idx) nearby_indices in
      let '(candidates, np_st) :=
        if 0 <? length nearby_indices then
          let nearby_distances :=
            map (λ j, nth j distances 0%R) nearby_indices in
          let probabilities :=
            map (connection_probability (max_distance gen)
                   (distance_weight gen)) nearby_distances in
          let '(draws, np_st) :=
            np_random_random np (length nearby_indices) st.1 in
          let selected_mask :=
            zip_with (λ r p, bool_decide (r < p)%R) draws probabilities in
          (select_masked nearby_indices selected_mask, np_st)
        else ([], st.1) in
      if connections_per_node gen <? length candidates then
        let '(sampled, py_st) :=
          random_sample py st.2 candidates (connections_per_node gen) in
        Some (sampled, (np_st, py_st))
      else Some (candidates, (np_st, st.2))
  end.

Fixpoint opt_process (gen : Generator) (np : NpRandom) (py : PyRandom)
    (positions : list position) (order : list nat)
    (G : adjacency) (st : np_state np * py_state py)
  : option (adjacency * (np_state np * py_state py)) :=
  match order with
  | [] => Some (G, st)
  | i :: rest =>
      match opt_find_geographical_neighbors gen np py i positions st with
      | None => None
      | Some (neighbors, st1) =>
          opt_process gen np py positions rest
            (add_connections G i neighbors) st1
      end
  end.

(** [create_geographical_network_optimized], for a given batch size; the
    script runs it with [BATCH_SIZE]. *)
Definition create_with_batch_size (batch_size : nat) (gen : Generator)
    (np : NpRandom) (py : PyRandom) (positions : list position)
    (st : np_state np * py_state py)
  : option (adjacency * (np_state np * py_state py)) :=
  let G := nx_add_nodes_from ∅ (seq 0 (total_nodes gen)) in
  opt_process gen np py positions
    (batched_order (total_nodes gen) batch_size) G st.

Definition create_geographical_network_optimized :=
  create_with_batch_size BATCH_SIZE.

(** * Graph invariants *)

Definition no_self_loop (G : adjacency) : Prop :=
  ∀ u, u ∉ network_get G u.

Definition symmetric (G : adjacency) : Prop :=
  ∀ u v, v ∈ network_get G u ↔ u ∈ network_get G v.

Definition no_duplicate_edge (G : adjacency) : Prop :=
  ∀ u, NoDup (network_get G u).

Definition simple_graph (G : adjacency) : Prop :=
  no_self_loop G ∧ symmetric G ∧ no_duplicate_edge G.

(** The undirected edges of an adjacency, each as (smaller, larger). *)
Definition edge_set (G : adjacency) : gset (nat * nat) :=
  list_to_set
    (flat_map (λ '(u, neighbors),
                 map (λ v, (u `min` v, u `max` v)) neighbors)
              (map_to_list G)).

(** * Test doubles for the random sources

    A generator that replays a recorded list of doubles (and then zeros),
    and a [random] module whose [sample] returns the first [k] members. *)
Definition replay (st : list R) : R * list R :=
  match st with
  | r :: st' => (r, st')
  | [] => (0%R, [])
  end.

Definition replay_np : NpRandom :=
  {| np_state := list R; np_random_double := replay |}.

Definition replay_py : PyRandom :=
  {| py_state := list R;
     random_random := replay;
     random_sample := λ st population k, (take k population, st) |}.

(** Three nodes on a line, every pair within distance 1. *)
Definition line3 : list position :=
  [ (0, 0); (1 / 2, 0); (3 / 4, 0) ]%R.

Definition gen3 : Generator :=
  {| total_nodes := 3; connections_per_node := 2;
     max_distance := 1; distance_weight := 1 |}.

Definition draws6 : list R :=
  [ 6 / 10; 9 / 10; 9 / 10; 9 / 10; 9 / 10; 7 / 10 ]%R.

(** * [NetworkAnalyzer.analyze_network_properties]

    The values stored in the report dictionary. *)
Inductive py_value : Type :=
  | VInt (n : Z)
  | VFloat (x : R)
  | VBool (b : bool)
  | VInf.

(** The networkx functions the analysis calls.  [None] stands for a raised
    exception. *)
Record Networkx := {
  (** [len(graph.edges())] *)
  nx_number_of_edges : adjacency → nat;
  nx_density : adjacency → R;
  nx_is_connected : adjacency → option bool;
  nx_number_connected_components : adjacency → nat;
  nx_average_clustering : adjacency → option R;
  nx_average_shortest_path_length : adjacency → option R
}.

Definition analyze_network_properties (nx : Networkx) (G : adjacency)
  : option (gmap string py_value) :=
  let total_nodes := size G in
  let total_edges := nx_number_of_edges nx G in
  match nx_is_connected nx G with
  | None => None
  | Some is_connected =>
      let properties : gmap string py_value :=
        <["number_of_components" :=
            VInt (Z.of_nat (nx_number_connected_components nx G))]>
        (<["is_connected" := VBool is_connected]>
        (<["density" := VFloat (nx_density nx G)]>
        (<["average_degree" :=
            if 0 <? total_nodes
            then VFloat (2 * INR total_edges / INR total_nodes)
            else VInt 0]>
        (<["total_edges" := VInt (Z.of_nat total_edges)]>
        (<["total_nodes" := VInt (Z.of_nat total_nodes)]> ∅))))) in
      if is_connected then
        match nx_average_clustering nx G with
        | Some clustering =>
            match nx_average_shortest_path_length nx G with
            | Some path_length =>
                Some (<["average_path_length" := VFloat path_length]>
                      (<["average_clustering" := VFloat clustering]>
                       properties))
            | None =>
                Some (<["average_path_length" := VInf]>
                      (<["average_clustering" := VInt 0]> properties))
            end
        | None =>
            Some (<["average_path_length" := VInf]>
                  (<["average_clustering" := VInt 0]> properties))
        end
      else Some properties
  end.

(** A metric is reported as undefined when its entry holds the sentinel. *)
Definition reported_undefined (properties : gmap string py_value)
    (key : string) : Prop :=
  properties !! key = Some VInf.

(** Two nodes without an edge, and what networkx answers for this graph. *)
Definition two_isolated : adjacency := {[ 0 := [] ; 1 := [] ]}.

Definition nx_two_isolated : Networkx :=
  {| nx_number_of_edges := λ _, 0;
     nx_density := λ _, 0%R;
     nx_is_connected := λ _, Some false;
     nx_number_connected_components := λ _, 2;
     nx_average_clustering := λ _, Some 0%R;
     nx_average_shortest_path_length := λ _, None |}.

(** * Further definitions

    The nodes reachable from the origin, as a finite set. *)
Definition component_of (network : adjacency) (origin_node : nat)
    (C : gset nat) : Prop :=
  ∀ v, v ∈ C ↔ rtc (edge network) origin_node v.

(** The number of sends recorded in a trace. *)
Definition total_propagating (steps : list StepData) : nat :=
  sum_list (propagating_count <$> steps).

(** Two triangles 0-1-2 and 3-4-5 without a cross edge. *)
Definition two_triangles : adjacency :=
  list_to_map [(0, [1; 2]); (1, [0; 2]); (2, [0; 1]);
               (3, [4; 5]); (4, [3; 5]); (5, [3; 4])].

Definition first_triangle : gset nat := list_to_set [0; 1; 2].

(** * Positions

    [SimpleNetworkAnalyzer.generate_positions]: two calls of
    [random.random()] per node. *)
Fixpoint generate_positions (py : PyRandom) (total_nodes : nat)
    (st : py_state py) : list position * py_state py :=
  match total_nodes with
  | O => ([], st)
  | S n =>
      let '(x, st1) := random_random py st in
      let '(y, st2) := random_random py st1 in
      let '(positions, st3) := generate_positions py n st2 in
      ((x, y) :: positions, st3)
  end.

(** The rows of an array of shape (n, 2) filled in C order. *)
Fixpoint rows_of_two (doubles : list R) : list position :=
  match doubles with
  | x :: y :: rest => (x, y) :: rows_of_two rest
  | _ => []
  end.

(** [OptimizedNetworkGenerator.generate_positions]:
    [numpy.random.rand(total_nodes, 2)]. *)
Definition opt_generate_positions (gen : Generator) (np : NpRandom)
    (st : np_state np) : list position * np_state np :=
  let '(doubles, st1) := np_random_random np (total_nodes gen * 2) st in
  (rows_of_two doubles, st1).

(** Both generators document doubles in [0, 1). *)
Definition py_unit_interval (py : PyRandom) : Prop :=
  ∀ st, (0 <= (random_random py st).1 < 1)%R.

Definition np_unit_interval (np : NpRandom) : Prop :=
  ∀ st, (0 <= (np_random_double np st).1 < 1)%R.

Definition in_unit_square (p : position) : Prop :=
  (0 <= p.1 < 1)%R ∧ (0 <= p.2 < 1)%R.

(** [random.sample(population, k)] returns [k] members. *)
Definition sample_exact (py : PyRandom) : Prop :=
  ∀ st population k,
    k ≤ length population →
    length (random_sample py st population k).1 = k.

(** [random.sample] picks members at distinct places: from a population
    without repetition it returns a list without repetition. *)
Definition sample_distinct (py : PyRandom) : Prop :=
  ∀ st population k,
    NoDup population → NoDup (random_sample py st population k).1.

(** Keys and listed neighbours are all members of [nodes]. *)
Definition ids_within (nodes : gset nat) (G : adjacency) : Prop :=
  dom G ⊆ nodes ∧ ∀ u v, v ∈ network_get G u → v ∈ nodes.

(** What the neighbour search promises about a returned candidate [x] of
    node [node_idx]. *)
Definition admissible (positions : list position) (d : R)
    (node_idx x : nat) : Prop :=
  x ≠ node_idx ∧
  ∃ p px, positions !! node_idx = Some p ∧ positions !! x = Some px ∧
          (calculate_distance p px <= d)%R.

(** Generators whose every double is one half. *)
Definition half_py : PyRandom :=
  {| py_state := unit;
     random_random := λ st, ((1 / 2)%R, st);
     random_sample := λ st population k, (take k population, st) |}.

Definition half_np : NpRandom :=
  {| np_state := unit; np_random_double := λ st, ((1 / 2)%R, st) |}.

(** Every listed pair of neighbours satisfies [E]. *)
Definition edges_satisfy (E : nat → nat → Prop) (G : adjacency) : Prop :=
  ∀ u v, v ∈ network_get G u → E u v.

(** * [NetworkAnalyzer.analyze_propagation_performance]

    A step record together with its two wall-clock fields. *)
Record TimedStep := {
  step_data : StepData;
  step_time : R;
  total_time : R
}.

(** [numpy.mean] of a non-empty list. *)
Definition mean (xs : list R) : R :=
  (foldr Rplus 0 xs / INR (length xs))%R.

(** The performance dictionary; [None] stands for the [ZeroDivisionError]
    of dividing by a node count of zero.  The standard-library script
    computes the same entries inline in [analyze_network_size]. *)
Definition analyze_propagation_performance (total_nodes : nat)
    (propagation_steps : list TimedStep) : option (gmap string py_value) :=
  match last propagation_steps with
  | None => Some ∅
  | Some final_step =>
      if total_nodes =? 0 then None
      else
        Some
          (<["propagation_efficiency" :=
              VFloat (INR (received_count (step_data final_step))
                      / INR (length propagation_steps))]>
          (<["max_propagating_nodes" :=
              VInt (Z.of_nat
                      (max_list
                         ((propagating_count ∘ step_data)
                            <$> propagation_steps)))]>
          (<["average_step_time" :=
              VFloat (mean (step_time <$> propagation_steps))]>
          (<["coverage_percentage" :=
              VFloat (INR (received_count (step_data final_step))
                      / INR total_nodes * 100)]>
          (<["total_time" := VFloat (total_time final_step)]>
          (<["total_steps" :=
              VInt (Z.of_nat (length propagation_steps))]> ∅))))))
  end.

(** A trace with arbitrary clock readings attached. *)
Definition with_clock (steps : list StepData) : list TimedStep :=
  (λ s, {| step_data := s; step_time := 0; total_time := 0 |}) <$> steps.

(** * [SimpleNetworkAnalyzer.is_connected] and [count_components]

    The [while queue] loop shared by both: [visited] is a set, [queue] a
    deque used first-in first-out.  Reading [network[node]] may create a
    key, so the network is threaded through.  [None]: out of fuel. *)
Fixpoint bfs_loop (fuel : nat) (network : adjacency) (visited : gset nat)
    (queue : list nat) : option (gset nat * adjacency) :=
  match fuel with
  | O => None
  | S fuel' =>
      match queue with
      | [] => Some (visited, network)
      | node :: queue' =>
          if decide (node ∈ visited) then
            bfs_loop fuel' network visited queue'
          else
            let visited' := {[node]} ∪ visited in
            let neighbors := network_get network node in
            bfs_loop fuel' (touch network node) visited'
              (queue' ++ filter (λ neighbor, neighbor ∉ visited') neighbors)
      end
  end.

(** The number of list entries of a network. *)
Definition degree_sum (network : adjacency) : nat :=
  sum_list ((λ kv, length kv.2) <$> map_to_list network).

(** Fuel that is enough for a search started with [n] queued nodes. *)
Definition bfs_fuel (network : adjacency) (n : nat) : nat :=
  S (n + degree_sum network).

(** [is_connected]: the answer and the network as the search leaves it. *)
Definition is_connected (network : adjacency) : option (bool * adjacency) :=
  if decide (network = ∅) then Some (false, network)
  else
    match bfs_loop (bfs_fuel network 1) network ∅ [0] with
    | None => None
    | Some (visited, network') =>
        Some (bool_decide (size visited = size network'), network')
    end.

(** The entries of a network that belong to nodes not yet visited. *)
Definition pending_degree (network : adjacency) (visited : gset nat) : nat :=
  sum_list ((λ kv, if decide (kv.1 ∈ visited) then 0 else length kv.2)
              <$> map_to_list network).

(** [count_components]: [keys] is the order in which [for node in network]
    visits the keys.  A search that creates a key changes the size of the
    dictionary under iteration, which raises [RuntimeError]. *)
Fixpoint count_loop (fuel : nat) (size0 : nat) (keys : list nat)
    (network : adjacency) (visited : gset nat) (components : nat)
  : outcome nat :=
  match keys with
  | [] => Returned components
  | node :: rest =>
      if decide (node ∈ visited) then
        count_loop fuel size0 rest network visited components
      else
        match bfs_loop fuel network visited [node] with
        | None => OutOfFuel
        | Some (visited', network') =>
            if decide (size network' = size0) then
              count_loop fuel size0 rest network' visited' (S components)
            else Raised
        end
  end.

Definition count_components (network : adjacency) (keys : list nat)
  : outcome nat :=
  if decide (network = ∅) then Returned 0
  else count_loop (bfs_fuel network 1) (size network) keys network ∅ 0.

(** * [SimpleNetworkAnalyzer.analyze_network_properties]

    The neighbour entries of a network as ordered pairs. *)
Definition directed_edges (G : adjacency) : list (nat * nat) :=
  map_to_list G ≫= (λ kv, (λ v, (kv.1, v)) <$> kv.2).

(** The report of the standard-library script.  [is_connected] runs
    before [count_components] and hands it the network as it leaves it;
    [keys] is the order in which [count_components] iterates the keys. *)
Definition simple_analyze_network_properties (network : adjacency)
    (keys : list nat) : outcome (gmap string py_value) :=
  let total_edges := degree_sum network / 2 in
  let total_nodes := size network in
  match is_connected network with
  | None => OutOfFuel
  | Some (answer, network1) =>
      match count_components network1 keys with
      | Returned components =>
          Returned
            (<["number_of_components" := VInt (Z.of_nat components)]>
            (<["is_connected" := VBool answer]>
            (<["density" :=
                if 1 <? total_nodes
                then VFloat (INR (2 * total_edges)
                             / INR (total_nodes * (total_nodes - 1)))
                else VInt 0]>
            (<["average_degree" :=
                if 0 <? total_nodes
                then VFloat (INR (2 * total_edges) / INR total_nodes)
                else VInt 0]>
            (<["total_edges" := VInt (Z.of_nat total_edges)]>
            (<["total_nodes" := VInt (Z.of_nat total_nodes)]> ∅))))))
      | Raised => Raised
      | OutOfFuel => OutOfFuel
      end
  end.

(** * The builders on Python integers

    [total_nodes] and [connections_per_node] are whatever integers the
    caller passes.  The definitions below follow the source lines of
    [create_network] and [create_geographical_network_optimized] once more,
    with the two counts in [Z]; on non-negative counts they coincide with
    the definitions above.

    [range(start, stop, step)] for a non-zero step; [fuel] bounds the
    number of elements. *)
Fixpoint int_range_from (fuel : nat) (start stop step : Z) : list Z :=
  match fuel with
  | O => []
  | S fuel' =>
      if (if 0 <? step then start <? stop else stop <? start)%Z
      then start :: int_range_from fuel' (start + step) stop step
      else []
  end.

(** [None] is the [ValueError] of a zero step. *)
Definition int_range (start stop step : Z) : option (list Z) :=
  if (step =? 0)%Z then None
  else Some (int_range_from (Z.to_nat (Z.abs (stop - start))) start stop step).

(** The values of [i] in
    [[
      for batch_start in range(0, total_nodes, batch_size):
          batch_end = min(batch_start + batch_size, total_nodes)
          for i in range(batch_start, batch_end):
    ]] *)
Definition int_batched_order (total_nodes batch_size : Z)
  : option (list Z) :=
  match int_range 0 total_nodes batch_size with
  | None => None
  | Some batch_starts =>
      Some (flat_map
              (λ batch_start,
                 let batch_end :=
                   Z.min (batch_start + batch_size) total_nodes in
                 default [] (int_range batch_start batch_end 1))
              batch_starts)
  end.

(** [random.sample(population, k)] raises [ValueError] unless
    [0 <= k <= len(population)]. *)
Definition int_random_sample (py : PyRandom) (st : py_state py)
    (population : list nat) (k : Z) : option (list nat * py_state py) :=
  if decide (0 ≤ k ≤ Z.of_nat (length population))%Z
  then Some (random_sample py st population (Z.to_nat k))
  else None.

Definition int_find_geographical_neighbors (py : PyRandom)
    (connections_per_node : Z) (node_idx : nat) (positions : list position)
    (st : py_state py) : option (list nat * py_state py) :=
  match positions !! node_idx with
  | None => None
  | Some node_pos =>
      let '(candidates, st1) :=
        scan_candidates py node_idx node_pos 0 positions st [] in
      if (connections_per_node <? Z.of_nat (length candidates))%Z then
        int_random_sample py st1 candidates connections_per_node
      else Some (candidates, st1)
  end.

Fixpoint int_simple_process (py : PyRandom) (connections_per_node : Z)
    (positions : list position) (order : list nat)
    (network : adjacency) (st : py_state py)
  : option (adjacency * py_state py) :=
  match order with
  | [] => Some (network, st)
  | i :: rest =>
      match int_find_geographical_neighbors py connections_per_node i
              positions st
      with
      | None => None
      | Some (neighbors, st1) =>
          int_simple_process py connections_per_node positions rest
            (foldl (λ network neighbor, connect network i neighbor)
                   network neighbors) st1
      end
  end.

(** [SimpleNetworkAnalyzer.create_network].  The loops only visit indices
    from 0 upwards ([int_batched_order_nonneg]), so that reading them as
    naturals loses nothing. *)
Definition int_create_network (py : PyRandom)
    (total_nodes connections_per_node : Z) (positions : list position)
    (st : py_state py) : option (adjacency * py_state py) :=
  let batch_size := Z.min 1000 total_nodes in
  match int_batched_order total_nodes batch_size with
  | None => None
  | Some order =>
      int_simple_process py connections_per_node positions
        (Z.to_nat <$> order) ∅ st
  end.

(** Parameters of [OptimizedNetworkGenerator], the counts as integers. *)
Record IntGenerator := {
  int_total_nodes : Z;
  int_connections_per_node : Z;
  int_max_distance : R;
  int_distance_weight : R
}.

Definition int_generator (gen : Generator) : IntGenerator :=
  {| int_total_nodes := Z.of_nat (total_nodes gen);
     int_connections_per_node := Z.of_nat (connections_per_node gen);
     int_max_distance := max_distance gen;
     int_distance_weight := distance_weight gen |}.

Definition int_opt_find_geographical_neighbors (gen : IntGenerator)
    (np : NpRandom) (py : PyRandom) (node_idx : nat)
    (positions : list position) (st : np_state np * py_state py)
  : option (list nat * (np_state np * py_state py)) :=
  match positions !! node_idx with
  | None => None
  | Some node_pos =>
      let distances := distances_from node_pos positions in
      let nearby_indices :=
        filter (λ j, (nth j distances 0 <= int_max_distance gen)%R)
               (seq 0 (length positions)) in
      let nearby_indices := filter (λ j, j ≠ node_idx) nearby_indices in
      let '(candidates, np_st) :=
        if 0 <? length nearby_indices then
          let nearby_distances :=
            map (λ j, nth j distances 0%R) nearby_indices in
          let probabilities :=
            map (connection_probability (int_max_distance gen)
                   (int_distance_weight gen)) nearby_distances in
          let '(draws, np_st) :=
            np_random_random np (length nearby_indices) st.1 in
          let selected_mask :=
            zip_with (λ r p, bool_decide (r < p)%R) draws probabilities in
          (select_masked nearby_indices selected_mask, np_st)
        else ([], st.1) in
      if (int_connections_per_node gen <? Z.of_nat (length candidates))%Z then
        match int_random_sample py st.2 candidates
                (int_connections_per_node gen) with
        | None => None
        | Some (sampled, py_st) => Some (sampled, (np_st, py_st))
        end
      else Some (candidates, (np_st, st.2))
  end.

Fixpoint int_opt_process (gen : IntGenerator) (np : NpRandom) (py : PyRandom)
    (positions : list position) (order : list nat)
    (G : adjacency) (st : np_state np * py_state py)
  : option (adjacency * (np_state np * py_state py)) :=
  match order with
  | [] => Some (G, st)
  | i :: rest =>
      match int_opt_find_geographical_neighbors gen np py i positions st with
      | None => None
      | Some (neighbors, st1) =>
          int_opt_process gen np py positions rest
            (add_connections G i neighbors) st1
      end
  end.

(** [create_geographical_network_optimized]; the dictionary comprehension
    [{i: positions[i] for i in range(self.total_nodes)}] raises
    [IndexError] when a node has no position. *)
Definition int_create_geographical_network_optimized (gen : IntGenerator)
    (np : NpRandom) (py : PyRandom) (positions : list position)
    (st : np_state np * py_state py)
  : option (adjacency * (np_state np * py_state py)) :=
  let nodes := default [] (int_range 0 (int_total_nodes gen) 1) in
  let G := nx_add_nodes_from ∅ (Z.to_nat <$> nodes) in
  match mapM (λ i, positions !! Z.to_nat i) nodes with
  | None => None
  | Some pos_dict =>
      match int_batched_order (int_total_nodes gen) (Z.of_nat BATCH_SIZE) with
      | None => None
      | Some order =>
          int_opt_process gen np py positions (Z.to_nat <$> order) G st
      end
  end.
(** * Facts about one round *)

Lemma inform_sets st neighbor :
  inform st neighbor = ({[neighbor]} ∪ st.1, st.2 ∪ ({[neighbor]} ∖ st.1)).
Proof.
  destruct st as [R P]. unfold inform. simpl.
  destruct (decide (neighbor ∈ R)); f_equal; set_solver.
Qed.

Lemma send_to_sets neighbors : ∀ st,
  send_to st neighbors =
    (st.1 ∪ list_to_set neighbors, st.2 ∪ (list_to_set neighbors ∖ st.1)).
Proof.
  unfold send_to. induction neighbors as [|n ns IH]; intros [R P]; simpl.
  - f_equal; set_solver.
  - rewrite IH, inform_sets. simpl. f_equal.
    + set_solver.
    + apply set_eq. intros x. destruct (decide (x = n)); set_solver.
Qed.

Lemma simple_fold_sets network nodes : ∀ st,
  foldl (λ st node, send_to st (network_get network node)) st nodes =
    (st.1 ∪ neighborhood network nodes,
     st.2 ∪ (neighborhood network nodes ∖ st.1)).
Proof.
  unfold neighborhood.
  induction nodes as [|n ns IH]; intros [R P]; simpl.
  - f_equal; set_solver.
  - rewrite IH, send_to_sets. simpl. f_equal.
    + set_solver.
    + apply set_eq. intros x.
      destruct (decide (x ∈ (list_to_set (network_get network n) : gset nat)));
        set_solver.
Qed.

Lemma simple_round_sets network received nodes :
  simple_round network received nodes =
    (received ∪ neighborhood network nodes,
     neighborhood network nodes ∖ received).
Proof.
  unfold simple_round. rewrite simple_fold_sets. simpl. f_equal. set_solver.
Qed.

Lemma elem_of_neighborhood network nodes v :
  v ∈ neighborhood network nodes ↔
  ∃ u, u ∈ nodes ∧ v ∈ network_get network u.
Proof.
  unfold neighborhood. rewrite elem_of_union_list. split.
  - intros (X & HX & Hv). apply list_elem_of_fmap in HX as (u & -> & Hu).
    exists u. split; [done|]. by apply elem_of_list_to_set in Hv.
  - intros (u & Hu & Hv). exists (list_to_set (network_get network u)).
    split; [|by apply elem_of_list_to_set].
    apply list_elem_of_fmap. eauto.
Qed.

(** When no lookup raises, the networkx round computes what the
    [defaultdict] round computes. *)
Lemma nx_send_all_Some G nodes : ∀ st res,
  nx_send_all G st nodes = Some res →
  res = foldl (λ st node, send_to st (network_get G node)) st nodes.
Proof.
  induction nodes as [|n ns IH]; intros st res; simpl.
  - congruence.
  - unfold nx_neighbors, network_get.
    destruct (G !! n) as [l|] eqn:E; [|done]. simpl. apply IH.
Qed.

Lemma nx_round_Some G received nodes res :
  nx_round G received nodes = Some res →
  res = simple_round G received nodes.
Proof. apply nx_send_all_Some. Qed.

Lemma nx_send_all_dom G nodes : ∀ st,
  (∀ u, u ∈ nodes → u ∈ dom G) →
  nx_send_all G st nodes =
    Some (foldl (λ st node, send_to st (network_get G node)) st nodes).
Proof.
  induction nodes as [|n ns IH]; intros st Hdom; simpl; [done|].
  unfold nx_neighbors, network_get.
  assert (n ∈ dom G) as [l Hl]%elem_of_dom by (apply Hdom; left).
  rewrite Hl. simpl. apply IH. intros u Hu. apply Hdom. by right.
Qed.

Lemma nx_round_dom G received (propagating : gset nat) :
  propagating ⊆ dom G →
  nx_round G received (elements propagating) =
    Some (simple_round G received (elements propagating)).
Proof.
  intros Hsub. apply nx_send_all_dom. intros u Hu%elem_of_elements. auto.
Qed.

Lemma nx_round_None G received nodes :
  nx_round G received nodes = None → ∃ u, u ∈ nodes ∧ u ∉ dom G.
Proof.
  unfold nx_round. generalize (received, (∅ : gset nat)).
  induction nodes as [|n ns IH]; intros st; simpl; [done|].
  unfold nx_neighbors. destruct (G !! n) as [l|] eqn:E.
  - intros (u & Hu & Hd)%IH. exists u. split; [by right|done].
  - intros _. exists n. split; [left|]. by apply not_elem_of_dom.
Qed.

Lemma message_loop_rounds fuel : ∀ G N k R P steps warned,
  message_loop fuel G N k R P = Returned (steps, warned) →
  ∃ Rf Pf, rounds G N k R P steps Rf Pf ∧
           (if warned then N < k + length steps else Pf = ∅).
Proof.
  induction fuel as [|fuel IH]; intros G N k R P steps warned; simpl; [done|].
  destruct (decide (P = ∅)) as [HP|HP].
  { intros [= <- <-]. exists R, P. split; [constructor|done]. }
  destruct (nx_round G R (elements P)) as [[R' P']|] eqn:Hround; [|done].
  apply nx_round_Some in Hround. symmetry in Hround.
  destruct (N <? S k) eqn:Hguard.
  { intros [= <- <-]. exists R', P'. split.
    - eapply rounds_step; [done..|constructor].
    - apply Nat.ltb_lt in Hguard. simpl. lia. }
  destruct (message_loop fuel G N (S k) R' P') as [[steps' warned']| |] eqn:Hrec;
    [|done..].
  intros [= <- <-]. apply IH in Hrec as (Rf & Pf & Hrounds & Hstop).
  exists Rf, Pf. split; [by eapply rounds_step|].
  destruct warned'; [simpl; lia|done].
Qed.

Lemma simple_loop_rounds fuel : ∀ network N k R P steps warned,
  simple_loop fuel network N k R P = Returned (steps, warned) →
  ∃ Rf Pf, rounds network N k R P steps Rf Pf ∧
           (if warned then N < k + length steps
            else Pf = ∅ ∨ N ≤ size Rf).
Proof.
  induction fuel as [|fuel IH]; intros network N k R P steps warned; simpl;
    [done|].
  destruct (decide (P ≠ ∅ ∧ size R < N)) as [[HP HR]|Hstop].
  2:{ intros [= <- <-]. exists R, P. split; [constructor|].
      destruct (decide (P = ∅)); [by left|right]. 
      apply not_and_l in Hstop as [?|?]; [done|lia]. }
  destruct (simple_round network R (elements P)) as [R' P'] eqn:Hround.
  destruct (N <? S k) eqn:Hguard.
  { intros [= <- <-]. exists R', P'. split.
    - eapply rounds_step; [done..|constructor].
    - apply Nat.ltb_lt in Hguard. simpl. lia. }
  destruct (simple_loop fuel network N (S k) R' P')
    as [[steps' warned']| |] eqn:Hrec; [|done..].
  intros [= <- <-]. apply IH in Hrec as (Rf & Pf & Hrounds & Hstop).
  exists Rf, Pf. split; [by eapply rounds_step|].
  destruct warned'; [simpl; lia|done].
Qed.

(** ** The loops never run out of fuel *)

Lemma message_loop_fuel fuel : ∀ G N k R P,
  N - k < fuel → message_loop fuel G N k R P ≠ OutOfFuel.
Proof.
  induction fuel as [|fuel IH]; intros G N k R P Hfuel; simpl; [lia|].
  destruct (decide (P = ∅)); [done|].
  destruct (nx_round G R (elements P)) as [[R' P']|]; [|done].
  destruct (N <? S k) eqn:Hguard; [done|].
  apply Nat.ltb_ge in Hguard.
  specialize (IH G N (S k) R' P').
  destruct (message_loop fuel G N (S k) R' P') as [[??]| |]; [done..|].
  apply IH. lia.
Qed.

Lemma simple_loop_fuel fuel : ∀ network N k R P,
  N - k < fuel → ∃ steps warned,
    simple_loop fuel network N k R P = Returned (steps, warned).
Proof.
  induction fuel as [|fuel IH]; intros network N k R P Hfuel; simpl; [lia|].
  destruct (decide (P ≠ ∅ ∧ size R < N)); [|by eauto].
  destruct (simple_round network R (elements P)) as [R' P'].
  destruct (N <? S k) eqn:Hguard; [by eauto|].
  apply Nat.ltb_ge in Hguard.
  destruct (IH network N (S k) R' P') as (steps & warned & ->); [lia|].
  by eauto.
Qed.

(** ** Length of the trace and the safety check *)

Lemma message_loop_length fuel : ∀ G N k R P steps warned,
  message_loop fuel G N k R P = Returned (steps, warned) →
  length steps ≤ S (N - k) ∧
  (warned = true ↔ steps ≠ [] ∧ N < k + length steps).
Proof.
  induction fuel as [|fuel IH]; intros G N k R P steps warned; simpl; [done|].
  destruct (decide (P = ∅)).
  { intros [= <- <-]. simpl. split; [lia|]. split; [done|]. by intros [? _]. }
  destruct (nx_round G R (elements P)) as [[R' P']|]; [|done].
  destruct (N <? S k) eqn:Hguard.
  { apply Nat.ltb_lt in Hguard. intros [= <- <-]. simpl.
    split; [lia|]. split; [|done]. intros _. split; [done|lia]. }
  apply Nat.ltb_ge in Hguard.
  destruct (message_loop fuel G N (S k) R' P') as [[steps' warned']| |] eqn:Hrec;
    [|done..].
  intros [= <- <-]. apply IH in Hrec as [Hlen Hwarn]. simpl.
  split; [lia|]. rewrite Hwarn. split.
  - intros [? ?]. split; [done|lia].
  - intros [_ ?]. split; [|lia]. intros ->. simpl in *. lia.
Qed.

Lemma simple_loop_length fuel : ∀ network N k R P steps warned,
  simple_loop fuel network N k R P = Returned (steps, warned) →
  length steps ≤ S (N - k) ∧
  (warned = true ↔ steps ≠ [] ∧ N < k + length steps).
Proof.
  induction fuel as [|fuel IH]; intros network N k R P steps warned; simpl;
    [done|].
  destruct (decide (P ≠ ∅ ∧ size R < N)).
  2:{ intros [= <- <-]. simpl. split; [lia|]. split; [done|]. by intros [? _]. }
  destruct (simple_round network R (elements P)) as [R' P'].
  destruct (N <? S k) eqn:Hguard.
  { apply Nat.ltb_lt in Hguard. intros [= <- <-]. simpl.
    split; [lia|]. split; [|done]. intros _. split; [done|lia]. }
  apply Nat.ltb_ge in Hguard.
  destruct (simple_loop fuel network N (S k) R' P')
    as [[steps' warned']| |] eqn:Hrec; [|done..].
  intros [= <- <-]. apply IH in Hrec as [Hlen Hwarn]. simpl.
  split; [lia|]. rewrite Hwarn. split.
  - intros [? ?]. split; [done|lia].
  - intros [_ ?]. split; [|lia]. intros ->. simpl in *. lia.
Qed.

(** * What a round does to the two sets *)

Lemma round_received network R (P R' P' : gset nat) v :
  simple_round network R (elements P) = (R', P') →
  v ∈ R' ↔ v ∈ R ∨ ∃ u, u ∈ P ∧ v ∈ network_get network u.
Proof.
  rewrite simple_round_sets. intros [= <- <-].
  rewrite elem_of_union, elem_of_neighborhood.
  by setoid_rewrite elem_of_elements.
Qed.

Lemma round_new_propagating network R (P R' P' : gset nat) v :
  simple_round network R (elements P) = (R', P') →
  v ∈ P' ↔ (v ∉ R) ∧ ∃ u, u ∈ P ∧ v ∈ network_get network u.
Proof.
  rewrite simple_round_sets. intros [= <- <-].
  rewrite elem_of_difference, elem_of_neighborhood.
  setoid_rewrite elem_of_elements. tauto.
Qed.

Lemma round_split network R (P R' P' : gset nat) :
  simple_round network R (elements P) = (R', P') →
  R' = R ∪ P' ∧ R ## P'.
Proof.
  rewrite simple_round_sets. intros [= <- <-]. split.
  - apply set_eq. intros x.
    destruct (decide (x ∈ R)); set_solver.
  - set_solver.
Qed.

Lemma round_size network R (P R' P' : gset nat) :
  simple_round network R (elements P) = (R', P') →
  size R' = size R + size P'.
Proof.
  intros [-> Hdisj]%round_split. by apply size_union.
Qed.

Lemma round_mono network R (P R' P' : gset nat) :
  simple_round network R (elements P) = (R', P') → R ⊆ R' ∧ P' ⊆ R'.
Proof. intros [-> _]%round_split. set_solver. Qed.

(** * Properties of traces *)

Section Rounds.
Context (network : adjacency) (N : nat).

Lemma rounds_received_mono k R P steps Rf Pf :
  rounds network N k R P steps Rf Pf →
  R ⊆ Rf ∧
  (∀ r, steps !! 0 = Some r → size R ≤ received_count r) ∧
  received_nondecreasing steps.
Proof.
  induction 1 as [|k R P R' P' steps Rf Pf HP Hround Hrest (IH1 & IH2 & IH3)].
  - split; [done|]. split; [done|]. by intros i r1 r2 ?.
  - apply round_mono in Hround as Hsub. split; [set_solver|]. split.
    + intros r [= <-]. simpl. apply subseteq_size. tauto.
    + intros [|i] r1 r2; simpl.
      * intros [= <-] Hr2. simpl. by apply IH2.
      * apply IH3.
Qed.

Lemma rounds_pending k R P steps Rf Pf :
  rounds network N k R P steps Rf Pf → pending_consistent N steps.
Proof.
  induction 1 as [|k R P R' P' steps Rf Pf HP Hround Hrest IH].
  - by intros r ?%elem_of_nil.
  - intros r [->|Hr]%elem_of_cons; [done|by apply IH].
Qed.

Lemma rounds_propagating k R P steps Rf Pf :
  rounds network N k R P steps Rf Pf →
  propagating_is_previous_arrivals (size R) (size P) steps.
Proof.
  induction 1 as [|k R P R' P' steps Rf Pf HP Hround Hrest IH].
  - by intros i r ?.
  - intros [|[|j]] r; simpl.
    + by intros [= <-].
    + intros Hr. rewrite (IH 0 r Hr). unfold received_at. simpl.
      apply round_size in Hround. lia.
    + intros Hr. rewrite (IH (S j) r Hr). by destruct j.
Qed.

Lemma rounds_steps_numbered k R P steps Rf Pf :
  rounds network N k R P steps Rf Pf →
  ∀ i r, steps !! i = Some r → step r = k + i.
Proof.
  induction 1 as [|k R P R' P' steps Rf Pf HP Hround Hrest IH].
  - done.
  - intros [|i] r; simpl.
    + intros [= <-]. simpl. lia.
    + intros Hr. rewrite (IH i r Hr). lia.
Qed.

Lemma rounds_last k R P steps Rf Pf :
  rounds network N k R P steps Rf Pf →
  steps ≠ [] →
  ∃ r, last steps = Some r ∧ received_count r = size Rf ∧
       pending_count r = (Z.of_nat N - Z.of_nat (size Rf))%Z.
Proof.
  induction 1 as [|k R P R' P' steps Rf Pf HP Hround Hrest IH]; [done|].
  intros _. inversion Hrest; subst.
  - eexists. split; [done|]. done.
  - destruct IH as (r & Hr & ?); [done|].
    exists r. split; [|done]. by rewrite last_cons, Hr.
Qed.

Lemma rounds_frontier k R P steps Rf Pf :
  rounds network N k R P steps Rf Pf →
  frontier_closed network R P → frontier_closed network Rf Pf.
Proof.
  induction 1 as [|k R P R' P' steps Rf Pf HP Hround Hrest IH]; [done|].
  intros [Hsub Hclosed]. apply IH. split.
  - by apply round_mono in Hround as [_ ?].
  - intros u v Hu HuP Hv.
    rewrite (round_received _ _ _ _ _ _ Hround).
    destruct (decide (u ∈ P)) as [HinP|HninP]; [right; by eauto|].
    left. apply (Hclosed u v); [|done..].
    apply (round_received _ _ _ _ _ _ Hround) in Hu as [?|(w & Hw & Hu)];
      [done|].
    destruct (decide (u ∈ R)); [done|]. exfalso. apply HuP.
    apply (round_new_propagating _ _ _ _ _ _ Hround). eauto.
Qed.

Lemma rounds_within (nodes : gset nat) k R P steps Rf Pf :
  rounds network N k R P steps Rf Pf →
  (∀ u v, u ∈ nodes → v ∈ network_get network u → v ∈ nodes) →
  P ⊆ R → R ⊆ nodes → Pf ⊆ Rf ∧ Rf ⊆ nodes.
Proof.
  intros Hrounds Hcl.
  induction Hrounds as [|k R P R' P' steps Rf Pf HP Hround Hrest IH];
    [done|].
  intros HPR HR. apply IH.
  - by apply round_mono in Hround as [_ ?].
  - intros v [?|(u & Hu & Hv)]%(round_received _ _ _ _ _ _ Hround); [auto|].
    apply (Hcl u); [|done]. auto.
Qed.
End Rounds.

Lemma nx_closed_nodes G :
  nx_closed G → ∀ u v, u ∈ dom G → v ∈ network_get G u → v ∈ dom G.
Proof. intros Hcl u v _. apply Hcl. Qed.

Lemma simple_closed_nodes N network :
  simple_closed N network →
  ∀ u v, u ∈ node_range N → v ∈ network_get network u → v ∈ node_range N.
Proof.
  unfold node_range. intros Hcl u v Hu Hv.
  apply elem_of_set_seq in Hu. apply elem_of_set_seq.
  assert (v < N) by (apply (Hcl u v); [lia|done]). lia.
Qed.

Lemma size_node_range N : size (node_range N) = N.
Proof. apply size_set_seq. Qed.

Lemma closed_reachable network (R : gset nat) u v :
  (∀ a b, a ∈ R → b ∈ network_get network a → b ∈ R) →
  rtc (edge network) u v → u ∈ R → v ∈ R.
Proof.
  intros Hcl. induction 1 as [|a b c Hab _ IH]; [done|].
  intros Ha. apply IH. by apply (Hcl a).
Qed.

Lemma full_of_size (R nodes : gset nat) :
  R ⊆ nodes → size nodes ≤ size R → R = nodes.
Proof.
  intros Hsub Hsize. apply set_eq. intros x. split; [set_solver|].
  intros Hx. destruct (decide (x ∈ R)) as [|Hn]; [done|]. exfalso.
  assert (size ({[x]} ∪ R) ≤ size nodes) as Hle
    by (apply subseteq_size; set_solver).
  rewrite size_union, size_singleton in Hle by set_solver. lia.
Qed.

(** ** The safety check never fires *)

Lemma message_loop_returns G fuel : ∀ k R P,
  nx_closed G → P ⊆ R → R ⊆ dom G →
  (P ≠ ∅ → S k ≤ size R) → size G - k < fuel →
  ∃ steps, message_loop fuel G (size G) k R P = Returned (steps, false).
Proof.
  induction fuel as [|fuel IH]; intros k R P Hcl HPR HR Hcount Hfuel; simpl;
    [lia|].
  destruct (decide (P = ∅)) as [|HP]; [by eauto|].
  rewrite nx_round_dom by set_solver.
  destruct (simple_round G R (elements P)) as [R' P'] eqn:Hround.
  assert (size R ≤ size G) as HRN.
  { rewrite <- size_dom. by apply subseteq_size. }
  specialize (Hcount HP).
  destruct (Nat.ltb_spec (size G) (S k)) as [|Hguard]; [lia|].
  destruct (IH (S k) R' P') as [steps ->]; [done| | | |lia|by eauto].
  - by apply round_mono in Hround as [_ ?].
  - intros v [?|(u & Hu & Hv)]%(round_received _ _ _ _ _ _ Hround);
      [by auto|by apply (Hcl u)].
  - intros HP'. apply round_size in Hround.
    assert (size P' ≠ 0) by (by intros ?%size_empty_inv%leibniz_equiv). lia.
Qed.

Lemma simple_loop_returns network N fuel : ∀ k R P,
  (P ≠ ∅ → S k ≤ size R) → N - k < fuel →
  ∃ steps, simple_loop fuel network N k R P = Returned (steps, false).
Proof.
  induction fuel as [|fuel IH]; intros k R P Hcount Hfuel; simpl; [lia|].
  destruct (decide (P ≠ ∅ ∧ size R < N)) as [[HP HRN]|]; [|by eauto].
  destruct (simple_round network R (elements P)) as [R' P'] eqn:Hround.
  specialize (Hcount HP).
  destruct (Nat.ltb_spec N (S k)) as [|Hguard]; [lia|].
  destruct (IH (S k) R' P') as [steps ->]; [|lia|by eauto].
  intros HP'. apply round_size in Hround.
  assert (size P' ≠ 0) by (by intros ?%size_empty_inv%leibniz_equiv). lia.
Qed.

Lemma origin_start (origin_node : nat) :
  ({[origin_node]} : gset nat) ≠ ∅ → 1 ≤ size ({[origin_node]} : gset nat).
Proof. intros _. by rewrite size_singleton. Qed.

Lemma message_simulate_returns G origin_node :
  nx_closed G → origin_node ∈ dom G →
  ∃ steps, message_simulate_propagation G origin_node = Returned (steps, false).
Proof.
  intros Hcl Ho. apply message_loop_returns; auto using origin_start.
  - set_solver.
  - lia.
Qed.

Lemma simple_simulate_returns N network origin_node :
  ∃ steps,
    simple_simulate_propagation N network origin_node = Returned (steps, false).
Proof. apply simple_loop_returns; [apply origin_start|lia]. Qed.

(** ** Coverage of a connected graph *)

Lemma rounds_nonempty network N k R P steps Rf Pf :
  rounds network N k R P steps Rf Pf → steps = [] → Rf = R ∧ Pf = P.
Proof. by destruct 1. Qed.

Lemma frontier_closed_origin network (origin_node : nat) :
  frontier_closed network {[origin_node]} {[origin_node]}.
Proof. split; [done|]. intros u v Hu Hn. done. Qed.

(** Once the wavefront is empty the received set holds every node that
    can be reached from a received node. *)
Lemma exhausted_covers network (nodes Rf : gset nat) origin_node :
  frontier_closed network Rf ∅ →
  origin_node ∈ Rf → origin_node ∈ nodes → Rf ⊆ nodes →
  connected network nodes → Rf = nodes.
Proof.
  intros [_ Hcl] Ho Hon Hsub Hconn. apply set_eq. intros v.
  split; [set_solver|]. intros Hv.
  apply (closed_reachable network Rf origin_node v); [|by apply Hconn|done].
  intros a b Ha Hb. apply (Hcl a b); [done|set_solver|done].
Qed.

Lemma message_full_coverage G origin_node :
  nx_closed G → origin_node ∈ dom G → connected G (dom G) →
  ∃ steps r,
    message_simulate_propagation G origin_node = Returned (steps, false) ∧
    last steps = Some r ∧
    received_count r = size G ∧ pending_count r = 0%Z.
Proof.
  intros Hcl Ho Hconn.
  destruct (message_simulate_returns G origin_node Hcl Ho) as [steps Hrun].
  pose proof Hrun as Hrounds.
  apply message_loop_rounds in Hrounds as (Rf & Pf & Hrounds & ->).
  assert (steps ≠ []) as Hne.
  { intros Hnil. by destruct (rounds_nonempty _ _ _ _ _ _ _ _ Hrounds Hnil). }
  destruct (rounds_last _ _ _ _ _ _ _ _ Hrounds Hne) as (r & Hlast & Hrc & Hpc).
  pose proof (rounds_frontier _ _ _ _ _ _ _ _ Hrounds
                (frontier_closed_origin G origin_node)) as Hfc.
  pose proof (rounds_received_mono _ _ _ _ _ _ _ _ Hrounds) as (HoRf & _ & _).
  destruct (rounds_within G (size G) (dom G) _ _ _ _ _ _ Hrounds)
    as [_ HRf]; [by apply nx_closed_nodes|done|set_solver|].
  assert (Rf = dom G) as ->.
  { apply (exhausted_covers G _ _ origin_node); [done|set_solver|done..]. }
  exists steps, r. rewrite Hrc, Hpc, size_dom. split_and!; [done..|lia].
Qed.

Lemma simple_full_coverage N network origin_node :
  simple_closed N network → origin_node < N → 1 < N →
  connected network (node_range N) →
  ∃ steps r,
    simple_simulate_propagation N network origin_node
      = Returned (steps, false) ∧
    last steps = Some r ∧
    received_count r = N ∧ pending_count r = 0%Z.
Proof.
  intros Hcl Ho HN Hconn.
  destruct (simple_simulate_returns N network origin_node) as [steps Hrun].
  pose proof Hrun as Hrounds.
  apply simple_loop_rounds in Hrounds as (Rf & Pf & Hrounds & Hstop).
  assert (origin_node ∈ node_range N) as Hon.
  { apply elem_of_set_seq. lia. }
  assert (steps ≠ []) as Hne.
  { intros Hnil.
    destruct (rounds_nonempty _ _ _ _ _ _ _ _ Hrounds Hnil) as [-> ->].
    rewrite size_singleton in Hstop. destruct Hstop; [set_solver|lia]. }
  destruct (rounds_last _ _ _ _ _ _ _ _ Hrounds Hne) as (r & Hlast & Hrc & Hpc).
  pose proof (rounds_frontier _ _ _ _ _ _ _ _ Hrounds
                (frontier_closed_origin network origin_node)) as Hfc.
  pose proof (rounds_received_mono _ _ _ _ _ _ _ _ Hrounds) as (HoRf & _ & _).
  destruct (rounds_within network N (node_range N) _ _ _ _ _ _ Hrounds)
    as [_ HRf]; [by apply simple_closed_nodes|done|set_solver|].
  assert (Rf = node_range N) as ->.
  { destruct Hstop as [->|Hsize].
    - apply (exhausted_covers network _ _ origin_node);
        [done|set_solver|done..].
    - apply full_of_size; [done|]. by rewrite size_node_range. }
  exists steps, r. rewrite Hrc, Hpc, size_node_range.
  split_and!; [done..|lia].
Qed.

(** With a single node the loop of the standard-library script is never
    entered. *)
Lemma simple_single_node network origin_node :
  simple_simulate_propagation 1 network origin_node = Returned ([], false).
Proof.
  unfold simple_simulate_propagation. cbn [simple_loop].
  destruct (decide _) as [[_ Hlt]|]; [|done].
  rewrite size_singleton in Hlt. lia.
Qed.

(** ** The two simulators side by side

    Both loops run the same rounds as long as some node is still pending.
    The standard-library script stops as soon as every node has received
    the message; the networkx script then runs the last wavefront once
    more, finds nothing new, and records that round too. *)
Lemma loops_lockstep G fuel : ∀ k R P,
  nx_closed G → P ⊆ R → R ⊆ dom G →
  (P ≠ ∅ → S k ≤ size R) → (P = ∅ → size R < size G) →
  size G - k < fuel →
  ∃ steps Rf Pf,
    simple_loop fuel G (size G) k R P = Returned (steps, false) ∧
    rounds G (size G) k R P steps Rf Pf ∧
    ((size Rf < size G ∧
      message_loop fuel G (size G) k R P = Returned (steps, false)) ∨
     (size Rf = size G ∧
      message_loop fuel G (size G) k R P =
        Returned (steps ++ [record_step (size G) (k + length steps) Rf Pf],
                  false))).
Proof.
  induction fuel as [|fuel IH]; intros k R P Hcl HPR HR Hcount Hempty Hfuel;
    [lia|].
  assert (size R ≤ size G) as HRN.
  { rewrite <- size_dom. by apply subseteq_size. }
  cbn [simple_loop message_loop].
  destruct (decide (P = ∅)) as [HP|HP].
  { exists [], R, P. rewrite decide_False by tauto.
    split_and!; [done|constructor|]. left. auto. }
  specialize (Hcount HP).
  rewrite nx_round_dom by set_solver.
  destruct (simple_round G R (elements P)) as [R' P'] eqn:Hround.
  destruct (Nat.ltb_spec (size G) (S k)) as [|Hguard]; [lia|].
  destruct (decide (P ≠ ∅ ∧ size R < size G)) as [[_ Hlt]|Hfull].
  - destruct (IH (S k) R' P') as (steps & Rf & Pf & -> & Hrounds & Hmsg);
      [done| | | | |lia|].
    + by apply round_mono in Hround as [_ ?].
    + intros v [?|(u & Hu & Hv)]%(round_received _ _ _ _ _ _ Hround);
        [by auto|by apply (Hcl u)].
    + intros HP'. apply round_size in Hround.
      assert (size P' ≠ 0) by (by intros ?%size_empty_inv%leibniz_equiv). lia.
    + intros ->. apply round_size in Hround. rewrite size_empty in Hround. lia.
    + exists (record_step (size G) k R' P :: steps), Rf, Pf.
      split_and!; [done|by eapply rounds_step|].
      destruct Hmsg as [[? ->]|[? ->]]; [by left|right].
      split; [done|]. cbn [length app]. by rewrite Nat.add_succ_r.
  - assert (R = dom G) as HRdom.
    { apply full_of_size; [done|]. rewrite size_dom.
      apply not_and_l in Hfull as [?|?]; [done|lia]. }
    assert (P' = ∅) as ->.
    { apply set_eq. intros v. split; [|set_solver].
      intros [Hn (u & Hu & Hv)]%(round_new_propagating _ _ _ _ _ _ Hround).
      exfalso. apply Hn. rewrite HRdom. by apply (Hcl u). }
    assert (R' = R) as ->.
    { apply round_split in Hround as [-> _]. set_solver. }
    exists [], R, P. split_and!; [done|constructor|]. right.
    split; [rewrite HRdom; apply size_dom|].
    destruct fuel as [|fuel]; [lia|]. cbn [message_loop].
    rewrite decide_True by done. cbn [length app]. by rewrite Nat.add_0_r.
Qed.

Lemma rounds_all_below network N k R P steps Rf Pf :
  rounds network N k R P steps Rf Pf →
  ∀ r, r ∈ steps → received_count r ≤ size Rf.
Proof.
  induction 1 as [|k R P R' P' steps Rf Pf HP Hround Hrest IH].
  - by intros r ?%elem_of_nil.
  - intros r [->|Hr]%elem_of_cons; [|by apply IH]. simpl.
    apply subseteq_size.
    by apply rounds_received_mono in Hrest as [? _].
Qed.

(** * The six-node cycle *)

(** Closes a decidable closed goal by evaluation. *)
Ltac by_compute := apply (bool_decide_unpack _); vm_compute; exact I.

Lemma nx_closed_check (G : adjacency) :
  map_Forall (λ _ neighbors, Forall (λ v, v ∈ dom G) neighbors) G →
  nx_closed G.
Proof.
  intros Hall u v. unfold network_get.
  destruct (G !! u) as [ns|] eqn:Hu; simpl; [|by intros ?%elem_of_nil].
  intros Hv. specialize (Hall u ns Hu). by eapply Forall_forall in Hall.
Qed.

Lemma cycle6_dom : dom cycle6 = node_range 6.
Proof. by_compute. Qed.

Lemma cycle6_size : size cycle6 = 6.
Proof. by rewrite <- size_dom, cycle6_dom, size_node_range. Qed.

Lemma cycle6_nx_closed : nx_closed cycle6.
Proof. apply nx_closed_check. by_compute. Qed.

Lemma cycle6_origin : 0 ∈ dom cycle6.
Proof. by_compute. Qed.

Lemma cycle6_simple_closed : simple_closed 6 cycle6.
Proof.
  intros u v Hu Hv.
  assert (v ∈ node_range 6) as ?%elem_of_set_seq; [|lia].
  rewrite <- cycle6_dom. by apply (cycle6_nx_closed u).
Qed.

Lemma cycle6_succ u : u < 6 → edge cycle6 u (S u mod 6).
Proof.
  intros Hu.
  unfold edge. do 6 (destruct u as [|u]; [by_compute|]).
  lia.
Qed.

Lemma cycle6_forward n : ∀ u, u < 6 → rtc (edge cycle6) u ((u + n) mod 6).
Proof.
  induction n as [|n IH]; intros u Hu.
  - rewrite Nat.add_0_r, Nat.mod_small by done. apply rtc_refl.
  - eapply rtc_l; [by apply cycle6_succ|].
    replace ((u + S n) mod 6) with ((S u mod 6 + n) mod 6).
    + apply IH. by apply Nat.mod_upper_bound.
    + rewrite Nat.Div0.add_mod_idemp_l. f_equal. lia.
Qed.

Lemma cycle6_connected : connected cycle6 (node_range 6).
Proof.
  intros u v Hu%elem_of_set_seq Hv%elem_of_set_seq.
  replace v with ((u + (v + 6 - u)) mod 6).
  - apply cycle6_forward. lia.
  - replace (u + (v + 6 - u)) with (v + 1 * 6) by lia.
    rewrite Nat.Div0.mod_add. apply Nat.mod_small. lia.
Qed.

Lemma cycle6_message_run :
  message_simulate_propagation cycle6 0 =
    Returned ([ mkStep 0 3 1 3; mkStep 1 5 2 1;
                mkStep 2 6 2 0; mkStep 3 6 1 0 ], false).
Proof. by vm_compute. Qed.

Lemma cycle6_simple_run :
  simple_simulate_propagation 6 cycle6 0 =
    Returned ([ mkStep 0 3 1 3; mkStep 1 5 2 1; mkStep 2 6 2 0 ], false).
Proof. by vm_compute. Qed.

(** * The network builders keep the graph simple *)

Lemma network_get_empty u : network_get ∅ u = [].
Proof. unfold network_get. by rewrite lookup_empty. Qed.

Lemma network_get_insert (G : adjacency) i l u :
  network_get (<[i := l]> G) u = if decide (u = i) then l else network_get G u.
Proof.
  unfold network_get. destruct (decide (u = i)) as [->|Hne].
  - by rewrite lookup_insert_eq.
  - by rewrite lookup_insert_ne.
Qed.

Lemma network_get_touch G i u : network_get (touch G i) u = network_get G u.
Proof.
  unfold touch. rewrite network_get_insert. by destruct (decide (u = i)) as [->|].
Qed.

Lemma network_get_append_to G i x u :
  network_get (append_to G i x) u =
    if decide (u = i) then network_get G i ++ [x] else network_get G u.
Proof. unfold append_to. apply network_get_insert. Qed.

Lemma network_get_add_node G n u :
  network_get (nx_add_node G n) u = network_get G u.
Proof.
  unfold nx_add_node. destruct (G !! n) as [l|] eqn:Hn; [done|].
  rewrite network_get_insert. destruct (decide (u = n)) as [->|]; [|done].
  unfold network_get. by rewrite Hn.
Qed.

Lemma simple_graph_empty_lists (G : adjacency) :
  (∀ u, network_get G u = []) → simple_graph G.
Proof.
  intros Hnil. split_and!.
  - intros u. rewrite Hnil. apply not_elem_of_nil.
  - intros u v. rewrite !Hnil. split; by intros ?%elem_of_nil.
  - intros u. rewrite Hnil. constructor.
Qed.

(** Adding the pair [u], [v] to both lists, each only if it is not there
    yet. *)
Lemma simple_graph_link (G G' : adjacency) i j :
  simple_graph G → i ≠ j →
  (∀ u, network_get G' u =
        if decide (u = i) then dict_set (network_get G i) j
        else if decide (u = j) then dict_set (network_get G j) i
        else network_get G u) →
  simple_graph G'.
Proof.
  intros (Hloop & Hsym & Hdup) Hij Hget.
  assert (∀ l k x, x ∈ dict_set l k ↔ x ∈ l ∨ x = k) as Hin.
  { intros l k x. unfold dict_set. destruct (decide (k ∈ l)).
    - split; [by left|]. by intros [?| ->].
    - rewrite elem_of_app, list_elem_of_singleton. done. }
  assert (∀ l k, NoDup l → NoDup (dict_set l k)) as Hnd.
  { intros l k Hl. unfold dict_set. destruct (decide (k ∈ l)); [done|].
    apply NoDup_app. split_and!; [done| |apply NoDup_singleton].
    intros x Hx ->%list_elem_of_singleton. done. }
  split_and!.
  - intros u. rewrite Hget. repeat case_decide; subst; rewrite ?Hin.
    + intros [?|?]; [by apply (Hloop i)|done].
    + intros [?|?]; [by apply (Hloop j)|done].
    + apply Hloop.
  - intros u v. rewrite !Hget.
    pose proof (Hsym u v) as Huv. pose proof (Hloop u). pose proof (Hloop v).
    repeat case_decide; subst; rewrite ?Hin; naive_solver.
  - intros u. rewrite Hget. repeat case_decide; auto.
Qed.

Lemma simple_graph_same (G G' : adjacency) :
  simple_graph G → (∀ u, network_get G' u = network_get G u) →
  simple_graph G'.
Proof.
  intros (Hloop & Hsym & Hdup) Hget. split_and!.
  - intros u. rewrite Hget. apply Hloop.
  - intros u v. rewrite !Hget. apply Hsym.
  - intros u. rewrite Hget. apply Hdup.
Qed.

Lemma connect_simple_graph G i neighbor :
  simple_graph G → neighbor ≠ i → simple_graph (connect G i neighbor).
Proof.
  intros HG Hne. unfold connect.
  destruct (decide (neighbor ∈ network_get (touch G i) i)) as [Hin|Hnin].
  { eapply simple_graph_same; [done|]. apply network_get_touch. }
  rewrite network_get_touch in Hnin.
  apply (simple_graph_link G _ i neighbor); [done..|].
  intros u. rewrite !network_get_append_to, !network_get_touch.
  rewrite (decide_False (P := neighbor = i)) by done.
  unfold dict_set. rewrite (decide_False (P := neighbor ∈ _)) by done.
  destruct HG as (_ & Hsym & _).
  rewrite (decide_False (P := i ∈ _)) by (by intros ?%Hsym).
  repeat case_decide; subst; done.
Qed.

Lemma nx_add_edge_simple_graph G u v :
  simple_graph G → u ≠ v → simple_graph (nx_add_edge G u v).
Proof.
  intros HG Hne. unfold nx_add_edge.
  apply (simple_graph_link G _ u v); [done..|].
  intros x. rewrite !network_get_insert, !network_get_add_node.
  rewrite (decide_False (P := v = u)) by done.
  repeat case_decide; subst; done.
Qed.

Lemma connect_all_simple_graph i neighbors : ∀ G,
  simple_graph G → (∀ x, x ∈ neighbors → x ≠ i) →
  simple_graph (foldl (λ network neighbor, connect network i neighbor)
                      G neighbors).
Proof.
  induction neighbors as [|n ns IH]; intros G HG Hne; simpl; [done|].
  apply IH.
  - apply connect_simple_graph; [done|]. apply Hne. left.
  - intros x Hx. apply Hne. by right.
Qed.

Lemma add_connections_simple_graph node_idx neighbors : ∀ G,
  simple_graph G → (∀ x, x ∈ neighbors → x ≠ node_idx) →
  simple_graph (add_connections G node_idx neighbors).
Proof.
  unfold add_connections.
  induction neighbors as [|n ns IH]; intros G HG Hne; simpl; [done|].
  apply IH.
  - destruct (nx_has_edge G node_idx n); [done|].
    apply nx_add_edge_simple_graph; [done|].
    intros ->. by apply (Hne n); [left|].
  - intros x Hx. apply Hne. by right.
Qed.

(** ** Candidates never contain the node itself *)

Lemma scan_candidates_not_self py node_idx node_pos others :
  ∀ j st candidates,
    (∀ x, x ∈ candidates → x ≠ node_idx) →
    ∀ x, x ∈ (scan_candidates py node_idx node_pos j others st candidates).1 →
         x ≠ node_idx.
Proof.
  induction others as [|other_pos rest IH]; intros j st candidates Hc; simpl;
    [done|].
  destruct (decide (j ≠ node_idx)) as [Hj|]; [|by apply IH].
  destruct (decide _) as [Hnear|]; [|by apply IH].
  destruct (random_random py st) as [draw st1].
  destruct (decide _) as [Hsel|]; [|by apply IH].
  apply IH. intros x [?| ->%list_elem_of_singleton]%elem_of_app; auto.
Qed.

Lemma find_geographical_neighbors_not_self py cpn node_idx positions st
    neighbors st' :
  sample_sound py →
  find_geographical_neighbors py cpn node_idx positions st
    = Some (neighbors, st') →
  ∀ x, x ∈ neighbors → x ≠ node_idx.
Proof.
  intros Hsample. unfold find_geographical_neighbors.
  destruct (positions !! node_idx) as [node_pos|]; [|done].
  pose proof (scan_candidates_not_self py node_idx node_pos positions 0 st [])
    as Hscan.
  destruct (scan_candidates py node_idx node_pos 0 positions st [])
    as [candidates st1].
  simpl in Hscan.
  assert (∀ x, x ∈ candidates → x ≠ node_idx) as Hc.
  { apply Hscan. by intros x ?%elem_of_nil. }
  destruct (cpn <? length candidates).
  - intros [= Hs] x Hx. apply Hc.
    apply (Hsample st1 candidates cpn). by rewrite Hs.
  - by intros [= <- <-].
Qed.

Lemma select_masked_subset indices : ∀ mask x,
  x ∈ select_masked indices mask → x ∈ indices.
Proof.
  induction indices as [|i indices IH]; intros [|b mask] x; simpl;
    try by intros ?%elem_of_nil.
  destruct b.
  - intros [->|?]%elem_of_cons; [left|right; eauto].
  - intros ?. right. eauto.
Qed.

Lemma opt_find_geographical_neighbors_not_self gen np py node_idx positions
    st neighbors st' :
  sample_sound py →
  opt_find_geographical_neighbors gen np py node_idx positions st
    = Some (neighbors, st') →
  ∀ x, x ∈ neighbors → x ≠ node_idx.
Proof.
  intros Hsample. unfold opt_find_geographical_neighbors.
  destruct (positions !! node_idx) as [node_pos|]; [|done].
  set (nearby := filter (λ j, j ≠ node_idx) _).
  assert (∀ x, x ∈ nearby → x ≠ node_idx) as Hnearby.
  { intros x Hx. by apply list_elem_of_filter in Hx as [? _]. }
  destruct (0 <? length nearby).
  - destruct (np_random_random np (length nearby) st.1) as [draws np_st].
    set (candidates := select_masked nearby _).
    assert (∀ x, x ∈ candidates → x ≠ node_idx) as Hc.
    { intros x Hx. apply Hnearby. by eapply select_masked_subset. }
    destruct (connections_per_node gen <? length candidates).
    + destruct (random_sample py st.2 candidates (connections_per_node gen))
        as [sampled py_st] eqn:Hs.
      intros [= <- <-] x Hx. apply Hc.
      apply (Hsample st.2 candidates (connections_per_node gen)).
      by rewrite Hs.
    + by intros [= <- <-].
  - replace (connections_per_node gen <? length (A := nat) []) with false
      by (symmetry; apply Nat.ltb_ge; simpl; lia).
    intros [= <- <-] x ?%elem_of_nil. done.
Qed.

(** ** The node loops *)

Lemma simple_process_simple_graph py cpn positions order :
  sample_sound py →
  ∀ network st network' st',
    simple_graph network →
    simple_process py cpn positions order network st = Some (network', st') →
    simple_graph network'.
Proof.
  intros Hsample.
  induction order as [|i rest IH]; intros network st network' st' HG; simpl.
  - by intros [= <- <-].
  - destruct (find_geographical_neighbors py cpn i positions st)
      as [[neighbors st1]|] eqn:Hfind; [|done].
    apply IH. apply connect_all_simple_graph; [done|].
    by eapply find_geographical_neighbors_not_self.
Qed.

Lemma opt_process_simple_graph gen np py positions order :
  sample_sound py →
  ∀ G st G' st',
    simple_graph G →
    opt_process gen np py positions order G st = Some (G', st') →
    simple_graph G'.
Proof.
  intros Hsample.
  induction order as [|i rest IH]; intros G st G' st' HG; simpl.
  - by intros [= <- <-].
  - destruct (opt_find_geographical_neighbors gen np py i positions st)
      as [[neighbors st1]|] eqn:Hfind; [|done].
    apply IH. apply add_connections_simple_graph; [done|].
    by eapply opt_find_geographical_neighbors_not_self.
Qed.

Lemma network_get_add_nodes_from nodes : ∀ G u,
  network_get (nx_add_nodes_from G nodes) u = network_get G u.
Proof.
  unfold nx_add_nodes_from.
  induction nodes as [|n ns IH]; intros G u; simpl; [done|].
  by rewrite IH, network_get_add_node.
Qed.

Lemma simple_graph_initial nodes : simple_graph (nx_add_nodes_from ∅ nodes).
Proof.
  apply simple_graph_empty_lists. intros u.
  by rewrite network_get_add_nodes_from, network_get_empty.
Qed.

(** ** Batches visit the nodes in ascending order *)

Lemma range_step_batches N B (f := λ batch_start,
    seq batch_start ((batch_start + B) `min` N - batch_start)) :
  0 < B →
  ∀ fuel start, N - start ≤ fuel →
    flat_map f (range_step fuel start N B) = seq start (N - start).
Proof.
  intros HB. induction fuel as [|fuel IH]; intros start Hfuel; simpl.
  - by replace (N - start) with 0 by lia.
  - destruct (Nat.ltb_spec start N) as [Hlt|Hge].
    + simpl. rewrite IH by lia. unfold f.
      destruct (Nat.le_gt_cases (start + B) N) as [Hle|Hgt].
      * rewrite Nat.min_l by done.
        replace (start + B - start) with B by lia.
        replace (N - start) with (B + (N - (start + B))) by lia.
        by rewrite seq_app.
      * rewrite Nat.min_r by lia.
        replace (N - (start + B)) with 0 by lia. simpl.
        by rewrite app_nil_r.
    + by replace (N - start) with 0 by lia.
Qed.

Lemma batched_order_seq N B : 0 < B → batched_order N B = seq 0 N.
Proof.
  intros HB. unfold batched_order, py_range.
  rewrite (range_step_batches N B HB) by lia. by rewrite Nat.sub_0_r.
Qed.

(** ** The builders return a graph *)

Lemma find_geographical_neighbors_returns py cpn node_idx positions st :
  node_idx < length positions →
  is_Some (find_geographical_neighbors py cpn node_idx positions st).
Proof.
  intros [node_pos Hpos]%lookup_lt_is_Some.
  unfold find_geographical_neighbors. rewrite Hpos.
  destruct (scan_candidates _ _ _ _ _ _ _) as [candidates st1].
  by destruct (cpn <? length candidates).
Qed.

Lemma opt_find_geographical_neighbors_returns gen np py node_idx positions st :
  node_idx < length positions →
  is_Some (opt_find_geographical_neighbors gen np py node_idx positions st).
Proof.
  intros [node_pos Hpos]%lookup_lt_is_Some.
  unfold opt_find_geographical_neighbors. rewrite Hpos.
  destruct (0 <? _).
  - destruct (np_random_random _ _ _) as [draws np_st].
    destruct (_ <? _); [|done].
    by destruct (random_sample _ _ _ _).
  - destruct (_ <? _); [|done].
    by destruct (random_sample _ _ _ _).
Qed.

Lemma simple_process_returns py cpn positions order :
  (∀ i, i ∈ order → i < length positions) →
  ∀ network st,
    is_Some (simple_process py cpn positions order network st).
Proof.
  induction order as [|i rest IH]; intros Hin network st; simpl; [done|].
  destruct (find_geographical_neighbors_returns py cpn i positions st)
    as [[neighbors st1] ->]; [apply Hin; left|].
  apply IH. intros j Hj. apply Hin. by right.
Qed.

Lemma opt_process_returns gen np py positions order :
  (∀ i, i ∈ order → i < length positions) →
  ∀ G st, is_Some (opt_process gen np py positions order G st).
Proof.
  induction order as [|i rest IH]; intros Hin G st; simpl; [done|].
  destruct (opt_find_geographical_neighbors_returns gen np py i positions st)
    as [[neighbors st1] ->]; [apply Hin; left|].
  apply IH. intros j Hj. apply Hin. by right.
Qed.

Lemma replay_py_sample_sound : sample_sound replay_py.
Proof.
  intros st population k x. simpl. intros Hx.
  apply list_elem_of_lookup in Hx as [i Hi].
  apply lookup_take_Some in Hi as [Hi _].
  by eapply list_elem_of_lookup_2.
Qed.

(** * Connection probability *)

Lemma power_zero_exponent x : power x 0 = 1%R.
Proof. unfold power. by rewrite decide_True. Qed.

Lemma power_zero_base y : y ≠ 0%R → power 0 y = 0%R.
Proof. intros Hy. unfold power. by rewrite decide_False, decide_True. Qed.

Lemma power_positive_base x y : (0 < x)%R → power x y = Rpower x y.
Proof.
  intros Hx. unfold power. destruct (decide (y = 0%R)) as [->|Hy].
  - symmetry. by apply Rpower_O.
  - rewrite decide_False; [done|lra].
Qed.

Lemma power_one x : (0 <= x)%R → power x 1 = x.
Proof.
  intros Hx. unfold power.
  rewrite decide_False by lra.
  destruct (decide (x = 0%R)) as [->|Hne]; [done|].
  apply Rpower_1. lra.
Qed.

Lemma power_range x y :
  (0 <= x <= 1)%R → (0 <= y)%R → (0 <= power x y <= 1)%R.
Proof.
  intros Hx Hy. unfold power.
  destruct (decide (y = 0%R)); [lra|].
  destruct (decide (x = 0%R)); [lra|].
  unfold Rpower. split; [left; apply exp_pos|].
  assert (ln x <= 0)%R as Hln.
  { destruct (Req_dec_T x 1) as [->|Hx1]; [rewrite ln_1; lra|].
    left. rewrite <- ln_1. apply ln_increasing; lra. }
  assert (y * ln x <= 0)%R as [Hlt|Heq] by nra.
  - left. rewrite <- exp_0. by apply exp_increasing.
  - right. by rewrite Heq, exp_0.
Qed.

Lemma power_monotone x1 x2 y :
  (0 <= x1 <= x2)%R → (0 <= y)%R → (power x1 y <= power x2 y)%R.
Proof.
  intros Hx Hy. unfold power.
  destruct (decide (y = 0%R)); [lra|].
  destruct (decide (x1 = 0%R)) as [->|Hx1].
  - destruct (decide (x2 = 0%R)); [lra|]. left. apply exp_pos.
  - rewrite decide_False by lra. apply Rle_Rpower_l; lra.
Qed.

Lemma ratio_range d m : (0 < m)%R → (0 <= d <= m)%R → (0 <= d / m <= 1)%R.
Proof.
  intros Hm Hd. pose proof (Rinv_0_lt_compat m Hm).
  assert (m * / m = 1)%R by (field; lra). unfold Rdiv. nra.
Qed.

Lemma ratio_below d m : (0 < m)%R → (d < m)%R → (d / m < 1)%R.
Proof.
  intros Hm Hd. pose proof (Rinv_0_lt_compat m Hm).
  assert (m * / m = 1)%R by (field; lra). unfold Rdiv. nra.
Qed.

Lemma ratio_monotone d d' m : (0 < m)%R → (d <= d')%R → (d / m <= d' / m)%R.
Proof.
  intros Hm Hd. pose proof (Rinv_0_lt_compat m Hm). unfold Rdiv. nra.
Qed.

Lemma connection_probability_linear d :
  (0 <= d <= 1)%R → connection_probability 1 1 d = (1 - d)%R.
Proof. intros Hd. unfold connection_probability. rewrite power_one; lra. Qed.

(** * Three nodes on a line *)

Lemma filter_all {A} (P : A → Prop) `{∀ x, Decision (P x)} (l : list A) :
  Forall P l → filter P l = l.
Proof.
  induction 1 as [|x l Hx Hl IH]; [done|].
  by rewrite filter_cons_True, IH.
Qed.

Lemma line_distance (a b c : R) :
  (0 <= c)%R → (c * c = (a - b) * (a - b))%R →
  sqrt ((a - b)² + (0 - 0)²) = c.
Proof.
  intros Hc Hsq. apply sqrt_lem_1; [|done|].
  - apply Rplus_le_le_0_compat; apply Rle_0_sqr.
  - unfold Rsqr. lra.
Qed.

(** Evaluates the neighbour search of a node of [line3] once its three
    distances are known. *)
Ltac line3_neighbors d0 d1 d2 node others :=
  unfold opt_find_geographical_neighbors;
  cbn [line3 lookup list_lookup length seq distances_from map fst snd];
  rewrite (line_distance _ _ d0), (line_distance _ _ d1),
    (line_distance _ _ d2) by lra;
  rewrite (filter_all (λ j, (nth j _ _ <= _)%R))
    by (repeat constructor; cbn; lra);
  replace (filter (λ j, j ≠ node) [0; 1; 2]) with others by reflexivity;
  cbn [length Nat.ltb Nat.leb np_random_random replay_np np_random_double
       replay map nth zip_with gen3 max_distance distance_weight
       connections_per_node];
  rewrite !connection_probability_linear by lra;
  by destruct (bool_decide _), (bool_decide _).

Lemma line3_neighbors_0 r1 r2 rest pst :
  opt_find_geographical_neighbors gen3 replay_np replay_py 0 line3
    (r1 :: r2 :: rest, pst) =
  Some (select_masked [1; 2]
          [bool_decide (r1 < 1 - 1 / 2)%R; bool_decide (r2 < 1 - 3 / 4)%R],
        (rest, pst)).
Proof. line3_neighbors 0%R (1 / 2)%R (3 / 4)%R 0 [1; 2]. Qed.

Lemma line3_neighbors_1 r1 r2 rest pst :
  opt_find_geographical_neighbors gen3 replay_np replay_py 1 line3
    (r1 :: r2 :: rest, pst) =
  Some (select_masked [0; 2]
          [bool_decide (r1 < 1 - 1 / 2)%R; bool_decide (r2 < 1 - 1 / 4)%R],
        (rest, pst)).
Proof. line3_neighbors (1 / 2)%R 0%R (1 / 4)%R 1 [0; 2]. Qed.

Lemma line3_neighbors_2 r1 r2 rest pst :
  opt_find_geographical_neighbors gen3 replay_np replay_py 2 line3
    (r1 :: r2 :: rest, pst) =
  Some (select_masked [0; 1]
          [bool_decide (r1 < 1 - 3 / 4)%R; bool_decide (r2 < 1 - 1 / 4)%R],
        (rest, pst)).
Proof. line3_neighbors (3 / 4)%R (1 / 4)%R 0%R 2 [0; 1]. Qed.

(** Processing the three nodes in ascending order with [draws6] links
    nodes 1 and 2; processing them in descending order links nothing. *)
Lemma line3_ascending :
  opt_process gen3 replay_np replay_py line3 [0; 1; 2]
    (nx_add_nodes_from ∅ (seq 0 3)) (draws6, []) =
  Some (add_connections (nx_add_nodes_from ∅ (seq 0 3)) 2 [1], ([], [])).
Proof.
  unfold draws6. cbn [opt_process].
  rewrite line3_neighbors_0, !bool_decide_eq_false_2 by lra.
  cbn [select_masked]. 
  rewrite line3_neighbors_1, !bool_decide_eq_false_2 by lra.
  cbn [select_masked].
  rewrite line3_neighbors_2, bool_decide_eq_false_2, bool_decide_eq_true_2
    by lra.
  reflexivity.
Qed.

Lemma line3_descending :
  opt_process gen3 replay_np replay_py line3 [2; 1; 0]
    (nx_add_nodes_from ∅ (seq 0 3)) (draws6, []) =
  Some (nx_add_nodes_from ∅ (seq 0 3), ([], [])).
Proof.
  unfold draws6. cbn [opt_process].
  rewrite line3_neighbors_2, !bool_decide_eq_false_2 by lra.
  cbn [select_masked].
  rewrite line3_neighbors_1, !bool_decide_eq_false_2 by lra.
  cbn [select_masked].
  rewrite line3_neighbors_0, !bool_decide_eq_false_2 by lra.
  reflexivity.
Qed.

(** * The propagation simulators: traces *)

(** C2 (as stated, refuted): on the six-node cycle with origin 0 neither
    simulator produces the three records (3,2,3), (5,2,1), (6,1,0): the
    recorded wavefront sizes are 1, 2, 2, and the networkx script records a
    fourth round. *)
Lemma cycle6_expected_trace_refuted :
  steps_of (message_simulate_propagation cycle6 0)
    ≠ Some expected_cycle6_trace ∧
  steps_of (simple_simulate_propagation 6 cycle6 0)
    ≠ Some expected_cycle6_trace.
Proof. rewrite cycle6_message_run, cycle6_simple_run. by split. Qed.

(** C2 (amended): on the six-node cycle with origin 0 the standard-library
    simulator records exactly three rounds, (received, propagating, pending)
    = (3,1,3), (5,2,1), (6,2,0); the networkx simulator records these three
    and a fourth round (6,1,0); neither prints the safety warning, and both
    end with all six nodes received. *)
Theorem cycle6_traces :
  simple_simulate_propagation 6 cycle6 0 =
    Returned ([ mkStep 0 3 1 3; mkStep 1 5 2 1; mkStep 2 6 2 0 ], false) ∧
  message_simulate_propagation cycle6 0 =
    Returned ([ mkStep 0 3 1 3; mkStep 1 5 2 1;
                mkStep 2 6 2 0; mkStep 3 6 1 0 ], false).
Proof. split; [apply cycle6_simple_run|apply cycle6_message_run]. Qed.

(** C3 (as stated, refuted): already from round 1 on, the recorded
    [propagating_count] is not the number of nodes informed in the same
    round; round 2 of the six-node cycle records 2 while 6 - 5 = 1 node
    arrives. *)
Lemma propagating_own_arrivals_refuted :
  (∃ steps, steps_of (message_simulate_propagation cycle6 0) = Some steps ∧
            ¬ propagating_is_own_arrivals_from 1 steps) ∧
  (∃ steps, steps_of (simple_simulate_propagation 6 cycle6 0) = Some steps ∧
            ¬ propagating_is_own_arrivals_from 1 steps).
Proof.
  rewrite cycle6_message_run, cycle6_simple_run.
  split; (eexists; split; [done|]); intros Hclaim;
    by specialize (Hclaim 2 (mkStep 2 6 2 0) ltac:(lia) eq_refl).
Qed.

(** C3 (amended): in every trace the [propagating_count] of round 0 is 1
    (the origin), and for k >= 1 the [propagating_count] of round k equals
    received_count[k-1] - received_count[k-2], the number of nodes informed
    in the previous round (with received_count[-1] = 1). *)
Theorem propagating_previous_arrivals
    (G : adjacency) (origin_node total_nodes : nat) (network : adjacency) :
  nx_closed G → origin_node ∈ dom G →
  (∃ steps,
     message_simulate_propagation G origin_node = Returned (steps, false) ∧
     propagating_is_previous_arrivals 1 1 steps) ∧
  (∃ steps,
     simple_simulate_propagation total_nodes network origin_node
       = Returned (steps, false) ∧
     propagating_is_previous_arrivals 1 1 steps).
Proof.
  intros Hcl Ho. split.
  - destruct (message_simulate_returns G origin_node Hcl Ho) as [steps Hrun].
    exists steps. split; [done|].
    apply message_loop_rounds in Hrun as (Rf & Pf & Hrounds & _).
    apply rounds_propagating in Hrounds. by rewrite size_singleton in Hrounds.
  - destruct (simple_simulate_returns total_nodes network origin_node)
      as [steps Hrun].
    exists steps. split; [done|].
    apply simple_loop_rounds in Hrun as (Rf & Pf & Hrounds & _).
    apply rounds_propagating in Hrounds. by rewrite size_singleton in Hrounds.
Qed.

Lemma propagating_previous_arrivals_witness :
  (∃ steps,
     message_simulate_propagation cycle6 0 = Returned (steps, false) ∧
     propagating_is_previous_arrivals 1 1 steps) ∧
  (∃ steps,
     simple_simulate_propagation 6 cycle6 0 = Returned (steps, false) ∧
     propagating_is_previous_arrivals 1 1 steps).
Proof.
  apply (propagating_previous_arrivals cycle6 0 6 cycle6).
  - apply cycle6_nx_closed.
  - apply cycle6_origin.
Defined.

(** C4: in every trace [received_count] never decreases from one record
    to the next, and every record has
    [pending_count = N - received_count]. *)
Theorem received_monotone_pending_consistent
    (G : adjacency) (origin_node total_nodes : nat) (network : adjacency) :
  nx_closed G → origin_node ∈ dom G →
  (∃ steps,
     message_simulate_propagation G origin_node = Returned (steps, false) ∧
     received_nondecreasing steps ∧
     pending_consistent (size G) steps) ∧
  (∃ steps,
     simple_simulate_propagation total_nodes network origin_node
       = Returned (steps, false) ∧
     received_nondecreasing steps ∧
     pending_consistent total_nodes steps).
Proof.
  intros Hcl Ho. split.
  - destruct (message_simulate_returns G origin_node Hcl Ho) as [steps Hrun].
    exists steps. split; [done|].
    apply message_loop_rounds in Hrun as (Rf & Pf & Hrounds & _). split.
    + by apply rounds_received_mono in Hrounds as (_ & _ & ?).
    + by apply rounds_pending in Hrounds.
  - destruct (simple_simulate_returns total_nodes network origin_node)
      as [steps Hrun].
    exists steps. split; [done|].
    apply simple_loop_rounds in Hrun as (Rf & Pf & Hrounds & _). split.
    + by apply rounds_received_mono in Hrounds as (_ & _ & ?).
    + by apply rounds_pending in Hrounds.
Qed.

Lemma received_monotone_pending_consistent_witness :
  (∃ steps,
     message_simulate_propagation cycle6 0 = Returned (steps, false) ∧
     received_nondecreasing steps ∧
     pending_consistent (size cycle6) steps) ∧
  (∃ steps,
     simple_simulate_propagation 6 cycle6 0 = Returned (steps, false) ∧
     received_nondecreasing steps ∧
     pending_consistent 6 steps).
Proof.
  apply (received_monotone_pending_consistent cycle6 0 6 cycle6).
  - apply cycle6_nx_closed.
  - apply cycle6_origin.
Defined.

(** C5 (as stated, refuted): a single node without edges is a non-empty
    connected graph with a valid origin, yet the standard-library simulator
    records no step for it, so its trace has no final record. *)
Lemma single_node_no_final_record :
  simple_closed 1 ∅ ∧ 0 < 1 ∧ connected ∅ (node_range 1) ∧
  ∃ steps, steps_of (simple_simulate_propagation 1 ∅ 0) = Some steps ∧
           last steps = None.
Proof.
  split_and!.
  - intros u v _ Hv. unfold network_get in Hv. rewrite lookup_empty in Hv.
    by apply elem_of_nil in Hv.
  - lia.
  - intros u v Hu%elem_of_set_seq Hv%elem_of_set_seq.
    replace v with u by lia. apply rtc_refl.
  - exists []. by rewrite simple_single_node.
Qed.

(** C5 (amended): for every connected graph and valid origin the final
    record of the networkx simulator has [received_count = N] and
    [pending_count = 0]; the same holds for the standard-library simulator
    when N >= 2; for N = 1 the standard-library simulator records no step
    at all. *)
Theorem connected_full_coverage
    (G : adjacency) (origin_node total_nodes : nat) (network : adjacency)
    (origin_node' : nat) :
  nx_closed G → origin_node ∈ dom G → connected G (dom G) →
  simple_closed total_nodes network → origin_node' < total_nodes →
  connected network (node_range total_nodes) →
  (∃ steps r,
     message_simulate_propagation G origin_node = Returned (steps, false) ∧
     last steps = Some r ∧
     received_count r = size G ∧ pending_count r = 0%Z) ∧
  (1 < total_nodes →
   ∃ steps r,
     simple_simulate_propagation total_nodes network origin_node'
       = Returned (steps, false) ∧
     last steps = Some r ∧
     received_count r = total_nodes ∧ pending_count r = 0%Z) ∧
  (total_nodes = 1 →
   simple_simulate_propagation total_nodes network origin_node'
     = Returned ([], false)).
Proof.
  intros Hcl Ho Hconn Hcl' Ho' Hconn'. split_and!.
  - by apply message_full_coverage.
  - intros HN. by apply simple_full_coverage.
  - intros ->. apply simple_single_node.
Qed.

Lemma connected_full_coverage_witness :
  (∃ steps r,
     message_simulate_propagation cycle6 0 = Returned (steps, false) ∧
     last steps = Some r ∧
     received_count r = size cycle6 ∧ pending_count r = 0%Z) ∧
  (1 < 6 →
   ∃ steps r,
     simple_simulate_propagation 6 cycle6 0 = Returned (steps, false) ∧
     last steps = Some r ∧
     received_count r = 6 ∧ pending_count r = 0%Z) ∧
  (6 = 1 →
   simple_simulate_propagation 6 cycle6 0 = Returned ([], false)).
Proof.
  apply (connected_full_coverage cycle6 0 6 cycle6 0).
  - apply cycle6_nx_closed.
  - apply cycle6_origin.
  - rewrite cycle6_dom. apply cycle6_connected.
  - apply cycle6_simple_closed.
  - lia.
  - apply cycle6_connected.
Defined.

(** * Termination and the safety check *)

(** From any loop state with enough fuel the loops stop, run at most
    [N - k + 1] further rounds, and report the warning exactly when the
    round counter has passed [N]. *)
Lemma message_loop_bounded fuel G N k R P :
  N - k < fuel →
  message_loop fuel G N k R P ≠ OutOfFuel ∧
  ∀ steps warned,
    message_loop fuel G N k R P = Returned (steps, warned) →
    length steps ≤ S (N - k) ∧
    (warned = true ↔ steps ≠ [] ∧ N < k + length steps).
Proof.
  intros Hfuel. split; [by apply message_loop_fuel|].
  apply message_loop_length.
Qed.

Lemma simple_loop_bounded fuel network N k R P :
  N - k < fuel →
  ∃ steps warned,
    simple_loop fuel network N k R P = Returned (steps, warned) ∧
    length steps ≤ S (N - k) ∧
    (warned = true ↔ steps ≠ [] ∧ N < k + length steps).
Proof.
  intros Hfuel.
  destruct (simple_loop_fuel fuel network N k R P Hfuel)
    as (steps & warned & Hrun).
  exists steps, warned. split; [done|]. by eapply simple_loop_length.
Qed.

(** A loop state whose counter is already at [N]: the round is run, the
    counter passes [N], and the loop breaks with the warning. *)
Example safety_check_fires :
  message_loop 1 cycle6 2 2 {[0]} {[0]}
    = Returned ([ mkStep 2 3 1 (-1) ], true) ∧
  simple_loop 1 cycle6 2 2 {[0]} {[0]}
    = Returned ([ mkStep 2 3 1 (-1) ], true).
Proof. split; by vm_compute. Qed.

(** With a closed graph and a wavefront of nodes the networkx loop never
    raises, whatever the received set and the counter. *)
Lemma message_loop_total G fuel : ∀ N k R P,
  nx_closed G → P ⊆ dom G → N - k < fuel →
  ∃ steps warned, message_loop fuel G N k R P = Returned (steps, warned).
Proof.
  induction fuel as [|fuel IH]; intros N k R P Hcl HP Hfuel; simpl; [lia|].
  destruct (decide (P = ∅)); [by eauto|].
  rewrite nx_round_dom by done.
  destruct (simple_round G R (elements P)) as [R' P'] eqn:Hround.
  destruct (Nat.ltb_spec N (S k)) as [|Hguard]; [by eauto|].
  destruct (IH N (S k) R' P') as (steps & warned & ->); [done| |lia|by eauto].
  intros v [_ (u & _ & Hv)]%(round_new_propagating _ _ _ _ _ _ Hround).
  by apply (Hcl u).
Qed.

(** A round that is run with the counter at [N] or beyond is the last one:
    the counter passes [N], the warning is printed and the loop is left,
    whatever is still in the wavefront. *)
Lemma message_loop_aborts fuel G N k R P steps warned :
  P ≠ ∅ → N ≤ k →
  message_loop fuel G N k R P = Returned (steps, warned) →
  warned = true ∧ length steps = 1.
Proof.
  intros HP Hk. destruct fuel as [|fuel]; simpl; [done|].
  rewrite decide_False by done.
  destruct (nx_round G R (elements P)) as [[R' P']|]; [|done].
  destruct (Nat.ltb_spec N (S k)) as [|Hguard]; [|lia].
  by intros [= <- <-].
Qed.

Lemma simple_loop_aborts fuel network N k R P steps warned :
  P ≠ ∅ → size R < N → N ≤ k →
  simple_loop fuel network N k R P = Returned (steps, warned) →
  warned = true ∧ length steps = 1.
Proof.
  intros HP HR Hk. destruct fuel as [|fuel]; simpl; [done|].
  rewrite decide_True by done.
  destruct (simple_round network R (elements P)) as [R' P'].
  destruct (Nat.ltb_spec N (S k)) as [|Hguard]; [|lia].
  by intros [= <- <-].
Qed.

(** C7: both simulators terminate, and the safety check bounds the loop.

    A run of [simulate_propagation] on a valid graph and origin returns
    after at most N+1 executions of the round loop (one record each),
    without the warning.

    The round loop itself is bounded from every state it can be in: for
    any value [total_nodes] of the attribute it reads, any counter [step],
    any received set and any wavefront, it returns after at most
    [total_nodes - step + 1] further rounds; the warning is printed exactly
    when the loop is left because the counter has passed [total_nodes];
    and a round run with the counter at [total_nodes] or beyond is the
    last one, with the warning, even though its wavefront was not empty.
    [fuel] is the bound of the model's recursion; any value above
    [total_nodes - step] gives the result. *)
Theorem simulations_terminate
    (G : adjacency) (origin_node : nat) (network : adjacency)
    (total_nodes step : nat) (received propagating : gset nat) (fuel : nat) :
  nx_closed G → origin_node ∈ dom G → propagating ⊆ dom G →
  total_nodes - step < fuel →
  (∃ steps,
     message_simulate_propagation G origin_node = Returned (steps, false) ∧
     length steps ≤ S (size G)) ∧
  (∃ steps,
     simple_simulate_propagation total_nodes network origin_node
       = Returned (steps, false) ∧
     length steps ≤ S total_nodes) ∧
  (∃ steps warned,
     message_loop fuel G total_nodes step received propagating
       = Returned (steps, warned) ∧
     length steps ≤ S (total_nodes - step) ∧
     (warned = true ↔ steps ≠ [] ∧ total_nodes < step + length steps) ∧
     (propagating ≠ ∅ → total_nodes ≤ step →
      warned = true ∧ length steps = 1)) ∧
  (∃ steps warned,
     simple_loop fuel network total_nodes step received propagating
       = Returned (steps, warned) ∧
     length steps ≤ S (total_nodes - step) ∧
     (warned = true ↔ steps ≠ [] ∧ total_nodes < step + length steps) ∧
     (propagating ≠ ∅ → size received < total_nodes → total_nodes ≤ step →
      warned = true ∧ length steps = 1)).
Proof.
  intros Hcl Ho HP Hfuel. split; [|split; [|split]].
  - destruct (message_simulate_returns G origin_node Hcl Ho) as [steps Hrun].
    exists steps. split; [done|].
    apply message_loop_length in Hrun as [Hlen _]. lia.
  - destruct (simple_simulate_returns total_nodes network origin_node)
      as [steps Hrun].
    exists steps. split; [done|].
    apply simple_loop_length in Hrun as [Hlen _]. lia.
  - destruct (message_loop_total G fuel total_nodes step received propagating
                Hcl HP Hfuel) as (steps & warned & Hrun).
    exists steps, warned. split; [done|].
    destruct (message_loop_length _ _ _ _ _ _ _ _ Hrun) as [Hlen Hwarn].
    split; [done|]. split; [done|].
    intros Hne Hk. by eapply message_loop_aborts.
  - destruct (simple_loop_bounded fuel network total_nodes step received
                propagating Hfuel) as (steps & warned & Hrun & Hlen & Hwarn).
    exists steps, warned. split; [done|]. split; [done|]. split; [done|].
    intros Hne HR Hk. by eapply simple_loop_aborts.
Qed.

(** The loop state of [safety_check_fires]: counter and node count are both
    2 and the wavefront is node 0 of the cycle. *)
Lemma simulations_terminate_witness :
  (∃ steps,
     message_simulate_propagation cycle6 0 = Returned (steps, false) ∧
     length steps ≤ S (size cycle6)) ∧
  (∃ steps,
     simple_simulate_propagation 2 cycle6 0 = Returned (steps, false) ∧
     length steps ≤ S 2) ∧
  (∃ steps warned,
     message_loop 1 cycle6 2 2 {[0]} {[0]} = Returned (steps, warned) ∧
     length steps ≤ S (2 - 2) ∧
     (warned = true ↔ steps ≠ [] ∧ 2 < 2 + length steps) ∧
     (({[0]} : gset nat) ≠ ∅ → 2 ≤ 2 →
      warned = true ∧ length steps = 1)) ∧
  (∃ steps warned,
     simple_loop 1 cycle6 2 2 {[0]} {[0]} = Returned (steps, warned) ∧
     length steps ≤ S (2 - 2) ∧
     (warned = true ↔ steps ≠ [] ∧ 2 < 2 + length steps) ∧
     (({[0]} : gset nat) ≠ ∅ → size ({[0]} : gset nat) < 2 → 2 ≤ 2 →
      warned = true ∧ length steps = 1)).
Proof.
  apply (simulations_terminate cycle6 0 cycle6 2 2 {[0]} {[0]} 1).
  - apply cycle6_nx_closed.
  - apply cycle6_origin.
  - apply singleton_subseteq_l, cycle6_origin.
  - lia.
Defined.

(** * The two simulators compared *)

(** C10 (as stated, refuted): on the six-node cycle the networkx simulator
    records four rounds and the standard-library simulator three. *)
Lemma simulators_differ :
  steps_of (message_simulate_propagation cycle6 0)
    ≠ steps_of (simple_simulate_propagation (size cycle6) cycle6 0).
Proof.
  rewrite cycle6_size, cycle6_message_run, cycle6_simple_run. done.
Qed.

(** C10 (amended): on the same graph and origin the records of the
    standard-library simulator are a prefix of the records of the networkx
    simulator. The two traces are identical when propagation ends with some
    node still pending. When every node has been reached the networkx
    simulator records exactly one further round, with
    [received_count = N] and [pending_count = 0]. *)
Theorem simulators_agree_up_to_last_round
    (G : adjacency) (origin_node : nat) :
  nx_closed G → origin_node ∈ dom G →
  ∃ steps,
    simple_simulate_propagation (size G) G origin_node
      = Returned (steps, false) ∧
    ((message_simulate_propagation G origin_node = Returned (steps, false) ∧
      ∀ r, r ∈ steps → received_count r < size G) ∨
     (∃ extra,
        message_simulate_propagation G origin_node
          = Returned (steps ++ [extra], false) ∧
        step extra = length steps ∧
        received_count extra = size G ∧
        pending_count extra = 0%Z)).
Proof.
  intros Hcl Ho.
  destruct (loops_lockstep G (S (size G)) 0 {[origin_node]} {[origin_node]})
    as (steps & Rf & Pf & Hsimple & Hrounds & Hmsg);
    [done|done|set_solver|apply origin_start|set_solver|lia|].
  exists steps. split; [done|].
  destruct Hmsg as [[Hlt Hrun]|[Heq Hrun]].
  - left. split; [done|]. intros r Hr.
    pose proof (rounds_all_below _ _ _ _ _ _ _ _ Hrounds r Hr). lia.
  - right. eexists. split; [exact Hrun|]. simpl. split_and!; [done..|lia].
Qed.

Lemma simulators_agree_up_to_last_round_witness :
  ∃ steps,
    simple_simulate_propagation (size cycle6) cycle6 0
      = Returned (steps, false) ∧
    ((message_simulate_propagation cycle6 0 = Returned (steps, false) ∧
      ∀ r, r ∈ steps → received_count r < size cycle6) ∨
     (∃ extra,
        message_simulate_propagation cycle6 0
          = Returned (steps ++ [extra], false) ∧
        step extra = length steps ∧
        received_count extra = size cycle6 ∧
        pending_count extra = 0%Z)).
Proof.
  apply (simulators_agree_up_to_last_round cycle6 0).
  - apply cycle6_nx_closed.
  - apply cycle6_origin.
Defined.

(** * The generated graphs *)

(** C1: every graph produced by either builder for a positive node count
    has no self-loop, a symmetric adjacency, and no neighbour listed twice
    (no duplicate edge). *)
Theorem builders_produce_simple_graphs
    (gen : Generator) (np : NpRandom) (py : PyRandom)
    (positions : list position) (st : np_state np * py_state py) :
  sample_sound py →
  0 < total_nodes gen →
  length positions = total_nodes gen →
  (∃ G st',
     create_geographical_network_optimized gen np py positions st
       = Some (G, st') ∧
     no_self_loop G ∧ symmetric G ∧ no_duplicate_edge G) ∧
  (∃ network st',
     create_network py (total_nodes gen) (connections_per_node gen)
       positions st.2 = Some (network, st') ∧
     no_self_loop network ∧ symmetric network ∧ no_duplicate_edge network).
Proof.
  intros Hsample HN Hlen.
  assert (∀ i, i ∈ seq 0 (total_nodes gen) → i < length positions) as Hin.
  { intros i Hi%elem_of_seq. lia. }
  split.
  - unfold create_geographical_network_optimized, create_with_batch_size.
    rewrite batched_order_seq by (unfold BATCH_SIZE; lia).
    destruct (opt_process_returns gen np py positions _ Hin
                (nx_add_nodes_from ∅ (seq 0 (total_nodes gen))) st)
      as [[G st'] Hrun].
    exists G, st'. split; [done|].
    eapply opt_process_simple_graph; [done| |done].
    apply simple_graph_initial.
  - unfold create_network.
    destruct (Nat.eqb_spec (1000 `min` total_nodes gen) 0) as [|_]; [lia|].
    rewrite batched_order_seq by lia.
    destruct (simple_process_returns py (connections_per_node gen) positions
                _ Hin ∅ st.2) as [[network st'] Hrun].
    exists network, st'. split; [done|].
    eapply simple_process_simple_graph; [done| |done].
    apply simple_graph_empty_lists, network_get_empty.
Qed.

Lemma builders_produce_simple_graphs_witness :
  (∃ G st',
     create_geographical_network_optimized gen3 replay_np replay_py line3
       (draws6, draws6) = Some (G, st') ∧
     no_self_loop G ∧ symmetric G ∧ no_duplicate_edge G) ∧
  (∃ network st',
     create_network replay_py 3 2 line3 draws6 = Some (network, st') ∧
     no_self_loop network ∧ symmetric network ∧ no_duplicate_edge network).
Proof.
  apply (builders_produce_simple_graphs gen3 replay_np replay_py line3
           (draws6, draws6)).
  - apply replay_py_sample_sound.
  - simpl. lia.
  - reflexivity.
Defined.

(** * Batches and processing order *)

(** C9 (as stated, refuted): with the same positions, parameters and
    random stream, visiting the three nodes of [line3] in the order 2, 1, 0
    instead of 0, 1, 2 gives another edge set: the draws of the shared
    stream reach other candidate pairs. *)
Lemma processing_order_matters :
  [2; 1; 0] ≡ₚ seq 0 (total_nodes gen3) ∧
  ∃ G1 G2 st1 st2,
    create_geographical_network_optimized gen3 replay_np replay_py line3
      (draws6, []) = Some (G1, st1) ∧
    opt_process gen3 replay_np replay_py line3 [2; 1; 0]
      (nx_add_nodes_from ∅ (seq 0 (total_nodes gen3))) (draws6, [])
      = Some (G2, st2) ∧
    edge_set G1 ≠ edge_set G2.
Proof.
  split.
  - symmetry. apply (Permutation_rev [0; 1; 2]).
  - do 4 eexists. split_and!.
    + unfold create_geographical_network_optimized, create_with_batch_size.
      rewrite batched_order_seq by (unfold BATCH_SIZE; lia).
      apply line3_ascending.
    + apply line3_descending.
    + by_compute.
Qed.

(** C9 (amended): the graph (and hence the edge set) does not depend on
    the batch size: for every positive batch size the batches are visited
    one after the other and together enumerate the nodes 0 .. N-1 in
    ascending order. *)
Theorem batch_size_irrelevant
    (batch_size : nat) (gen : Generator) (np : NpRandom) (py : PyRandom)
    (positions : list position) (st : np_state np * py_state py) :
  0 < batch_size →
  create_with_batch_size batch_size gen np py positions st
    = create_geographical_network_optimized gen np py positions st ∧
  create_with_batch_size batch_size gen np py positions st
    = opt_process gen np py positions (seq 0 (total_nodes gen))
        (nx_add_nodes_from ∅ (seq 0 (total_nodes gen))) st.
Proof.
  intros HB.
  unfold create_geographical_network_optimized, create_with_batch_size.
  rewrite !batched_order_seq by (unfold BATCH_SIZE; lia). done.
Qed.

Lemma batch_size_irrelevant_witness :
  create_with_batch_size 1 gen3 replay_np replay_py line3 (draws6, [])
    = create_geographical_network_optimized gen3 replay_np replay_py line3
        (draws6, []) ∧
  create_with_batch_size 1 gen3 replay_np replay_py line3 (draws6, [])
    = opt_process gen3 replay_np replay_py line3 (seq 0 (total_nodes gen3))
        (nx_add_nodes_from ∅ (seq 0 (total_nodes gen3))) (draws6, []).
Proof.
  apply (batch_size_irrelevant 1 gen3 replay_np replay_py line3 (draws6, [])).
  lia.
Defined.

(** * Connection probability *)

(** C6 (as stated, refuted): with [distance_weight = 0] the probability
    at [d = max_distance] is [0 ** 0 = 1], not 0. *)
Lemma zero_weight_probability_at_max :
  (0 < 1 <= 1)%R ∧ (0 <= 0)%R ∧ connection_probability 1 0 1 ≠ 0%R.
Proof.
  split_and!; [lra..|].
  unfold connection_probability. rewrite power_zero_exponent. lra.
Qed.

(** C6 (amended): for [max_distance] in (0,1], [distance_weight >= 0] and
    [0 <= d <= max_distance] the connection probability is
    [(1 - d/max_distance) ^ distance_weight], lies in [0,1], does not
    increase with [d] and is 1 at [d = 0]; at [d = max_distance] it is 0
    when [distance_weight > 0], and it is 1 for every [d] when
    [distance_weight = 0]. *)
Theorem connection_probability_properties
    (max_distance distance_weight d : R) :
  (0 < max_distance <= 1)%R → (0 <= distance_weight)%R →
  (0 <= d <= max_distance)%R →
  connection_probability max_distance distance_weight d
    = power (1 - d / max_distance) distance_weight ∧
  ((d < max_distance)%R →
   connection_probability max_distance distance_weight d
     = Rpower (1 - d / max_distance) distance_weight) ∧
  (0 <= connection_probability max_distance distance_weight d <= 1)%R ∧
  (∀ d', (d <= d' <= max_distance)%R →
         (connection_probability max_distance distance_weight d'
          <= connection_probability max_distance distance_weight d)%R) ∧
  connection_probability max_distance distance_weight 0 = 1%R ∧
  ((0 < distance_weight)%R →
   connection_probability max_distance distance_weight max_distance = 0%R) ∧
  (distance_weight = 0%R →
   connection_probability max_distance distance_weight d = 1%R).
Proof.
  intros Hmax Hw Hd. unfold connection_probability.
  refine (conj _ (conj _ (conj _ (conj _ (conj _ (conj _ _)))))).
  - done.
  - intros Hlt. apply power_positive_base.
    pose proof (ratio_below d max_distance). lra.
  - apply power_range; [|done].
    pose proof (ratio_range d max_distance). lra.
  - intros d' Hd'. apply power_monotone; [|done].
    pose proof (ratio_range d' max_distance).
    pose proof (ratio_monotone d d' max_distance). lra.
  - replace (1 - 0 / max_distance)%R with 1%R by (field; lra).
    rewrite power_positive_base by lra.
    unfold Rpower. by rewrite ln_1, Rmult_0_r, exp_0.
  - intros Hpos.
    replace (1 - max_distance / max_distance)%R with 0%R by (field; lra).
    apply power_zero_base. lra.
  - intros ->. apply power_zero_exponent.
Qed.

Lemma connection_probability_properties_witness :
  connection_probability (3 / 10) (7 / 10) (1 / 10)
    = power (1 - 1 / 10 / (3 / 10)) (7 / 10) ∧
  ((1 / 10 < 3 / 10)%R →
   connection_probability (3 / 10) (7 / 10) (1 / 10)
     = Rpower (1 - 1 / 10 / (3 / 10)) (7 / 10)) ∧
  (0 <= connection_probability (3 / 10) (7 / 10) (1 / 10) <= 1)%R ∧
  (∀ d', (1 / 10 <= d' <= 3 / 10)%R →
         (connection_probability (3 / 10) (7 / 10) d'
          <= connection_probability (3 / 10) (7 / 10) (1 / 10))%R) ∧
  connection_probability (3 / 10) (7 / 10) 0 = 1%R ∧
  ((0 < 7 / 10)%R →
   connection_probability (3 / 10) (7 / 10) (3 / 10) = 0%R) ∧
  ((7 / 10)%R = 0%R →
   connection_probability (3 / 10) (7 / 10) (1 / 10) = 1%R).
Proof.
  apply (connection_probability_properties (3 / 10) (7 / 10) (1 / 10)); lra.
Defined.

(** * Undefined metrics in the report *)

(** When the graph is connected and one of the two exact computations
    raises, the handler stores the integer 0 for the clustering coefficient
    and infinity for the path length. *)
Example failed_computation_report (nx : Networkx) (G : adjacency) properties :
  nx_is_connected nx G = Some true →
  nx_average_clustering nx G = None ∨
    nx_average_shortest_path_length nx G = None →
  analyze_network_properties nx G = Some properties →
  properties !! "average_clustering" = Some (VInt 0) ∧
  properties !! "average_path_length" = Some VInf.
Proof.
  unfold analyze_network_properties. intros -> Hfail.
  destruct (nx_average_clustering nx G) as [clustering|];
    [destruct (nx_average_shortest_path_length nx G) as [path_length|]|];
    [by destruct Hfail|..]; intros [= <-]; by simplify_map_eq.
Qed.

(** C8 (as stated, refuted): for the disconnected graph of two isolated
    nodes the report holds no entry for [average_clustering] and none for
    [average_path_length], hence no sentinel value for either. *)
Lemma disconnected_report_has_no_sentinel :
  nx_is_connected nx_two_isolated two_isolated = Some false ∧
  ∃ properties,
    analyze_network_properties nx_two_isolated two_isolated
      = Some properties ∧
    ¬ reported_undefined properties "average_clustering" ∧
    ¬ reported_undefined properties "average_path_length".
Proof.
  split; [done|]. eexists. split; [reflexivity|].
  unfold reported_undefined. split; by simplify_map_eq.
Qed.

(** C8 (amended): for a disconnected graph the report contains neither an
    [average_clustering] nor an [average_path_length] entry (so no zero is
    reported for them); when the graph is connected and an exact
    computation raises, [average_path_length] is reported as infinity. *)
Theorem undefined_metrics_report
    (nx : Networkx) (G : adjacency) (properties : gmap string py_value) :
  analyze_network_properties nx G = Some properties →
  (nx_is_connected nx G = Some false →
   properties !! "average_clustering" = None ∧
   properties !! "average_path_length" = None) ∧
  (nx_is_connected nx G = Some true →
   nx_average_clustering nx G = None ∨
     nx_average_shortest_path_length nx G = None →
   reported_undefined properties "average_path_length").
Proof.
  intros Hrun. split.
  - intros Hdis. unfold analyze_network_properties in Hrun.
    rewrite Hdis in Hrun. injection Hrun as <-. by simplify_map_eq.
  - intros Hconn Hfail.
    by destruct (failed_computation_report nx G properties Hconn Hfail Hrun).
Qed.

Lemma undefined_metrics_report_witness :
  ∃ properties,
    analyze_network_properties nx_two_isolated two_isolated
      = Some properties ∧
    (nx_is_connected nx_two_isolated two_isolated = Some false →
     properties !! "average_clustering" = None ∧
     properties !! "average_path_length" = None) ∧
    (nx_is_connected nx_two_isolated two_isolated = Some true →
     nx_average_clustering nx_two_isolated two_isolated = None ∨
       nx_average_shortest_path_length nx_two_isolated two_isolated = None →
     reported_undefined properties "average_path_length").
Proof.
  eexists. split; [reflexivity|].
  apply (undefined_metrics_report nx_two_isolated two_isolated).
  reflexivity.
Defined.

(** * Further properties of the propagation simulators *)

Lemma neighborhood_perm network nodes nodes' :
  nodes ≡ₚ nodes' → neighborhood network nodes = neighborhood network nodes'.
Proof.
  intros Hperm. apply set_eq. intros v. rewrite !elem_of_neighborhood.
  by setoid_rewrite Hperm.
Qed.

Lemma nx_send_all_missing G nodes u : ∀ st,
  u ∈ nodes → u ∉ dom G → nx_send_all G st nodes = None.
Proof.
  induction nodes as [|n ns IH]; intros st Hin Hdom; simpl.
  - by apply elem_of_nil in Hin.
  - unfold nx_neighbors. destruct (G !! n) as [l|] eqn:Hn; [|done].
    apply IH; [|done]. apply elem_of_cons in Hin as [->|?]; [|done].
    exfalso. apply Hdom. apply elem_of_dom. eauto.
Qed.

(** The sets left by a round do not depend on the order in which the
    wavefront is iterated: a missing node raises in every order, and
    otherwise the received set and the next wavefront are the same. *)
Theorem round_order_irrelevant
    (network : adjacency) (received : gset nat) (nodes nodes' : list nat) :
  nodes ≡ₚ nodes' →
  simple_round network received nodes
    = simple_round network received nodes' ∧
  nx_round network received nodes = nx_round network received nodes'.
Proof.
  intros Hperm. split.
  - by rewrite !simple_round_sets, (neighborhood_perm _ _ _ Hperm).
  - destruct (nx_round network received nodes) as [res|] eqn:Hrun.
    + destruct (nx_round network received nodes') as [res'|] eqn:Hrun'.
      * apply nx_round_Some in Hrun, Hrun'. subst.
        by rewrite !simple_round_sets, (neighborhood_perm _ _ _ Hperm).
      * apply nx_round_None in Hrun' as (u & Hu & Hdom).
        rewrite <- Hperm in Hu. unfold nx_round in Hrun.
        by rewrite (nx_send_all_missing _ _ u) in Hrun.
    + apply nx_round_None in Hrun as (u & Hu & Hdom).
      rewrite Hperm in Hu. symmetry. by apply (nx_send_all_missing _ _ u).
Qed.

Lemma round_order_irrelevant_witness :
  simple_round cycle6 {[0]} [1; 5] = simple_round cycle6 {[0]} [5; 1] ∧
  nx_round cycle6 {[0]} [1; 5] = nx_round cycle6 {[0]} [5; 1].
Proof.
  apply (round_order_irrelevant cycle6 {[0]} [1; 5] [5; 1]).
  apply perm_swap.
Defined.

Lemma neighborhood_isolated network nodes :
  (∀ u, u ∈ nodes → network_get network u = []) →
  neighborhood network nodes = ∅.
Proof.
  intros Hiso. apply set_eq. intros v. rewrite elem_of_neighborhood.
  split; [|set_solver]. intros (u & Hu & Hv).
  rewrite (Hiso u Hu) in Hv. by apply elem_of_nil in Hv.
Qed.

Lemma isolated_round network (origin_node : nat) :
  network_get network origin_node = [] →
  simple_round network {[origin_node]} (elements ({[origin_node]} : gset nat))
    = ({[origin_node]}, ∅).
Proof.
  intros Hiso. rewrite simple_round_sets, neighborhood_isolated.
  - f_equal; set_solver.
  - intros u Hu%elem_of_elements. by assert (u = origin_node) as -> by set_solver.
Qed.

(** An origin without neighbours gives exactly one record: round 0 with
    one node received, one propagating and all others pending.  The
    standard-library simulator needs at least two nodes for that. *)
Theorem isolated_origin_single_round
    (G : adjacency) (origin_node total_nodes : nat) (network : adjacency)
    (origin_node' : nat) :
  origin_node ∈ dom G → network_get G origin_node = [] →
  1 < total_nodes → network_get network origin_node' = [] →
  message_simulate_propagation G origin_node
    = Returned ([mkStep 0 1 1 (Z.of_nat (size G) - 1)], false) ∧
  simple_simulate_propagation total_nodes network origin_node'
    = Returned ([mkStep 0 1 1 (Z.of_nat total_nodes - 1)], false).
Proof.
  intros Ho Hiso HN Hiso'. split.
  - assert (size G ≠ 0) as HG.
    { rewrite <- size_dom. intros Hz%size_empty_inv. set_solver. }
    unfold message_simulate_propagation. cbn [message_loop].
    rewrite decide_False by set_solver.
    rewrite nx_round_dom by set_solver. rewrite (isolated_round _ _ Hiso).
    destruct (Nat.ltb_spec (size G) 1) as [|_]; [lia|].
    destruct (size G) as [|n]; [done|]. cbn [message_loop].
    rewrite decide_True by done. unfold record_step.
    by rewrite !size_singleton.
  - unfold simple_simulate_propagation. cbn [simple_loop].
    rewrite decide_True by (rewrite size_singleton; split; [set_solver|lia]).
    rewrite (isolated_round _ _ Hiso').
    destruct (Nat.ltb_spec total_nodes 1) as [|_]; [lia|].
    destruct total_nodes as [|n]; [lia|]. cbn [simple_loop].
    rewrite decide_False by (intros [? _]; done). unfold record_step.
    by rewrite !size_singleton.
Qed.

Lemma isolated_origin_single_round_witness :
  message_simulate_propagation two_isolated 0
    = Returned ([mkStep 0 1 1 (Z.of_nat (size two_isolated) - 1)], false) ∧
  simple_simulate_propagation 2 ∅ 0
    = Returned ([mkStep 0 1 1 (Z.of_nat 2 - 1)], false).
Proof.
  apply (isolated_origin_single_round two_isolated 0 2 ∅ 0).
  - by_compute.
  - reflexivity.
  - lia.
  - reflexivity.
Defined.

(** An origin that is not a node of the networkx graph makes the
    simulation raise in its first round (also on the empty graph). *)
Theorem unknown_origin_raises (G : adjacency) (origin_node : nat) :
  origin_node ∉ dom G →
  message_simulate_propagation G origin_node = Raised.
Proof.
  intros Ho. unfold message_simulate_propagation. cbn [message_loop].
  rewrite decide_False by set_solver.
  unfold nx_round. rewrite (nx_send_all_missing _ _ origin_node); [done| |done].
  apply elem_of_elements. set_solver.
Qed.

Lemma unknown_origin_raises_witness :
  message_simulate_propagation cycle6 7 = Raised.
Proof. apply (unknown_origin_raises cycle6 7). by_compute. Defined.

(** ** The safety check is never reached *)

Lemma simple_loop_short network N fuel : ∀ k R P steps warned,
  (P ≠ ∅ → S k ≤ size R) →
  simple_loop fuel network N k R P = Returned (steps, warned) →
  length steps ≤ N - 1 - k.
Proof.
  induction fuel as [|fuel IH]; intros k R P steps warned Hcount; simpl;
    [done|].
  destruct (decide (P ≠ ∅ ∧ size R < N)) as [[HP HRN]|].
  2:{ intros [= <- <-]. simpl. lia. }
  destruct (simple_round network R (elements P)) as [R' P'] eqn:Hround.
  specialize (Hcount HP).
  destruct (Nat.ltb_spec N (S k)) as [|Hguard]; [lia|].
  destruct (simple_loop fuel network N (S k) R' P')
    as [[steps' warned']| |] eqn:Hrec; [|done..].
  intros [= <- <-]. apply IH in Hrec.
  - simpl. lia.
  - intros HP'. apply round_size in Hround.
    assert (size P' ≠ 0) by (by intros ?%size_empty_inv%leibniz_equiv). lia.
Qed.

(** For a valid graph and origin the warning is never printed.  The
    networkx simulator records between 1 and N rounds, the
    standard-library simulator at most N - 1. *)
Theorem round_count_bounds
    (G : adjacency) (origin_node total_nodes : nat) (network : adjacency)
    (origin_node' : nat) :
  nx_closed G → origin_node ∈ dom G →
  (∃ steps,
     message_simulate_propagation G origin_node = Returned (steps, false) ∧
     1 ≤ length steps ≤ size G) ∧
  (∃ steps,
     simple_simulate_propagation total_nodes network origin_node'
       = Returned (steps, false) ∧
     length steps ≤ total_nodes - 1).
Proof.
  intros Hcl Ho. split.
  - destruct (message_simulate_returns G origin_node Hcl Ho) as [steps Hrun].
    exists steps. split; [done|].
    pose proof Hrun as (Rf & Pf & Hrounds & HPf)%message_loop_rounds.
    apply message_loop_length in Hrun as [_ Hwarn]. split.
    + destruct steps; [|simpl; lia].
      apply rounds_nonempty in Hrounds as [_ ->]; [|done]. set_solver.
    + destruct (Nat.le_gt_cases (length steps) (size G)) as [|Hgt]; [done|].
      assert (false = true) as [=]. apply Hwarn. split; [|simpl; lia].
      intros ->. simpl in Hgt. lia.
  - destruct (simple_simulate_returns total_nodes network origin_node')
      as [steps Hrun].
    exists steps. split; [done|].
    apply simple_loop_short in Hrun; [lia|apply origin_start].
Qed.

Lemma round_count_bounds_witness :
  (∃ steps,
     message_simulate_propagation cycle6 0 = Returned (steps, false) ∧
     1 ≤ length steps ≤ size cycle6) ∧
  (∃ steps,
     simple_simulate_propagation 6 cycle6 0 = Returned (steps, false) ∧
     length steps ≤ 6 - 1).
Proof.
  apply (round_count_bounds cycle6 0 6 cycle6 0).
  - apply cycle6_nx_closed.
  - apply cycle6_origin.
Defined.

(** ** Partial coverage: the origin's component *)

Lemma rounds_reachable network N origin_node k R P steps Rf Pf :
  rounds network N k R P steps Rf Pf →
  P ⊆ R →
  (∀ v, v ∈ R → rtc (edge network) origin_node v) →
  ∀ v, v ∈ Rf → rtc (edge network) origin_node v.
Proof.
  induction 1 as [|k R P R' P' steps Rf Pf HP Hround Hrest IH]; [auto|].
  intros HPR Hreach. apply IH.
  - by apply round_mono in Hround as [_ ?].
  - intros v [?|(u & Hu & Hv)]%(round_received _ _ _ _ _ _ Hround); [auto|].
    apply (rtc_r _ u); [apply Hreach; set_solver|done].
Qed.

Lemma exhausted_component network (Rf C : gset nat) origin_node :
  component_of network origin_node C →
  frontier_closed network Rf ∅ → origin_node ∈ Rf →
  (∀ v, v ∈ Rf → rtc (edge network) origin_node v) →
  Rf = C.
Proof.
  intros HC [_ Hcl] Ho Hreach. apply set_eq. intros v. rewrite (HC v).
  split; [apply Hreach|]. intros Hv.
  apply (closed_reachable network Rf origin_node v); [|done..].
  intros a b Ha Hb. apply (Hcl a b); [done|set_solver|done].
Qed.

Lemma message_component_coverage G origin_node (C : gset nat) :
  nx_closed G → origin_node ∈ dom G →
  component_of G origin_node C →
  ∃ steps r,
    message_simulate_propagation G origin_node = Returned (steps, false) ∧
    last steps = Some r ∧
    received_count r = size C ∧
    pending_count r = (Z.of_nat (size G) - Z.of_nat (size C))%Z.
Proof.
  intros Hcl Ho HC.
  destruct (message_simulate_returns G origin_node Hcl Ho) as [steps Hrun].
  pose proof Hrun as Hrounds.
  apply message_loop_rounds in Hrounds as (Rf & Pf & Hrounds & ->).
  assert (steps ≠ []) as Hne.
  { intros Hnil. by destruct (rounds_nonempty _ _ _ _ _ _ _ _ Hrounds Hnil). }
  destruct (rounds_last _ _ _ _ _ _ _ _ Hrounds Hne) as (r & Hlast & Hrc & Hpc).
  pose proof (rounds_frontier _ _ _ _ _ _ _ _ Hrounds
                (frontier_closed_origin G origin_node)) as Hfc.
  pose proof (rounds_received_mono _ _ _ _ _ _ _ _ Hrounds) as (HoRf & _ & _).
  assert (Rf = C) as <-.
  { apply (exhausted_component G _ _ origin_node); [done|done|set_solver|].
    apply (rounds_reachable _ _ origin_node _ _ _ _ _ _ Hrounds); [done|].
    intros v ->%elem_of_singleton. apply rtc_refl. }
  by exists steps, r.
Qed.

Lemma simple_component_coverage N network origin_node (C : gset nat) :
  simple_closed N network → origin_node < N → 1 < N →
  component_of network origin_node C →
  ∃ steps r,
    simple_simulate_propagation N network origin_node
      = Returned (steps, false) ∧
    last steps = Some r ∧
    received_count r = size C ∧
    pending_count r = (Z.of_nat N - Z.of_nat (size C))%Z.
Proof.
  intros Hcl Ho HN HC.
  destruct (simple_simulate_returns N network origin_node) as [steps Hrun].
  pose proof Hrun as Hrounds.
  apply simple_loop_rounds in Hrounds as (Rf & Pf & Hrounds & Hstop).
  assert (origin_node ∈ node_range N) as Hon.
  { apply elem_of_set_seq. lia. }
  assert (steps ≠ []) as Hne.
  { intros Hnil.
    destruct (rounds_nonempty _ _ _ _ _ _ _ _ Hrounds Hnil) as [-> ->].
    rewrite size_singleton in Hstop. destruct Hstop; [set_solver|lia]. }
  destruct (rounds_last _ _ _ _ _ _ _ _ Hrounds Hne) as (r & Hlast & Hrc & Hpc).
  pose proof (rounds_frontier _ _ _ _ _ _ _ _ Hrounds
                (frontier_closed_origin network origin_node)) as Hfc.
  pose proof (rounds_received_mono _ _ _ _ _ _ _ _ Hrounds) as (HoRf & _ & _).
  destruct (rounds_within network N (node_range N) _ _ _ _ _ _ Hrounds)
    as [_ HRf]; [by apply simple_closed_nodes|done|set_solver|].
  assert (∀ v, v ∈ Rf → rtc (edge network) origin_node v) as Hreach.
  { apply (rounds_reachable _ _ origin_node _ _ _ _ _ _ Hrounds); [done|].
    intros v ->%elem_of_singleton. apply rtc_refl. }
  assert (Rf = C) as <-.
  { destruct Hstop as [->|Hsize].
    - apply (exhausted_component network _ _ origin_node);
        [done|done|set_solver|done].
    - assert (Rf = node_range N) as HRN.
      { apply full_of_size; [done|]. by rewrite size_node_range. }
      apply set_eq. intros v. rewrite (HC v). split; [apply Hreach|].
      intros Hv. rewrite HRN.
      apply (closed_reachable network _ origin_node v); [|done..].
      by apply simple_closed_nodes. }
  by exists steps, r.
Qed.

(** Whatever the graph, propagation ends with exactly the nodes that can
    be reached from the origin: the final record counts the origin's
    component as received and every other node as pending (for the
    standard-library simulator when there are at least two nodes). *)
Theorem final_coverage_is_component
    (G : adjacency) (origin_node : nat) (C : gset nat)
    (total_nodes : nat) (network : adjacency) (origin_node' : nat)
    (C' : gset nat) :
  nx_closed G → origin_node ∈ dom G → component_of G origin_node C →
  simple_closed total_nodes network → origin_node' < total_nodes →
  1 < total_nodes → component_of network origin_node' C' →
  (∃ steps r,
     message_simulate_propagation G origin_node = Returned (steps, false) ∧
     last steps = Some r ∧
     received_count r = size C ∧
     pending_count r = (Z.of_nat (size G) - Z.of_nat (size C))%Z) ∧
  (∃ steps r,
     simple_simulate_propagation total_nodes network origin_node'
       = Returned (steps, false) ∧
     last steps = Some r ∧
     received_count r = size C' ∧
     pending_count r = (Z.of_nat total_nodes - Z.of_nat (size C'))%Z).
Proof.
  intros. split.
  - by apply message_component_coverage.
  - by apply simple_component_coverage.
Qed.

Lemma two_triangles_nx_closed : nx_closed two_triangles.
Proof. apply nx_closed_check. by_compute. Qed.

Lemma two_triangles_dom : dom two_triangles = node_range 6.
Proof. by_compute. Qed.

Lemma two_triangles_simple_closed : simple_closed 6 two_triangles.
Proof.
  intros u v Hu Hv.
  assert (v ∈ node_range 6) as ?%elem_of_set_seq; [|lia].
  rewrite <- two_triangles_dom. by apply (two_triangles_nx_closed u).
Qed.

Lemma two_triangles_component :
  component_of two_triangles 0 first_triangle.
Proof.
  unfold first_triangle. intros v. split.
  - intros Hv. assert (v = 0 ∨ v = 1 ∨ v = 2) as [->|[->| ->]] by set_solver.
    + apply rtc_refl.
    + apply rtc_once. unfold edge. by_compute.
    + apply rtc_once. unfold edge. by_compute.
  - intros Hv.
    apply (closed_reachable two_triangles _ 0 v); [|done|set_solver].
    intros a b Ha Hb.
    assert (a = 0 ∨ a = 1 ∨ a = 2) as [->|[->| ->]] by set_solver;
      vm_compute in Hb; set_solver.
Qed.

Lemma final_coverage_is_component_witness :
  (∃ steps r,
     message_simulate_propagation two_triangles 0 = Returned (steps, false) ∧
     last steps = Some r ∧
     received_count r = size first_triangle ∧
     pending_count r
       = (Z.of_nat (size two_triangles)
          - Z.of_nat (size first_triangle))%Z) ∧
  (∃ steps r,
     simple_simulate_propagation 6 two_triangles 0 = Returned (steps, false) ∧
     last steps = Some r ∧
     received_count r = size first_triangle ∧
     pending_count r
       = (Z.of_nat 6 - Z.of_nat (size first_triangle))%Z).
Proof.
  apply (final_coverage_is_component two_triangles 0 first_triangle
           6 two_triangles 0 first_triangle).
  - apply two_triangles_nx_closed.
  - by_compute.
  - apply two_triangles_component.
  - apply two_triangles_simple_closed.
  - lia.
  - lia.
  - apply two_triangles_component.
Defined.

(** ** Send-once *)

Lemma rounds_total_propagating network N k R P steps Rf Pf :
  rounds network N k R P steps Rf Pf →
  size R + total_propagating steps + size Pf = size Rf + size P.
Proof.
  induction 1 as [|k R P R' P' steps Rf Pf HP Hround Hrest IH].
  - unfold total_propagating. simpl. lia.
  - apply round_size in Hround. unfold total_propagating in *.
    rewrite fmap_cons. change (sum_list (?x :: ?l)) with (x + sum_list l).
    simpl propagating_count. lia.
Qed.

(** Every node that receives the message is in the wavefront of exactly
    one recorded round of the networkx simulator: the recorded wavefront
    sizes add up to the final [received_count].  The standard-library
    simulator may stop before the last informed nodes send, so there the
    sum does not exceed the final [received_count]. *)
Theorem every_receiver_sends_once
    (G : adjacency) (origin_node total_nodes : nat) (network : adjacency)
    (origin_node' : nat) :
  nx_closed G → origin_node ∈ dom G →
  (∃ steps r,
     message_simulate_propagation G origin_node = Returned (steps, false) ∧
     last steps = Some r ∧
     total_propagating steps = received_count r) ∧
  (∃ steps,
     simple_simulate_propagation total_nodes network origin_node'
       = Returned (steps, false) ∧
     ∀ r, last steps = Some r → total_propagating steps ≤ received_count r).
Proof.
  intros Hcl Ho. split.
  - destruct (message_simulate_returns G origin_node Hcl Ho) as [steps Hrun].
    pose proof Hrun as (Rf & Pf & Hrounds & ->)%message_loop_rounds.
    assert (steps ≠ []) as Hne.
    { intros Hnil.
      by destruct (rounds_nonempty _ _ _ _ _ _ _ _ Hrounds Hnil). }
    destruct (rounds_last _ _ _ _ _ _ _ _ Hrounds Hne)
      as (r & Hlast & Hrc & _).
    exists steps, r. split_and!; [done..|].
    apply rounds_total_propagating in Hrounds.
    rewrite size_empty, !size_singleton in Hrounds. lia.
  - destruct (simple_simulate_returns total_nodes network origin_node')
      as [steps Hrun].
    exists steps. split; [done|]. intros r Hr.
    apply simple_loop_rounds in Hrun as (Rf & Pf & Hrounds & _).
    destruct (rounds_last _ _ _ _ _ _ _ _ Hrounds) as (r' & Hlast & Hrc & _).
    { by intros ->. }
    rewrite Hr in Hlast. injection Hlast as <-.
    apply rounds_total_propagating in Hrounds.
    rewrite !size_singleton in Hrounds. lia.
Qed.

Lemma every_receiver_sends_once_witness :
  (∃ steps r,
     message_simulate_propagation cycle6 0 = Returned (steps, false) ∧
     last steps = Some r ∧
     total_propagating steps = received_count r) ∧
  (∃ steps,
     simple_simulate_propagation 6 cycle6 0 = Returned (steps, false) ∧
     ∀ r, last steps = Some r → total_propagating steps ≤ received_count r).
Proof.
  apply (every_receiver_sends_once cycle6 0 6 cycle6 0).
  - apply cycle6_nx_closed.
  - apply cycle6_origin.
Defined.

(** * Further properties of the network builders *)

Lemma generate_positions_length py n : ∀ st,
  length (generate_positions py n st).1 = n.
Proof.
  induction n as [|n IH]; intros st; simpl; [done|].
  destruct (random_random py st) as [x st1].
  destruct (random_random py st1) as [y st2].
  specialize (IH st2).
  destruct (generate_positions py n st2) as [positions st3].
  simpl in *. by rewrite IH.
Qed.

Lemma generate_positions_unit py n : ∀ st,
  py_unit_interval py →
  Forall in_unit_square (generate_positions py n st).1.
Proof.
  induction n as [|n IH]; intros st Hunit; simpl; [constructor|].
  pose proof (Hunit st) as Hx.
  destruct (random_random py st) as [x st1].
  pose proof (Hunit st1) as Hy.
  destruct (random_random py st1) as [y st2].
  specialize (IH st2 Hunit).
  destruct (generate_positions py n st2) as [positions st3].
  simpl in *. constructor; [by split|done].
Qed.

Lemma np_random_random_length np n : ∀ st,
  length (np_random_random np n st).1 = n.
Proof.
  induction n as [|n IH]; intros st; simpl; [done|].
  destruct (np_random_double np st) as [r st1].
  specialize (IH st1).
  destruct (np_random_random np n st1) as [rs st2]. simpl in *.
  by rewrite IH.
Qed.

Lemma np_random_random_unit np n : ∀ st,
  np_unit_interval np →
  Forall (λ r, 0 <= r < 1)%R (np_random_random np n st).1.
Proof.
  induction n as [|n IH]; intros st Hunit; simpl; [constructor|].
  pose proof (Hunit st) as Hr.
  destruct (np_random_double np st) as [r st1].
  specialize (IH st1 Hunit).
  destruct (np_random_random np n st1) as [rs st2]. simpl in *.
  by constructor.
Qed.

Lemma rows_of_two_length n : ∀ doubles,
  length doubles = n * 2 → length (rows_of_two doubles) = n.
Proof.
  induction n as [|n IH]; intros doubles Hlen.
  - by destruct doubles.
  - destruct doubles as [|x [|y rest]]; simpl in *; try lia.
    rewrite IH; [done|lia].
Qed.

Lemma rows_of_two_unit n : ∀ doubles,
  length doubles = n * 2 →
  Forall (λ r, 0 <= r < 1)%R doubles →
  Forall in_unit_square (rows_of_two doubles).
Proof.
  induction n as [|n IH]; intros doubles Hlen Hall.
  - destruct doubles; [constructor|done].
  - destruct doubles as [|x [|y rest]]; simpl in *; try lia.
    inversion Hall as [|? ? Hx Hrest]; subst.
    inversion Hrest as [|? ? Hy Hrest']; subst.
    constructor; [by split|]. apply IH; [lia|done].
Qed.

Lemma opt_generate_positions_length gen np st :
  length (opt_generate_positions gen np st).1 = total_nodes gen.
Proof.
  unfold opt_generate_positions.
  pose proof (np_random_random_length np (total_nodes gen * 2) st) as Hlen.
  destruct (np_random_random np (total_nodes gen * 2) st) as [doubles st1].
  simpl in *. by apply rows_of_two_length.
Qed.

Lemma opt_generate_positions_unit gen np st :
  np_unit_interval np →
  Forall in_unit_square (opt_generate_positions gen np st).1.
Proof.
  intros Hunit. unfold opt_generate_positions.
  pose proof (np_random_random_length np (total_nodes gen * 2) st) as Hlen.
  pose proof (np_random_random_unit np (total_nodes gen * 2) st Hunit) as Hall.
  destruct (np_random_random np (total_nodes gen * 2) st) as [doubles st1].
  simpl in *. by apply (rows_of_two_unit (total_nodes gen)).
Qed.

(** ** When the builders return *)

Lemma find_geographical_neighbors_None py cpn node_idx positions st :
  length positions ≤ node_idx →
  find_geographical_neighbors py cpn node_idx positions st = None.
Proof.
  intros Hlen. unfold find_geographical_neighbors.
  by rewrite (lookup_ge_None_2 positions node_idx).
Qed.

Lemma opt_find_geographical_neighbors_None gen np py node_idx positions st :
  length positions ≤ node_idx →
  opt_find_geographical_neighbors gen np py node_idx positions st = None.
Proof.
  intros Hlen. unfold opt_find_geographical_neighbors.
  by rewrite (lookup_ge_None_2 positions node_idx).
Qed.

Lemma simple_process_None py cpn positions order i :
  i ∈ order → length positions ≤ i →
  ∀ network st, simple_process py cpn positions order network st = None.
Proof.
  intros Hin Hlen.
  induction order as [|j rest IH]; intros network st; simpl.
  - by apply elem_of_nil in Hin.
  - destruct (find_geographical_neighbors py cpn j positions st)
      as [[neighbors st1]|] eqn:Hfind; [|done].
    apply IH. apply elem_of_cons in Hin as [->|?]; [|done].
    by rewrite find_geographical_neighbors_None in Hfind.
Qed.

Lemma opt_process_None gen np py positions order i :
  i ∈ order → length positions ≤ i →
  ∀ G st, opt_process gen np py positions order G st = None.
Proof.
  intros Hin Hlen.
  induction order as [|j rest IH]; intros G st; simpl.
  - by apply elem_of_nil in Hin.
  - destruct (opt_find_geographical_neighbors gen np py j positions st)
      as [[neighbors st1]|] eqn:Hfind; [|done].
    apply IH. apply elem_of_cons in Hin as [->|?]; [|done].
    by rewrite opt_find_geographical_neighbors_None in Hfind.
Qed.

(** With natural counts the networkx builder returns a graph exactly when
    there is a position for every node (otherwise [positions[node_idx]]
    raises); the standard-library builder in addition raises for zero
    nodes, where the batch size, the step of [range], is zero. *)
Lemma opt_create_returns_iff gen np py positions st :
  is_Some (create_geographical_network_optimized gen np py positions st)
  ↔ total_nodes gen ≤ length positions.
Proof.
  unfold create_geographical_network_optimized, create_with_batch_size.
  rewrite batched_order_seq by (unfold BATCH_SIZE; lia). split.
  - intros Hsome.
    destruct (Nat.le_gt_cases (total_nodes gen) (length positions))
      as [|Hgt]; [done|].
    rewrite (opt_process_None _ _ _ _ _ (length positions)) in Hsome;
      [by destruct Hsome| |done].
    apply elem_of_seq. lia.
  - intros Hle. apply opt_process_returns.
    intros i Hi%elem_of_seq. lia.
Qed.

Lemma simple_create_returns_iff py N cpn positions st :
  is_Some (create_network py N cpn positions st)
  ↔ 0 < N ≤ length positions.
Proof.
  unfold create_network.
  destruct (Nat.eqb_spec (1000 `min` N) 0) as [Hz|Hnz].
  - split; [by intros []|lia].
  - rewrite batched_order_seq by lia. split.
    + intros Hsome. split; [lia|].
      destruct (Nat.le_gt_cases N (length positions)) as [|Hgt]; [done|].
      rewrite (simple_process_None _ _ _ _ (length positions)) in Hsome;
        [by destruct Hsome| |done].
      apply elem_of_seq. lia.
    + intros [_ Hle]. apply simple_process_returns.
      intros i Hi%elem_of_seq. lia.
Qed.

(** ** What the neighbour search returns *)

Lemma calculate_distance_sym p q :
  calculate_distance p q = calculate_distance q p.
Proof. unfold calculate_distance. simpl. f_equal. ring. Qed.

Lemma distances_from_nth node_pos positions j p :
  positions !! j = Some p →
  nth j (distances_from node_pos positions) 0%R = calculate_distance p node_pos.
Proof.
  intros Hj. unfold distances_from.
  rewrite nth_lookup, list_lookup_fmap, Hj. done.
Qed.

Lemma scan_candidates_admissible py positions node_idx node_pos others :
  positions !! node_idx = Some node_pos →
  ∀ j st candidates,
    (∀ k p, others !! k = Some p → positions !! (j + k) = Some p) →
    (∀ x, x ∈ candidates →
          admissible positions MAX_CONNECTION_DISTANCE node_idx x) →
    ∀ x, x ∈ (scan_candidates py node_idx node_pos j others st candidates).1 →
         admissible positions MAX_CONNECTION_DISTANCE node_idx x.
Proof.
  intros Hpos.
  induction others as [|other_pos rest IH]; intros j st candidates Hidx Hc;
    simpl; [done|].
  assert (∀ k p, rest !! k = Some p → positions !! (S j + k) = Some p)
    as Hrest.
  { intros k p Hk. replace (S j + k) with (j + S k) by lia. by apply Hidx. }
  destruct (decide (j ≠ node_idx)) as [Hj|]; [|by apply IH].
  destruct (decide _) as [Hnear|]; [|by apply IH].
  destruct (random_random py st) as [draw st1].
  destruct (decide _) as [Hsel|]; [|by apply IH].
  apply IH; [done|].
  intros x [?| ->%list_elem_of_singleton]%elem_of_app; [auto|].
  split; [done|]. exists node_pos, other_pos. split_and!; [done| |done].
  specialize (Hidx 0 other_pos eq_refl). by rewrite Nat.add_0_r in Hidx.
Qed.

Lemma find_geographical_neighbors_admissible py cpn node_idx positions st
    neighbors st' :
  sample_sound py →
  find_geographical_neighbors py cpn node_idx positions st
    = Some (neighbors, st') →
  ∀ x, x ∈ neighbors →
       admissible positions MAX_CONNECTION_DISTANCE node_idx x.
Proof.
  intros Hsample. unfold find_geographical_neighbors.
  destruct (positions !! node_idx) as [node_pos|] eqn:Hpos; [|done].
  pose proof (scan_candidates_admissible py positions node_idx node_pos
                positions Hpos 0 st []) as Hscan.
  destruct (scan_candidates py node_idx node_pos 0 positions st [])
    as [candidates st1].
  simpl in Hscan.
  assert (∀ x, x ∈ candidates →
               admissible positions MAX_CONNECTION_DISTANCE node_idx x) as Hc.
  { apply Hscan; [done|]. by intros x ?%elem_of_nil. }
  destruct (cpn <? length candidates).
  - intros [= Hs] x Hx. apply Hc.
    apply (Hsample st1 candidates cpn). by rewrite Hs.
  - by intros [= <- <-].
Qed.

Lemma find_geographical_neighbors_length py cpn node_idx positions st
    neighbors st' :
  sample_exact py →
  find_geographical_neighbors py cpn node_idx positions st
    = Some (neighbors, st') →
  length neighbors ≤ cpn.
Proof.
  intros Hexact. unfold find_geographical_neighbors.
  destruct (positions !! node_idx) as [node_pos|]; [|done].
  destruct (scan_candidates py node_idx node_pos 0 positions st [])
    as [candidates st1].
  destruct (Nat.ltb_spec cpn (length candidates)) as [Hlt|Hge].
  - intros [= Hs].
    pose proof (Hexact st1 candidates cpn ltac:(lia)) as Hlen.
    rewrite Hs in Hlen. simpl in Hlen. lia.
  - by intros [= <- <-].
Qed.

Lemma opt_find_geographical_neighbors_admissible gen np py node_idx positions
    st neighbors st' :
  sample_sound py →
  opt_find_geographical_neighbors gen np py node_idx positions st
    = Some (neighbors, st') →
  ∀ x, x ∈ neighbors → admissible positions (max_distance gen) node_idx x.
Proof.
  intros Hsample. unfold opt_find_geographical_neighbors.
  destruct (positions !! node_idx) as [node_pos|] eqn:Hpos; [|done].
  set (nearby := filter (λ j, j ≠ node_idx) _).
  assert (∀ x, x ∈ nearby →
               admissible positions (max_distance gen) node_idx x) as Hnearby.
  { intros x [Hne [Hdist Hx%elem_of_seq]%list_elem_of_filter]%list_elem_of_filter.
    split; [done|].
    destruct (lookup_lt_is_Some_2 positions x) as [px Hpx]; [lia|].
    exists node_pos, px. split_and!; [done..|].
    rewrite (distances_from_nth _ _ _ _ Hpx) in Hdist.
    by rewrite calculate_distance_sym. }
  assert (∀ candidates sampled py_st,
            (∀ x, x ∈ candidates →
                  admissible positions (max_distance gen) node_idx x) →
            random_sample py st.2 candidates (connections_per_node gen)
              = (sampled, py_st) →
            ∀ x, x ∈ sampled →
                 admissible positions (max_distance gen) node_idx x)
    as Hsampled.
  { intros candidates sampled py_st Hc Hs x Hx. apply Hc.
    apply (Hsample st.2 candidates (connections_per_node gen)).
    by rewrite Hs. }
  destruct (0 <? length nearby).
  - destruct (np_random_random np (length nearby) st.1) as [draws np_st].
    set (candidates := select_masked nearby _).
    assert (∀ x, x ∈ candidates →
                 admissible positions (max_distance gen) node_idx x) as Hc.
    { intros x Hx. apply Hnearby. by eapply select_masked_subset. }
    destruct (connections_per_node gen <? length candidates).
    + destruct (random_sample py st.2 candidates (connections_per_node gen))
        as [sampled py_st] eqn:Hs.
      intros [= <- <-]. by eapply Hsampled.
    + by intros [= <- <-].
  - replace (connections_per_node gen <? length (A := nat) []) with false
      by (symmetry; apply Nat.ltb_ge; simpl; lia).
    intros [= <- <-] x ?%elem_of_nil. done.
Qed.

Lemma opt_find_geographical_neighbors_length gen np py node_idx positions
    st neighbors st' :
  sample_exact py →
  opt_find_geographical_neighbors gen np py node_idx positions st
    = Some (neighbors, st') →
  length neighbors ≤ connections_per_node gen.
Proof.
  intros Hexact. unfold opt_find_geographical_neighbors.
  destruct (positions !! node_idx) as [node_pos|]; [|done].
  set (nearby := filter (λ j, j ≠ node_idx) _).
  destruct (0 <? length nearby).
  - destruct (np_random_random np (length nearby) st.1) as [draws np_st].
    set (candidates := select_masked nearby _).
    destruct (Nat.ltb_spec (connections_per_node gen) (length candidates))
      as [Hlt|Hge].
    + pose proof (Hexact st.2 candidates (connections_per_node gen)
                    ltac:(lia)) as Hlen.
      destruct (random_sample py st.2 candidates (connections_per_node gen))
        as [sampled py_st].
      intros [= <- <-]. simpl in Hlen. lia.
    + by intros [= <- <-].
  - replace (connections_per_node gen <? length (A := nat) []) with false
      by (symmetry; apply Nat.ltb_ge; simpl; lia).
    intros [= <- <-]. simpl. lia.
Qed.

(** *** No index is returned twice *)

Lemma scan_candidates_NoDup py node_idx node_pos others :
  ∀ j st candidates,
    NoDup candidates → (∀ x, x ∈ candidates → x < j) →
    NoDup (scan_candidates py node_idx node_pos j others st candidates).1.
Proof.
  induction others as [|other_pos rest IH]; intros j st candidates Hnd Hlt;
    simpl; [done|].
  assert (∀ x, x ∈ candidates → x < S j) as Hlt'.
  { intros x Hx. specialize (Hlt x Hx). lia. }
  destruct (decide (j ≠ node_idx)) as [Hj|]; [|by apply IH].
  destruct (decide _) as [Hnear|]; [|by apply IH].
  destruct (random_random py st) as [draw st1].
  destruct (decide _) as [Hsel|]; [|by apply IH].
  apply IH.
  - apply NoDup_app. split_and!; [done| |apply NoDup_singleton].
    intros x Hx ->%list_elem_of_singleton. specialize (Hlt j Hx). lia.
  - intros x [?| ->%list_elem_of_singleton]%elem_of_app; [auto|lia].
Qed.

Lemma select_masked_NoDup indices : ∀ mask,
  NoDup indices → NoDup (select_masked indices mask).
Proof.
  induction indices as [|i indices IH]; intros [|b mask]; simpl;
    try (intros; apply NoDup_nil_2).
  intros [Hi Hnd]%NoDup_cons. destruct b; [|by apply IH].
  apply NoDup_cons. split; [|by apply IH].
  intros Hin%select_masked_subset. done.
Qed.

Lemma find_geographical_neighbors_NoDup py cpn node_idx positions st
    neighbors st' :
  sample_distinct py →
  find_geographical_neighbors py cpn node_idx positions st
    = Some (neighbors, st') →
  NoDup neighbors.
Proof.
  intros Hdistinct. unfold find_geographical_neighbors.
  destruct (positions !! node_idx) as [node_pos|]; [|done].
  pose proof (scan_candidates_NoDup py node_idx node_pos positions 0 st [])
    as Hscan.
  destruct (scan_candidates py node_idx node_pos 0 positions st [])
    as [candidates st1].
  simpl in Hscan.
  assert (NoDup candidates) as Hnd.
  { apply Hscan; [apply NoDup_nil_2|]. by intros x ?%elem_of_nil. }
  destruct (cpn <? length candidates).
  - intros [= Hs]. pose proof (Hdistinct st1 candidates cpn Hnd) as Hsampled.
    by rewrite Hs in Hsampled.
  - by intros [= <- <-].
Qed.

Lemma opt_find_geographical_neighbors_NoDup gen np py node_idx positions
    st neighbors st' :
  sample_distinct py →
  opt_find_geographical_neighbors gen np py node_idx positions st
    = Some (neighbors, st') →
  NoDup neighbors.
Proof.
  intros Hdistinct. unfold opt_find_geographical_neighbors.
  destruct (positions !! node_idx) as [node_pos|]; [|done].
  set (nearby := filter (λ j, j ≠ node_idx) _).
  assert (NoDup nearby) as Hnearby.
  { apply NoDup_filter, NoDup_filter, NoDup_seq. }
  destruct (0 <? length nearby).
  - destruct (np_random_random np (length nearby) st.1) as [draws np_st].
    set (candidates := select_masked nearby _).
    assert (NoDup candidates) as Hnd by by apply select_masked_NoDup.
    destruct (connections_per_node gen <? length candidates).
    + pose proof (Hdistinct st.2 candidates (connections_per_node gen) Hnd)
        as Hsampled.
      destruct (random_sample py st.2 candidates (connections_per_node gen))
        as [sampled py_st].
      by intros [= <- <-].
    + by intros [= <- <-].
  - replace (connections_per_node gen <? length (A := nat) []) with false
      by (symmetry; apply Nat.ltb_ge; simpl; lia).
    intros [= <- <-]. apply NoDup_nil_2.
Qed.

Lemma admissible_neighbor positions d node_idx x :
  admissible positions d node_idx x → x ≠ node_idx ∧ x < length positions.
Proof.
  intros (Hne & p & px & _ & Hpx & _). split; [done|].
  by apply lookup_lt_Some in Hpx.
Qed.

(** The neighbour search of either builder returns at most
    [connections_per_node] candidates; no index is returned twice, none is
    the node itself, and each is the index of a position.  What is needed
    of [random.sample] is that it returns [k] members of the population,
    picked at distinct places. *)
Theorem neighbor_search_contract
    (gen : Generator) (np : NpRandom) (py : PyRandom) (node_idx : nat)
    (positions : list position) (st : np_state np * py_state py)
    (neighbors neighbors' : list nat)
    (st1 : np_state np * py_state py) (st2 : py_state py) :
  sample_sound py → sample_exact py → sample_distinct py →
  opt_find_geographical_neighbors gen np py node_idx positions st
    = Some (neighbors, st1) →
  find_geographical_neighbors py (connections_per_node gen) node_idx
    positions st.2 = Some (neighbors', st2) →
  (length neighbors ≤ connections_per_node gen ∧
   NoDup neighbors ∧
   ∀ x, x ∈ neighbors → x ≠ node_idx ∧ x < length positions) ∧
  (length neighbors' ≤ connections_per_node gen ∧
   NoDup neighbors' ∧
   ∀ x, x ∈ neighbors' → x ≠ node_idx ∧ x < length positions).
Proof.
  intros Hsound Hexact Hdistinct Hopt Hsimple.
  split; (split; [|split]).
  - by eapply opt_find_geographical_neighbors_length.
  - by eapply opt_find_geographical_neighbors_NoDup.
  - intros x Hx. eapply admissible_neighbor.
    by eapply opt_find_geographical_neighbors_admissible.
  - by eapply find_geographical_neighbors_length.
  - by eapply find_geographical_neighbors_NoDup.
  - intros x Hx. eapply admissible_neighbor.
    by eapply find_geographical_neighbors_admissible.
Qed.

(** ** Evaluating the scan of the standard-library script *)

Lemma scan_candidates_self py node_idx node_pos other_pos rest st candidates :
  scan_candidates py node_idx node_pos node_idx (other_pos :: rest) st
    candidates
  = scan_candidates py node_idx node_pos (S node_idx) rest st candidates.
Proof. simpl. by rewrite decide_False by (intros ?; done). Qed.

Lemma scan_candidates_far py node_idx node_pos j other_pos rest st candidates :
  j ≠ node_idx →
  (MAX_CONNECTION_DISTANCE < calculate_distance node_pos other_pos)%R →
  scan_candidates py node_idx node_pos j (other_pos :: rest) st candidates
  = scan_candidates py node_idx node_pos (S j) rest st candidates.
Proof.
  intros Hj Hfar. simpl. rewrite decide_True by done.
  by rewrite decide_False by lra.
Qed.

Lemma scan_candidates_near py node_idx node_pos j other_pos rest st candidates :
  j ≠ node_idx →
  (calculate_distance node_pos other_pos <= MAX_CONNECTION_DISTANCE)%R →
  scan_candidates py node_idx node_pos j (other_pos :: rest) st candidates
  = scan_candidates py node_idx node_pos (S j) rest (random_random py st).2
      (if decide ((random_random py st).1
                  < connection_probability MAX_CONNECTION_DISTANCE
                      DISTANCE_WEIGHT
                      (calculate_distance node_pos other_pos))%R
       then candidates ++ [j] else candidates).
Proof.
  intros Hj Hnear. simpl. rewrite !decide_True by done.
  destruct (random_random py st) as [draw st1]. simpl.
  by destruct (decide _).
Qed.

Lemma axis_distance (a b c : R) :
  (0 <= c)%R → (c * c = (a - b) * (a - b))%R →
  calculate_distance (a, 0%R) (b, 0%R) = c.
Proof.
  intros Hc Hsq. unfold calculate_distance. simpl.
  apply sqrt_lem_1; [nra|done|lra].
Qed.

Lemma connection_probability_positive m w d :
  (0 < m)%R → (0 <= d < m)%R → (0 < connection_probability m w d)%R.
Proof.
  intros Hm Hd. unfold connection_probability.
  pose proof (ratio_below d m Hm ltac:(lra)).
  rewrite power_positive_base by lra. apply exp_pos.
Qed.

(** Node 2 of [line3] with a first draw of 0: node 0 is too far, node 1
    is near and selected. *)
Lemma line3_simple_neighbors_2 :
  find_geographical_neighbors replay_py 2 2 line3 [0%R] = Some ([1], []).
Proof.
  unfold find_geographical_neighbors, line3.
  cbn [lookup list_lookup].
  rewrite scan_candidates_far;
    [|done|rewrite (axis_distance _ _ (3 / 4)); unfold MAX_CONNECTION_DISTANCE; lra].
  assert (calculate_distance (3 / 4, 0) (1 / 2, 0) = 1 / 4)%R as Hd
    by (apply axis_distance; lra).
  rewrite scan_candidates_near;
    [|done|rewrite Hd; unfold MAX_CONNECTION_DISTANCE; lra].
  rewrite scan_candidates_self.
  rewrite Hd. cbn [replay_py random_random replay fst snd].
  rewrite decide_True.
  - reflexivity.
  - apply connection_probability_positive;
      unfold MAX_CONNECTION_DISTANCE; lra.
Qed.

Lemma line3_opt_neighbors_2 :
  opt_find_geographical_neighbors gen3 replay_np replay_py 2 line3
    ([9 / 10; 7 / 10]%R, [0%R])
  = Some ([1], ([], [0%R])).
Proof.
  rewrite line3_neighbors_2.
  rewrite bool_decide_eq_false_2, bool_decide_eq_true_2 by lra. done.
Qed.

Lemma replay_py_sample_exact : sample_exact replay_py.
Proof.
  intros st population k Hk. simpl. rewrite length_take. lia.
Qed.

Lemma replay_py_sample_distinct : sample_distinct replay_py.
Proof.
  intros st population k Hnd. simpl.
  pose proof (sublist_take population k) as Hsub.
  eauto using sublist_NoDup.
Qed.

Lemma neighbor_search_contract_witness :
  (length [1] ≤ connections_per_node gen3 ∧
   NoDup [1] ∧
   ∀ x, x ∈ [1] → x ≠ 2 ∧ x < length line3) ∧
  (length [1] ≤ connections_per_node gen3 ∧
   NoDup [1] ∧
   ∀ x, x ∈ [1] → x ≠ 2 ∧ x < length line3).
Proof.
  apply (neighbor_search_contract gen3 replay_np replay_py 2 line3
           ([9 / 10; 7 / 10]%R, [0%R]) [1] [1] ([], [0%R]) []).
  - apply replay_py_sample_sound.
  - apply replay_py_sample_exact.
  - apply replay_py_sample_distinct.
  - apply line3_opt_neighbors_2.
  - apply line3_simple_neighbors_2.
Defined.

(** ** What an insertion adds *)

Lemma elem_of_dict_set keys k x : x ∈ dict_set keys k ↔ x ∈ keys ∨ x = k.
Proof.
  unfold dict_set. destruct (decide (k ∈ keys)).
  - split; [by left|]. by intros [?| ->].
  - by rewrite elem_of_app, list_elem_of_singleton.
Qed.

Lemma connect_elem G i neighbor u v :
  v ∈ network_get (connect G i neighbor) u →
  v ∈ network_get G u ∨ (u = i ∧ v = neighbor) ∨ (u = neighbor ∧ v = i).
Proof.
  unfold connect. destruct (decide _) as [|Hnin].
  { rewrite network_get_touch. by left. }
  rewrite !network_get_append_to, !network_get_touch.
  repeat case_decide; subst;
    rewrite ?elem_of_app, ?list_elem_of_singleton; naive_solver.
Qed.

Lemma nx_add_edge_elem G u0 v0 u v :
  v ∈ network_get (nx_add_edge G u0 v0) u →
  v ∈ network_get G u ∨ (u = u0 ∧ v = v0) ∨ (u = v0 ∧ v = u0).
Proof.
  unfold nx_add_edge.
  rewrite !network_get_insert, !network_get_add_node.
  repeat case_decide; subst; rewrite ?elem_of_dict_set; naive_solver.
Qed.

Lemma dom_touch G i : dom (touch G i) = {[i]} ∪ dom G.
Proof. unfold touch. by rewrite dom_insert_L. Qed.

Lemma dom_append_to G i x : dom (append_to G i x) = {[i]} ∪ dom G.
Proof. unfold append_to. by rewrite dom_insert_L. Qed.

Lemma dom_connect G i neighbor :
  dom G ⊆ dom (connect G i neighbor) ∧
  dom (connect G i neighbor) ⊆ {[i; neighbor]} ∪ dom G.
Proof.
  unfold connect. destruct (decide _).
  - rewrite dom_touch. set_solver.
  - rewrite !dom_append_to, dom_touch. set_solver.
Qed.

Lemma dom_nx_add_node G n : dom (nx_add_node G n) = {[n]} ∪ dom G.
Proof.
  unfold nx_add_node. destruct (G !! n) as [l|] eqn:Hn.
  - assert (n ∈ dom G) by (apply elem_of_dom; eauto). set_solver.
  - by rewrite dom_insert_L.
Qed.

Lemma dom_nx_add_edge G u v : dom (nx_add_edge G u v) = {[u; v]} ∪ dom G.
Proof.
  unfold nx_add_edge. rewrite !dom_insert_L, !dom_nx_add_node. set_solver.
Qed.

Lemma dom_nx_add_nodes_from nodes : ∀ G,
  dom (nx_add_nodes_from G nodes) = list_to_set nodes ∪ dom G.
Proof.
  unfold nx_add_nodes_from.
  induction nodes as [|n ns IH]; intros G; simpl; [set_solver|].
  rewrite IH, dom_nx_add_node. set_solver.
Qed.

(** ** Invariants of the node loops *)

Lemma connect_all_invariant (E : nat → nat → Prop) (nodes : gset nat)
    i neighbors : ∀ G,
  i ∈ nodes → (∀ x, x ∈ neighbors → x ∈ nodes ∧ E i x ∧ E x i) →
  edges_satisfy E G → dom G ⊆ nodes →
  let G' := foldl (λ network neighbor, connect network i neighbor)
                  G neighbors in
  edges_satisfy E G' ∧ dom G' ⊆ nodes.
Proof.
  induction neighbors as [|n ns IH]; intros G Hi Hn HE Hdom; simpl; [done|].
  destruct (Hn n) as (Hnn & Hin & Hni); [left|].
  apply IH; [done| | |].
  - intros x Hx. apply Hn. by right.
  - intros u v [?|[[-> ->]|[-> ->]]]%connect_elem; auto.
  - pose proof (dom_connect G i n) as [_ Hsub]. set_solver.
Qed.

Lemma add_connections_invariant (E : nat → nat → Prop) (nodes : gset nat)
    node_idx neighbors : ∀ G,
  node_idx ∈ nodes →
  (∀ x, x ∈ neighbors → x ∈ nodes ∧ E node_idx x ∧ E x node_idx) →
  edges_satisfy E G → nodes ⊆ dom G → dom G ⊆ nodes →
  let G' := add_connections G node_idx neighbors in
  edges_satisfy E G' ∧ dom G' = dom G.
Proof.
  unfold add_connections.
  induction neighbors as [|n ns IH]; intros G Hi Hn HE Hsup Hsub; simpl;
    [done|].
  destruct (Hn n) as (Hnn & Hin & Hni); [left|].
  assert (∀ x, x ∈ ns → x ∈ nodes ∧ E node_idx x ∧ E x node_idx) as Hns.
  { intros x Hx. apply Hn. by right. }
  destruct (nx_has_edge G node_idx n); [by apply IH|].
  assert (dom (nx_add_edge G node_idx n) = dom G) as Hdom.
  { rewrite dom_nx_add_edge. set_solver. }
  destruct (IH (nx_add_edge G node_idx n)) as [HE' Hdom']; [done..| | | |].
  - intros u v [?|[[-> ->]|[-> ->]]]%nx_add_edge_elem; auto.
  - by rewrite Hdom.
  - by rewrite Hdom.
  - split; [done|]. by rewrite Hdom', Hdom.
Qed.

Lemma admissible_index positions d i x :
  admissible positions d i x →
  i ∈ node_range (length positions) ∧ x ∈ node_range (length positions).
Proof.
  intros (_ & p & px & Hp & Hpx & _).
  apply lookup_lt_Some in Hp, Hpx.
  unfold node_range. rewrite !elem_of_set_seq. lia.
Qed.

Lemma simple_process_invariant (E : nat → nat → Prop) py cpn positions order :
  sample_sound py →
  (∀ i x, admissible positions MAX_CONNECTION_DISTANCE i x → E i x ∧ E x i) →
  ∀ network st network' st',
    edges_satisfy E network →
    dom network ⊆ node_range (length positions) →
    simple_process py cpn positions order network st = Some (network', st') →
    edges_satisfy E network' ∧ dom network' ⊆ node_range (length positions).
Proof.
  intros Hsample HE.
  induction order as [|i rest IH]; intros network st network' st' Hinv Hdom;
    simpl.
  - by intros [= <- <-].
  - destruct (find_geographical_neighbors py cpn i positions st)
      as [[neighbors st1]|] eqn:Hfind; [|done].
    pose proof (find_geographical_neighbors_admissible _ _ _ _ _ _ _
                  Hsample Hfind) as Hadm.
    assert (i ∈ node_range (length positions)) as Hi.
    { unfold find_geographical_neighbors in Hfind.
      destruct (positions !! i) eqn:Hp; [|done].
      apply lookup_lt_Some in Hp. apply elem_of_set_seq. lia. }
    destruct (connect_all_invariant E (node_range (length positions))
                i neighbors network) as [HE' Hdom']; [done| |done..|].
    { intros x Hx. specialize (Hadm x Hx).
      split; [by apply admissible_index in Hadm as [_ ?]|by apply HE]. }
    by apply IH.
Qed.

Lemma opt_process_invariant (E : nat → nat → Prop) gen np py positions order :
  sample_sound py →
  (∀ i x, admissible positions (max_distance gen) i x → E i x ∧ E x i) →
  ∀ G st G' st',
    edges_satisfy E G →
    dom G = node_range (length positions) →
    opt_process gen np py positions order G st = Some (G', st') →
    edges_satisfy E G' ∧ dom G' = node_range (length positions).
Proof.
  intros Hsample HE.
  induction order as [|i rest IH]; intros G st G' st' Hinv Hdom; simpl.
  - by intros [= <- <-].
  - destruct (opt_find_geographical_neighbors gen np py i positions st)
      as [[neighbors st1]|] eqn:Hfind; [|done].
    pose proof (opt_find_geographical_neighbors_admissible _ _ _ _ _ _ _ _
                  Hsample Hfind) as Hadm.
    assert (i ∈ node_range (length positions)) as Hi.
    { unfold opt_find_geographical_neighbors in Hfind.
      destruct (positions !! i) eqn:Hp; [|done].
      apply lookup_lt_Some in Hp. apply elem_of_set_seq. lia. }
    destruct (add_connections_invariant E (node_range (length positions))
                i neighbors G) as [HE' Hdom']; [done| |done|by rewrite Hdom..|].
    { intros x Hx. specialize (Hadm x Hx).
      split; [by apply admissible_index in Hadm as [_ ?]|by apply HE]. }
    apply IH; [done|]. by rewrite Hdom'.
Qed.

Lemma edges_satisfy_no_edges E (G : adjacency) :
  (∀ u, network_get G u = []) → edges_satisfy E G.
Proof. intros Hnil u v. rewrite Hnil. by intros ?%elem_of_nil. Qed.

Lemma initial_graph_dom N : dom (nx_add_nodes_from ∅ (seq 0 N)) = node_range N.
Proof.
  rewrite dom_nx_add_nodes_from, dom_empty_L. unfold node_range.
  apply set_eq. intros x.
  rewrite elem_of_union, elem_of_list_to_set, elem_of_seq, elem_of_set_seq.
  set_solver.
Qed.

(** Runs of the two builders on positions for exactly N nodes. *)
Lemma opt_create_invariant (E : nat → nat → Prop) gen np py positions st G st' :
  sample_sound py → length positions = total_nodes gen →
  (∀ i x, admissible positions (max_distance gen) i x → E i x ∧ E x i) →
  create_geographical_network_optimized gen np py positions st
    = Some (G, st') →
  edges_satisfy E G ∧ dom G = node_range (total_nodes gen).
Proof.
  intros Hsample Hlen HE.
  unfold create_geographical_network_optimized, create_with_batch_size.
  intros Hrun. rewrite <- Hlen.
  eapply opt_process_invariant; [done|done| | |exact Hrun].
  - apply edges_satisfy_no_edges. intros u.
    by rewrite network_get_add_nodes_from, network_get_empty.
  - by rewrite initial_graph_dom, Hlen.
Qed.

Lemma simple_create_invariant (E : nat → nat → Prop) py N cpn positions st
    network st' :
  sample_sound py → length positions = N →
  (∀ i x, admissible positions MAX_CONNECTION_DISTANCE i x → E i x ∧ E x i) →
  create_network py N cpn positions st = Some (network, st') →
  edges_satisfy E network ∧ dom network ⊆ node_range N.
Proof.
  intros Hsample Hlen HE. unfold create_network.
  destruct (_ =? 0); [done|]. intros Hrun. rewrite <- Hlen.
  eapply simple_process_invariant; [done|done| | |exact Hrun].
  - apply edges_satisfy_no_edges, network_get_empty.
  - set_solver.
Qed.

(** ** The standard-library builder on [line3] *)

Lemma line3_simple_neighbors_0 st :
  find_geographical_neighbors replay_py 2 0 line3 st = Some ([], st).
Proof.
  unfold find_geographical_neighbors, line3. cbn [lookup list_lookup].
  rewrite scan_candidates_self.
  rewrite scan_candidates_far;
    [|done|rewrite (axis_distance _ _ (1 / 2)); unfold MAX_CONNECTION_DISTANCE; lra].
  rewrite scan_candidates_far;
    [|done|rewrite (axis_distance _ _ (3 / 4)); unfold MAX_CONNECTION_DISTANCE; lra].
  reflexivity.
Qed.

Lemma line3_simple_neighbors_1 rest :
  find_geographical_neighbors replay_py 2 1 line3 (0%R :: rest)
    = Some ([2], rest).
Proof.
  unfold find_geographical_neighbors, line3. cbn [lookup list_lookup].
  rewrite scan_candidates_far;
    [|done|rewrite (axis_distance _ _ (1 / 2)); unfold MAX_CONNECTION_DISTANCE; lra].
  rewrite scan_candidates_self.
  assert (calculate_distance (1 / 2, 0) (3 / 4, 0) = 1 / 4)%R as Hd
    by (apply axis_distance; lra).
  rewrite scan_candidates_near;
    [|done|rewrite Hd; unfold MAX_CONNECTION_DISTANCE; lra].
  rewrite Hd. cbn [replay_py random_random replay fst snd].
  rewrite decide_True.
  - reflexivity.
  - apply connection_probability_positive;
      unfold MAX_CONNECTION_DISTANCE; lra.
Qed.

Lemma line3_simple_neighbors_2' rest :
  find_geographical_neighbors replay_py 2 2 line3 (0%R :: rest)
    = Some ([1], rest).
Proof.
  unfold find_geographical_neighbors, line3. cbn [lookup list_lookup].
  rewrite scan_candidates_far;
    [|done|rewrite (axis_distance _ _ (3 / 4)); unfold MAX_CONNECTION_DISTANCE; lra].
  assert (calculate_distance (3 / 4, 0) (1 / 2, 0) = 1 / 4)%R as Hd
    by (apply axis_distance; lra).
  rewrite scan_candidates_near;
    [|done|rewrite Hd; unfold MAX_CONNECTION_DISTANCE; lra].
  rewrite scan_candidates_self.
  rewrite Hd. cbn [replay_py random_random replay fst snd].
  rewrite decide_True.
  - reflexivity.
  - apply connection_probability_positive;
      unfold MAX_CONNECTION_DISTANCE; lra.
Qed.

Lemma line3_simple_create :
  create_network replay_py 3 2 line3 [0%R; 0%R]
    = Some (connect (connect ∅ 1 2) 2 1, []).
Proof.
  unfold create_network. cbn [Nat.min Nat.eqb].
  rewrite batched_order_seq by lia. cbn [seq simple_process].
  rewrite line3_simple_neighbors_0, line3_simple_neighbors_1,
    line3_simple_neighbors_2'. reflexivity.
Qed.

Lemma line3_opt_create :
  create_geographical_network_optimized gen3 replay_np replay_py line3
    (draws6, [0%R; 0%R])
  = Some (add_connections (nx_add_nodes_from ∅ (seq 0 3)) 2 [1],
          ([], [0%R; 0%R])).
Proof.
  unfold create_geographical_network_optimized, create_with_batch_size.
  rewrite batched_order_seq by (unfold BATCH_SIZE; lia).
  unfold draws6. cbn [seq total_nodes gen3 opt_process].
  rewrite line3_neighbors_0, !bool_decide_eq_false_2 by lra.
  cbn [select_masked].
  rewrite line3_neighbors_1, !bool_decide_eq_false_2 by lra.
  cbn [select_masked].
  rewrite line3_neighbors_2, bool_decide_eq_false_2, bool_decide_eq_true_2
    by lra.
  reflexivity.
Qed.

(** ** The generated graphs *)

(** A generated graph is a valid input of the simulators: the networkx
    graph has exactly the nodes 0 .. N-1 and lists only nodes as
    neighbours, so that propagation from node 0 returns without raising;
    the keys and neighbours of the standard-library network are all below
    N. *)
Theorem generated_graph_feeds_simulator
    (gen : Generator) (np : NpRandom) (py : PyRandom)
    (positions : list position) (st : np_state np * py_state py)
    (G : adjacency) (st1 : np_state np * py_state py)
    (network : adjacency) (st2 : py_state py) :
  sample_sound py → 0 < total_nodes gen →
  length positions = total_nodes gen →
  create_geographical_network_optimized gen np py positions st
    = Some (G, st1) →
  create_network py (total_nodes gen) (connections_per_node gen)
    positions st.2 = Some (network, st2) →
  (dom G = node_range (total_nodes gen) ∧ size G = total_nodes gen ∧
   nx_closed G ∧
   ∃ steps, message_simulate_propagation G 0 = Returned (steps, false)) ∧
  (dom network ⊆ node_range (total_nodes gen) ∧
   simple_closed (total_nodes gen) network).
Proof.
  intros Hsample HN Hlen Hopt Hsimple.
  assert (∀ d i x, admissible positions d i x →
            x ∈ node_range (total_nodes gen) ∧
            i ∈ node_range (total_nodes gen)) as HE.
  { intros d i x Hadm. apply admissible_index in Hadm as [? ?].
    by rewrite <- Hlen. }
  destruct (opt_create_invariant (λ _ v, v ∈ node_range (total_nodes gen))
              _ _ _ _ _ _ _ Hsample Hlen (HE (max_distance gen)) Hopt)
    as [Hedges Hdom].
  destruct (simple_create_invariant
              (λ _ v, v ∈ node_range (total_nodes gen))
              _ _ _ _ _ _ _ Hsample Hlen (HE MAX_CONNECTION_DISTANCE) Hsimple)
    as [Hedges' Hdom'].
  assert (nx_closed G) as Hcl.
  { intros u v Hv. rewrite Hdom. by apply (Hedges u). }
  split_and!; [done| |done| |done|].
  - by rewrite <- size_dom, Hdom, size_node_range.
  - apply message_simulate_returns; [done|].
    rewrite Hdom. apply elem_of_set_seq. lia.
  - intros u v _ Hv. specialize (Hedges' u v Hv).
    apply elem_of_set_seq in Hedges'. lia.
Qed.

Lemma generated_graph_feeds_simulator_witness :
  (dom (add_connections (nx_add_nodes_from ∅ (seq 0 3)) 2 [1])
     = node_range (total_nodes gen3) ∧
   size (add_connections (nx_add_nodes_from ∅ (seq 0 3)) 2 [1])
     = total_nodes gen3 ∧
   nx_closed (add_connections (nx_add_nodes_from ∅ (seq 0 3)) 2 [1]) ∧
   ∃ steps,
     message_simulate_propagation
       (add_connections (nx_add_nodes_from ∅ (seq 0 3)) 2 [1]) 0
     = Returned (steps, false)) ∧
  (dom (connect (connect ∅ 1 2) 2 1) ⊆ node_range (total_nodes gen3) ∧
   simple_closed (total_nodes gen3) (connect (connect ∅ 1 2) 2 1)).
Proof.
  apply (generated_graph_feeds_simulator gen3 replay_np replay_py line3
           (draws6, [0%R; 0%R]) _ ([], [0%R; 0%R]) _ []).
  - apply replay_py_sample_sound.
  - simpl. lia.
  - reflexivity.
  - apply line3_opt_create.
  - apply line3_simple_create.
Defined.

(** The positions drawn for N nodes are exactly N points, inside the unit
    square when the generator's doubles are in [0, 1), and the builder
    run on them returns a graph (for the standard-library script when
    N > 0). *)
Theorem generated_positions_fit
    (gen : Generator) (np : NpRandom) (py : PyRandom)
    (st : np_state np * py_state py) :
  0 < total_nodes gen →
  np_unit_interval np → py_unit_interval py →
  let opt_positions := opt_generate_positions gen np st.1 in
  let positions := generate_positions py (total_nodes gen) st.2 in
  (length opt_positions.1 = total_nodes gen ∧
   Forall in_unit_square opt_positions.1 ∧
   is_Some (create_geographical_network_optimized gen np py
              opt_positions.1 (opt_positions.2, st.2))) ∧
  (length positions.1 = total_nodes gen ∧
   Forall in_unit_square positions.1 ∧
   is_Some (create_network py (total_nodes gen) (connections_per_node gen)
              positions.1 positions.2)).
Proof.
  intros HN Hnp Hpy. simpl. split_and!.
  - apply opt_generate_positions_length.
  - by apply opt_generate_positions_unit.
  - apply opt_create_returns_iff.
    by rewrite opt_generate_positions_length.
  - apply generate_positions_length.
  - by apply generate_positions_unit.
  - apply simple_create_returns_iff.
    rewrite generate_positions_length. lia.
Qed.

Lemma generated_positions_fit_witness :
  (length (opt_generate_positions gen3 half_np ()).1 = total_nodes gen3 ∧
   Forall in_unit_square (opt_generate_positions gen3 half_np ()).1 ∧
   is_Some (create_geographical_network_optimized gen3 half_np half_py
              (opt_generate_positions gen3 half_np ()).1
              ((opt_generate_positions gen3 half_np ()).2, ()))) ∧
  (length (generate_positions half_py (total_nodes gen3) ()).1
     = total_nodes gen3 ∧
   Forall in_unit_square (generate_positions half_py (total_nodes gen3) ()).1 ∧
   is_Some (create_network half_py (total_nodes gen3)
              (connections_per_node gen3)
              (generate_positions half_py (total_nodes gen3) ()).1
              (generate_positions half_py (total_nodes gen3) ()).2)).
Proof.
  apply (generated_positions_fit gen3 half_np half_py ((), ())).
  - simpl. lia.
  - intros st. simpl. lra.
  - intros st. simpl. lra.
Defined.

(** * The builders on integer counts *)

(** ** [range] on integers *)

Lemma int_range_from_empty fuel start stop step :
  (0 < step)%Z → (stop ≤ start)%Z →
  int_range_from fuel start stop step = [].
Proof.
  intros Hstep Hstop. destruct fuel as [|fuel]; simpl; [done|].
  destruct (Z.ltb_spec 0 step); [|lia].
  by destruct (Z.ltb_spec start stop); [lia|].
Qed.

Lemma int_range_from_step_one fuel : ∀ s e : nat,
  e - s ≤ fuel →
  int_range_from fuel (Z.of_nat s) (Z.of_nat e) 1 = Z.of_nat <$> seq s (e - s).
Proof.
  induction fuel as [|fuel IH]; intros s e Hfuel; simpl.
  - by replace (e - s) with 0 by lia.
  - destruct (Z.ltb_spec (Z.of_nat s) (Z.of_nat e)) as [Hlt|Hge].
    + replace (Z.of_nat s + 1)%Z with (Z.of_nat (S s)) by lia.
      rewrite IH by lia.
      by replace (e - s) with (S (e - S s)) by lia.
    + by replace (e - s) with 0 by lia.
Qed.

Lemma int_range_step_one (s e : nat) :
  int_range (Z.of_nat s) (Z.of_nat e) 1 = Some (Z.of_nat <$> seq s (e - s)).
Proof.
  unfold int_range. simpl. f_equal. apply int_range_from_step_one. lia.
Qed.

Lemma int_range_from_nat fuel : ∀ s e b : nat,
  0 < b →
  int_range_from fuel (Z.of_nat s) (Z.of_nat e) (Z.of_nat b)
  = Z.of_nat <$> range_step fuel s e b.
Proof.
  induction fuel as [|fuel IH]; intros s e b Hb; simpl; [done|].
  destruct (Z.ltb_spec 0 (Z.of_nat b)); [|lia].
  destruct (Z.ltb_spec (Z.of_nat s) (Z.of_nat e)), (Nat.ltb_spec s e);
    try lia; [|done].
  by rewrite <- Nat2Z.inj_add, IH.
Qed.

Lemma int_range_zero_nat (N B : nat) :
  0 < B →
  int_range 0 (Z.of_nat N) (Z.of_nat B) = Some (Z.of_nat <$> py_range 0 N B).
Proof.
  intros HB. unfold int_range, py_range.
  destruct (Z.eqb_spec (Z.of_nat B) 0) as [|_]; [lia|].
  replace (Z.to_nat (Z.abs (Z.of_nat N - 0))) with (N - 0) by lia.
  by rewrite <- int_range_from_nat.
Qed.

Lemma to_nat_of_nat_list (l : list nat) : Z.to_nat <$> (Z.of_nat <$> l) = l.
Proof.
  induction l as [|x l IH]; [done|].
  by rewrite !fmap_cons, Nat2Z.id, IH.
Qed.

(** ** The order of the two nested loops *)

(** On natural counts with a positive batch size the integer loops visit
    the nodes of [batched_order]. *)
Lemma int_batched_order_nat (N B : nat) :
  0 < B →
  int_batched_order (Z.of_nat N) (Z.of_nat B)
  = Some (Z.of_nat <$> batched_order N B).
Proof.
  intros HB. unfold int_batched_order, batched_order.
  rewrite int_range_zero_nat by done. f_equal.
  generalize (py_range 0 N B). intros batch_starts.
  induction batch_starts as [|batch_start rest IH]; [done|].
  rewrite fmap_cons. cbn [flat_map]. rewrite fmap_app, IH. f_equal.
  cbv zeta. rewrite <- Nat2Z.inj_add, <- Nat2Z.inj_min.
  by rewrite int_range_step_one.
Qed.

(** A negative node count with the batch size of the standard-library
    script: [range(0, n, n)] is the single batch 0, whose [batch_end] is
    [n], and [range(0, n)] is empty. *)
Lemma int_batched_order_negative (n : Z) :
  (n < 0)%Z → int_batched_order n (Z.min 1000 n) = Some [].
Proof.
  intros Hn. rewrite Z.min_r by lia.
  unfold int_batched_order, int_range.
  destruct (Z.eqb_spec n 0) as [|_]; [lia|].
  destruct (Z.to_nat (Z.abs (n - 0))) as [|fuel] eqn:Hfuel; [lia|].
  simpl. destruct (Z.ltb_spec 0 n); [lia|].
  destruct (Z.ltb_spec n 0); [|lia].
  assert (int_range_from fuel (0 + n) n n = []) as ->.
  { destruct fuel as [|fuel']; simpl; [done|].
    destruct (Z.ltb_spec 0 n); [lia|].
    by destruct (Z.ltb_spec n (0 + n)); [lia|]. }
  simpl. rewrite int_range_from_empty by lia. done.
Qed.

(** A node count of zero or less with a positive batch size: no batch. *)
Lemma int_batched_order_none (n b : Z) :
  (n ≤ 0)%Z → (0 < b)%Z → int_batched_order n b = Some [].
Proof.
  intros Hn Hb. unfold int_batched_order, int_range.
  destruct (Z.eqb_spec b 0) as [|_]; [lia|].
  by rewrite int_range_from_empty by lia.
Qed.

(** The loops never visit a negative index. *)
Lemma int_batched_order_nonneg (n b : Z) (order : list Z) :
  b = Z.min 1000 n ∨ b = 1000%Z →
  int_batched_order n b = Some order →
  Forall (λ i, 0 ≤ i)%Z order.
Proof.
  intros Hb Horder.
  destruct (Z.lt_trichotomy n 0) as [Hn|[->|Hn]].
  - destruct Hb as [->| ->].
    + rewrite int_batched_order_negative in Horder by done.
      by injection Horder as <-.
    + rewrite int_batched_order_none in Horder by lia.
      by injection Horder as <-.
  - destruct Hb as [->| ->]; [done|].
    rewrite int_batched_order_none in Horder by lia.
    by injection Horder as <-.
  - assert (∃ B, 0 < B ∧ b = Z.of_nat B) as (B & HB & ->).
    { exists (Z.to_nat b). lia. }
    rewrite <- (Z2Nat.id n), int_batched_order_nat in Horder by lia.
    injection Horder as <-. apply Forall_fmap, Forall_forall.
    intros i _. simpl. lia.
Qed.

(** ** The neighbour search with an integer limit *)

Lemma int_find_geographical_neighbors_nat py (C : nat) node_idx positions st :
  int_find_geographical_neighbors py (Z.of_nat C) node_idx positions st
  = find_geographical_neighbors py C node_idx positions st.
Proof.
  unfold int_find_geographical_neighbors, find_geographical_neighbors.
  destruct (positions !! node_idx) as [node_pos|]; [|done].
  destruct (scan_candidates _ _ _ _ _ _ _) as [candidates st1].
  destruct (Z.ltb_spec (Z.of_nat C) (Z.of_nat (length candidates))),
    (Nat.ltb_spec C (length candidates)); try lia; [|done].
  unfold int_random_sample. rewrite decide_True by lia.
  by rewrite Nat2Z.id.
Qed.

(** A negative limit is below every length, and [random.sample] refuses
    it. *)
Lemma int_find_geographical_neighbors_negative py c node_idx positions st :
  (c < 0)%Z →
  int_find_geographical_neighbors py c node_idx positions st = None.
Proof.
  intros Hc. unfold int_find_geographical_neighbors.
  destruct (positions !! node_idx) as [node_pos|]; [|done].
  destruct (scan_candidates _ _ _ _ _ _ _) as [candidates st1].
  destruct (Z.ltb_spec c (Z.of_nat (length candidates))); [|lia].
  unfold int_random_sample. by rewrite decide_False by lia.
Qed.

Lemma int_simple_process_nat py (C : nat) positions order :
  ∀ network st,
    int_simple_process py (Z.of_nat C) positions order network st
    = simple_process py C positions order network st.
Proof.
  induction order as [|i rest IH]; intros network st; simpl; [done|].
  rewrite int_find_geographical_neighbors_nat.
  destruct (find_geographical_neighbors py C i positions st)
    as [[neighbors st1]|]; [apply IH|done].
Qed.

Lemma int_opt_find_geographical_neighbors_nat gen np py node_idx positions st :
  int_opt_find_geographical_neighbors (int_generator gen) np py node_idx
    positions st
  = opt_find_geographical_neighbors gen np py node_idx positions st.
Proof.
  unfold int_opt_find_geographical_neighbors, opt_find_geographical_neighbors.
  simpl.
  destruct (positions !! node_idx) as [node_pos|]; [|done].
  assert (∀ (candidates : list nat) (np_st : np_state np),
    (if (Z.of_nat (connections_per_node gen)
           <? Z.of_nat (length candidates))%Z
     then match int_random_sample py st.2 candidates
                  (Z.of_nat (connections_per_node gen)) with
          | None => None
          | Some (sampled, py_st) => Some (sampled, (np_st, py_st))
          end
     else Some (candidates, (np_st, st.2)))
    = (if connections_per_node gen <? length candidates
       then let '(sampled, py_st) :=
              random_sample py st.2 candidates (connections_per_node gen) in
            Some (sampled, (np_st, py_st))
       else Some (candidates, (np_st, st.2)))) as Hlimit.
  { intros candidates np_st.
    destruct (Z.ltb_spec (Z.of_nat (connections_per_node gen))
                (Z.of_nat (length candidates))),
      (Nat.ltb_spec (connections_per_node gen) (length candidates));
      try lia; [|done].
    unfold int_random_sample. rewrite decide_True by lia.
    by rewrite Nat2Z.id. }
  destruct (0 <? _).
  - destruct (np_random_random _ _ _) as [draws np_st]. apply Hlimit.
  - apply Hlimit.
Qed.

Lemma int_opt_find_geographical_neighbors_negative gen np py node_idx
    positions st :
  (int_connections_per_node gen < 0)%Z →
  int_opt_find_geographical_neighbors gen np py node_idx positions st = None.
Proof.
  intros Hc. unfold int_opt_find_geographical_neighbors.
  destruct (positions !! node_idx) as [node_pos|]; [|done].
  assert (∀ (candidates : list nat) (np_st : np_state np),
    (if (int_connections_per_node gen <? Z.of_nat (length candidates))%Z
     then match int_random_sample py st.2 candidates
                  (int_connections_per_node gen) with
          | None => None
          | Some (sampled, py_st) => Some (sampled, (np_st, py_st))
          end
     else Some (candidates, (np_st, st.2))) = None) as Hlimit.
  { intros candidates np_st.
    destruct (Z.ltb_spec (int_connections_per_node gen)
                (Z.of_nat (length candidates))); [|lia].
    unfold int_random_sample. by rewrite decide_False by lia. }
  destruct (0 <? _).
  - destruct (np_random_random _ _ _) as [draws np_st]. apply Hlimit.
  - apply Hlimit.
Qed.

Lemma int_opt_process_nat gen np py positions order :
  ∀ G st,
    int_opt_process (int_generator gen) np py positions order G st
    = opt_process gen np py positions order G st.
Proof.
  induction order as [|i rest IH]; intros G st; simpl; [done|].
  rewrite int_opt_find_geographical_neighbors_nat.
  destruct (opt_find_geographical_neighbors gen np py i positions st)
    as [[neighbors st1]|]; [apply IH|done].
Qed.

(** ** The builders *)

Lemma int_create_network_nat py (N C : nat) positions st :
  int_create_network py (Z.of_nat N) (Z.of_nat C) positions st
  = create_network py N C positions st.
Proof.
  unfold int_create_network, create_network.
  change 1000%Z with (Z.of_nat 1000). rewrite <- Nat2Z.inj_min.
  destruct (Nat.eqb_spec (1000 `min` N) 0) as [->|Hnz]; [done|].
  rewrite int_batched_order_nat by lia.
  rewrite to_nat_of_nat_list. apply int_simple_process_nat.
Qed.

Lemma int_create_network_negative py (n c : Z) positions st :
  (n < 0)%Z → int_create_network py n c positions st = Some (∅, st).
Proof.
  intros Hn. unfold int_create_network.
  by rewrite int_batched_order_negative.
Qed.

Lemma int_create_optimized_nat gen np py positions st :
  int_create_geographical_network_optimized (int_generator gen) np py
    positions st
  = create_geographical_network_optimized gen np py positions st.
Proof.
  unfold int_create_geographical_network_optimized,
    create_geographical_network_optimized, create_with_batch_size.
  simpl int_total_nodes.
  change 0%Z with (Z.of_nat 0). rewrite int_range_step_one.
  rewrite Nat.sub_0_r. simpl default. rewrite to_nat_of_nat_list.
  rewrite int_batched_order_nat by (unfold BATCH_SIZE; lia).
  rewrite to_nat_of_nat_list.
  destruct (mapM _ _) as [pos_dict|] eqn:Hdict.
  - apply int_opt_process_nat.
  - apply mapM_None_1, Exists_exists in Hdict as (z & Hz & Hnone).
    apply list_elem_of_fmap in Hz as (i & -> & Hi).
    rewrite Nat2Z.id in Hnone. apply lookup_ge_None in Hnone.
    symmetry. apply (opt_process_None _ _ _ _ _ i); [|done].
    by rewrite batched_order_seq by (unfold BATCH_SIZE; lia).
Qed.

Lemma int_create_optimized_none gen np py positions st :
  (int_total_nodes gen ≤ 0)%Z →
  int_create_geographical_network_optimized gen np py positions st
  = Some (∅, st).
Proof.
  intros Hn. unfold int_create_geographical_network_optimized.
  rewrite int_batched_order_none by (unfold BATCH_SIZE; lia).
  assert (int_range 0 (int_total_nodes gen) 1 = Some []) as ->; [|done].
  unfold int_range. simpl. by rewrite int_range_from_empty by lia.
Qed.

(** With the counts as Python integers.  The networkx builder returns a
    graph exactly when the node count is zero or less (the graph is then
    empty), or there is a position for every node and
    [connections_per_node] is not negative.  The standard-library builder
    returns a network exactly when the node count is negative (the
    network is then empty), or it is positive, there is a position for
    every node and [connections_per_node] is not negative; for zero nodes
    the batch size, the step of [range], is zero and [range] raises.  A
    negative [connections_per_node] is passed to [random.sample] in the
    search of the first node, which raises.  On natural counts the two
    builders are the definitions [create_geographical_network_optimized]
    and [create_network]. *)
Theorem builders_return_iff
    (gen : IntGenerator) (np : NpRandom) (py : PyRandom)
    (positions : list position) (st : np_state np * py_state py)
    (total_nodes' connections_per_node' : Z) :
  (is_Some (int_create_geographical_network_optimized gen np py positions st)
   ↔ (int_total_nodes gen ≤ 0 ∨
      int_total_nodes gen ≤ Z.of_nat (length positions) ∧
      0 ≤ int_connections_per_node gen)%Z) ∧
  (is_Some (int_create_network py total_nodes' connections_per_node'
              positions st.2)
   ↔ (total_nodes' < 0 ∨
      0 < total_nodes' ≤ Z.of_nat (length positions) ∧
      0 ≤ connections_per_node')%Z) ∧
  ((int_total_nodes gen ≤ 0)%Z →
   int_create_geographical_network_optimized gen np py positions st
   = Some (∅, st)) ∧
  ((total_nodes' < 0)%Z →
   int_create_network py total_nodes' connections_per_node' positions st.2
   = Some (∅, st.2)) ∧
  (∀ gen' : Generator,
     int_create_geographical_network_optimized (int_generator gen') np py
       positions st
     = create_geographical_network_optimized gen' np py positions st) ∧
  (∀ N C : nat,
     int_create_network py (Z.of_nat N) (Z.of_nat C) positions st.2
     = create_network py N C positions st.2).
Proof.
  split; [|split; [|split; [|split; [|split]]]].
  - destruct (Z.le_gt_cases (int_total_nodes gen) 0) as [Hn|Hn].
    { rewrite int_create_optimized_none by done. split; [by left|done]. }
    destruct (Z.lt_ge_cases (int_connections_per_node gen) 0) as [Hc|Hc].
    + split; [|lia]. intros Hsome. exfalso.
      unfold int_create_geographical_network_optimized in Hsome.
      destruct (mapM _ _) as [pos_dict|]; [|by destruct Hsome].
      rewrite <- (Z2Nat.id (int_total_nodes gen)) in Hsome by lia.
      change (Z.of_nat BATCH_SIZE) with (Z.of_nat 1000) in Hsome.
      rewrite int_batched_order_nat, to_nat_of_nat_list, batched_order_seq
        in Hsome by lia.
      destruct (Z.to_nat (int_total_nodes gen)) as [|N] eqn:HN; [lia|].
      simpl in Hsome.
      rewrite int_opt_find_geographical_neighbors_negative in Hsome by done.
      by destruct Hsome.
    + destruct gen as [n c m w]. simpl in Hn, Hc. simpl.
      replace (Build_IntGenerator n c m w)
        with (int_generator {| total_nodes := Z.to_nat n;
                               connections_per_node := Z.to_nat c;
                               max_distance := m;
                               distance_weight := w |})
        by (unfold int_generator; simpl; by rewrite !Z2Nat.id by lia).
      rewrite int_create_optimized_nat, opt_create_returns_iff.
      simpl. lia.
  - destruct (Z.lt_trichotomy total_nodes' 0) as [Hn|[->|Hn]].
    + rewrite int_create_network_negative by done. split; [by left|done].
    + split; [by intros []|lia].
    + destruct (Z.lt_ge_cases connections_per_node' 0) as [Hc|Hc].
      * split; [|lia]. intros Hsome. exfalso.
        unfold int_create_network in Hsome.
        rewrite <- (Z2Nat.id total_nodes') in Hsome by lia.
        change 1000%Z with (Z.of_nat 1000) in Hsome.
        rewrite <- Nat2Z.inj_min in Hsome.
        rewrite int_batched_order_nat, to_nat_of_nat_list, batched_order_seq
          in Hsome by lia.
        destruct (Z.to_nat total_nodes') as [|N] eqn:HN; [lia|].
        simpl in Hsome.
        rewrite int_find_geographical_neighbors_negative in Hsome by done.
        by destruct Hsome.
      * rewrite <- (Z2Nat.id total_nodes'), <- (Z2Nat.id connections_per_node')
          by lia.
        rewrite int_create_network_nat, simple_create_returns_iff. lia.
  - apply int_create_optimized_none.
  - apply int_create_network_negative.
  - intros gen'. apply int_create_optimized_nat.
  - intros N C. apply int_create_network_nat.
Qed.

(** A node count of -1: both builders return the empty graph and draw
    nothing, whatever [connections_per_node] is. *)
Lemma builders_return_iff_witness :
  int_create_geographical_network_optimized
    {| int_total_nodes := -1; int_connections_per_node := -1;
       int_max_distance := 1; int_distance_weight := 1 |}
    replay_np replay_py line3 ([], [])
  = Some (∅, ([], [])) ∧
  int_create_network replay_py (-1) 2 line3 [] = Some (∅, []).
Proof.
  destruct (builders_return_iff
              {| int_total_nodes := -1; int_connections_per_node := -1;
                 int_max_distance := 1; int_distance_weight := 1 |}
              replay_np replay_py line3 ([], []) (-1) 2)
    as (_ & _ & Hoptimized & Hsimple & _).
  split.
  - apply Hoptimized. simpl. lia.
  - apply Hsimple. lia.
Defined.

(** * The performance report of a simulation *)

Lemma rounds_propagating_bounds network N k R P steps Rf Pf :
  rounds network N k R P steps Rf Pf → P ⊆ R →
  ∀ r, r ∈ steps →
       1 ≤ propagating_count r ∧ propagating_count r ≤ size Rf.
Proof.
  induction 1 as [|k R P R' P' steps Rf Pf HP Hround Hrest IH].
  - by intros _ r ?%elem_of_nil.
  - intros HPR r [->|Hr]%elem_of_cons.
    + simpl. split.
      * assert (size P ≠ 0) by (by intros ?%size_empty_inv%leibniz_equiv).
        lia.
      * apply subseteq_size.
        apply rounds_received_mono in Hrest as [? _].
        apply round_mono in Hround as [? _]. set_solver.
    + apply IH; [|done]. by apply round_mono in Hround as [_ ?].
Qed.

Lemma max_list_bounds (ns : list nat) lo hi :
  ns ≠ [] → (∀ n, n ∈ ns → lo ≤ n ∧ n ≤ hi) →
  lo ≤ max_list ns ∧ max_list ns ≤ hi.
Proof.
  intros Hne Hall. split.
  - destruct ns as [|n ns]; [done|].
    destruct (Hall n) as [? _]; [left|].
    pose proof (max_list_elem_of_le n (n :: ns) ltac:(left)). lia.
  - clear Hne. induction ns as [|n ns IH]; simpl; [lia|].
    destruct (Hall n) as [_ ?]; [left|].
    assert (max_list ns ≤ hi) by (apply IH; intros m Hm; apply Hall; by right).
    lia.
Qed.

(** What the report says about a run of consecutive rounds that started
    at the origin and stayed within a node set of size [N]. *)
Lemma performance_of_rounds network N origin_node steps Rf Pf
    (nodes : gset nat) (timed : list TimedStep) :
  rounds network N 0 {[origin_node]} {[origin_node]} steps Rf Pf →
  steps ≠ [] → step_data <$> timed = steps →
  Rf ⊆ nodes → size nodes = N →
  ∃ perf c m,
    analyze_propagation_performance N timed = Some perf ∧
    perf !! "total_steps" = Some (VInt (Z.of_nat (length steps))) ∧
    perf !! "coverage_percentage" = Some (VFloat c) ∧
    c = (INR (size Rf) / INR N * 100)%R ∧ (0 < c <= 100)%R ∧
    perf !! "max_propagating_nodes" = Some (VInt (Z.of_nat m)) ∧
    1 ≤ m ≤ N.
Proof.
  intros Hrounds Hne Htimed Hsub Hsize. subst N.
  set (N := size nodes) in *.
  destruct (rounds_last _ _ _ _ _ _ _ _ Hrounds Hne) as (r & Hlast & Hrc & _).
  pose proof (rounds_received_mono _ _ _ _ _ _ _ _ Hrounds) as (HoRf & _ & _).
  assert (1 ≤ size Rf) as Hpos.
  { rewrite <- (size_singleton (C := gset nat) origin_node).
    by apply subseteq_size. }
  assert (size Rf ≤ N) as Hle by (by apply subseteq_size).
  unfold analyze_propagation_performance.
  assert (last timed ≠ None) as Hlt.
  { rewrite <- Htimed, fmap_last in Hlast. by destruct (last timed). }
  destruct (last timed) as [final_step|] eqn:Hfinal; [|done].
  assert (received_count (step_data final_step) = size Rf) as Hfr.
  { rewrite <- Htimed, fmap_last, Hfinal in Hlast.
    injection Hlast as <-. done. }
  destruct (Nat.eqb_spec N 0) as [|HN]; [lia|].
  eexists _, _, (max_list ((propagating_count ∘ step_data) <$> timed)).
  split; [reflexivity|].
  assert (length timed = length steps) as Hlen
    by (by rewrite <- Htimed, length_fmap).
  assert (1 ≤ max_list ((propagating_count ∘ step_data) <$> timed) ∧
          max_list ((propagating_count ∘ step_data) <$> timed) ≤ N) as Hmax.
  { apply max_list_bounds.
    - rewrite <- Htimed in Hne. by destruct timed.
    - intros n (t & -> & Ht)%list_elem_of_fmap. simpl.
      destruct (rounds_propagating_bounds _ _ _ _ _ _ _ _ Hrounds
                  ltac:(done) (step_data t)) as [? ?].
      + rewrite <- Htimed. apply list_elem_of_fmap. eauto.
      + lia. }
  split_and!.
  - simplify_map_eq. by rewrite Hlen.
  - by simplify_map_eq.
  - by rewrite Hfr.
  - rewrite Hfr.
    assert (0 < INR N)%R by (apply lt_0_INR; lia).
    assert (1 <= INR (size Rf))%R by (apply (le_INR 1); lia).
    assert (INR (size Rf) <= INR N)%R by (by apply le_INR).
    assert (0 < / INR N)%R by (by apply Rinv_0_lt_compat).
    assert (INR N * / INR N = 1)%R by (field; lra).
    unfold Rdiv. nra.
  - rewrite Hfr.
    assert (0 < INR N)%R by (apply lt_0_INR; lia).
    assert (INR (size Rf) <= INR N)%R by (by apply le_INR).
    assert (0 < / INR N)%R by (by apply Rinv_0_lt_compat).
    assert (INR N * / INR N = 1)%R by (field; lra).
    unfold Rdiv. nra.
  - by simplify_map_eq.
  - apply Hmax.
  - apply Hmax.
Qed.

Lemma full_coverage_percentage N :
  N ≠ 0 → (INR N / INR N * 100)%R = 100%R.
Proof.
  intros HN. assert (0 < INR N)%R by (apply lt_0_INR; lia). field. lra.
Qed.

(** The performance report of a simulation on a valid graph: the number
    of recorded rounds, a coverage percentage in (0, 100] that is 100 when
    the graph is connected, and a peak wavefront between 1 and N.  For
    the standard-library script the same holds from two nodes on. *)
Theorem performance_of_simulation
    (G : adjacency) (origin_node : nat) (timed : list TimedStep)
    (total_nodes : nat) (network : adjacency) (origin_node' : nat)
    (timed' : list TimedStep) :
  nx_closed G → origin_node ∈ dom G →
  steps_of (message_simulate_propagation G origin_node)
    = Some (step_data <$> timed) →
  simple_closed total_nodes network → origin_node' < total_nodes →
  1 < total_nodes →
  steps_of (simple_simulate_propagation total_nodes network origin_node')
    = Some (step_data <$> timed') →
  (∃ perf c m,
     analyze_propagation_performance (size G) timed = Some perf ∧
     perf !! "total_steps" = Some (VInt (Z.of_nat (length timed))) ∧
     perf !! "coverage_percentage" = Some (VFloat c) ∧
     (0 < c <= 100)%R ∧
     perf !! "max_propagating_nodes" = Some (VInt (Z.of_nat m)) ∧
     1 ≤ m ≤ size G ∧
     (connected G (dom G) → c = 100%R)) ∧
  (∃ perf c m,
     analyze_propagation_performance total_nodes timed' = Some perf ∧
     perf !! "total_steps" = Some (VInt (Z.of_nat (length timed'))) ∧
     perf !! "coverage_percentage" = Some (VFloat c) ∧
     (0 < c <= 100)%R ∧
     perf !! "max_propagating_nodes" = Some (VInt (Z.of_nat m)) ∧
     1 ≤ m ≤ total_nodes ∧
     (connected network (node_range total_nodes) → c = 100%R)).
Proof.
  intros Hcl Ho Hrun Hcl' Ho' HN Hrun'. split.
  - destruct (message_simulate_returns G origin_node Hcl Ho) as [steps Hret].
    rewrite Hret in Hrun. injection Hrun as Hsteps.
    pose proof Hret as (Rf & Pf & Hrounds & ->)%message_loop_rounds.
    assert (steps ≠ []) as Hne.
    { intros Hnil.
      by destruct (rounds_nonempty _ _ _ _ _ _ _ _ Hrounds Hnil). }
    destruct (rounds_within G (size G) (dom G) _ _ _ _ _ _ Hrounds)
      as [_ HRf]; [by apply nx_closed_nodes|done|set_solver|].
    destruct (performance_of_rounds G (size G) origin_node steps Rf ∅
                (dom G) timed Hrounds Hne (eq_sym Hsteps) HRf (size_dom G))
      as (perf & c & m & Hperf & Hts & Hcov & Hc & [? ?] & Hmax & [? ?]).
    exists perf, c, m. rewrite <- (length_fmap step_data), <- Hsteps.
    split_and!; try done; try lia.
    intros Hconn.
    destruct (message_full_coverage G origin_node Hcl Ho Hconn)
      as (steps' & r' & Hret' & Hlast' & Hrc' & _).
    rewrite Hret in Hret'. injection Hret' as <-.
    destruct (rounds_last _ _ _ _ _ _ _ _ Hrounds Hne)
      as (r & Hlast & Hrc & _).
    rewrite Hlast in Hlast'. injection Hlast' as <-.
    rewrite Hc, <- Hrc, Hrc'. apply full_coverage_percentage.
    rewrite <- size_dom. intros Hz%size_empty_inv. set_solver.
  - destruct (simple_simulate_returns total_nodes network origin_node')
      as [steps Hret].
    rewrite Hret in Hrun'. injection Hrun' as Hsteps.
    pose proof Hret as (Rf & Pf & Hrounds & Hstop)%simple_loop_rounds.
    assert (origin_node' ∈ node_range total_nodes) as Hon.
    { apply elem_of_set_seq. lia. }
    assert (steps ≠ []) as Hne.
    { intros Hnil.
      destruct (rounds_nonempty _ _ _ _ _ _ _ _ Hrounds Hnil) as [-> ->].
      rewrite size_singleton in Hstop. destruct Hstop; [set_solver|lia]. }
    destruct (rounds_within network total_nodes (node_range total_nodes)
                _ _ _ _ _ _ Hrounds)
      as [_ HRf]; [by apply simple_closed_nodes|done|set_solver|].
    destruct (performance_of_rounds network total_nodes origin_node' steps
                Rf Pf (node_range total_nodes) timed' Hrounds Hne
                (eq_sym Hsteps) HRf (size_node_range total_nodes))
      as (perf & c & m & Hperf & Hts & Hcov & Hc & [? ?] & Hmax & [? ?]).
    exists perf, c, m. rewrite <- (length_fmap step_data), <- Hsteps.
    split_and!; try done; try lia.
    intros Hconn.
    destruct (simple_full_coverage total_nodes network origin_node'
                Hcl' Ho' HN Hconn)
      as (steps' & r' & Hret' & Hlast' & Hrc' & _).
    rewrite Hret in Hret'. injection Hret' as <-.
    destruct (rounds_last _ _ _ _ _ _ _ _ Hrounds Hne)
      as (r & Hlast & Hrc & _).
    rewrite Hlast in Hlast'. injection Hlast' as <-.
    rewrite Hc, <- Hrc, Hrc'. apply full_coverage_percentage. lia.
Qed.

Lemma performance_of_simulation_witness :
  (∃ perf c m,
     analyze_propagation_performance (size cycle6)
       (with_clock [ mkStep 0 3 1 3; mkStep 1 5 2 1;
                     mkStep 2 6 2 0; mkStep 3 6 1 0 ]) = Some perf ∧
     perf !! "total_steps"
       = Some (VInt (Z.of_nat (length
           (with_clock [ mkStep 0 3 1 3; mkStep 1 5 2 1;
                         mkStep 2 6 2 0; mkStep 3 6 1 0 ])))) ∧
     perf !! "coverage_percentage" = Some (VFloat c) ∧
     (0 < c <= 100)%R ∧
     perf !! "max_propagating_nodes" = Some (VInt (Z.of_nat m)) ∧
     1 ≤ m ≤ size cycle6 ∧
     (connected cycle6 (dom cycle6) → c = 100%R)) ∧
  (∃ perf c m,
     analyze_propagation_performance 6
       (with_clock [ mkStep 0 3 1 3; mkStep 1 5 2 1; mkStep 2 6 2 0 ])
       = Some perf ∧
     perf !! "total_steps"
       = Some (VInt (Z.of_nat (length
           (with_clock [ mkStep 0 3 1 3; mkStep 1 5 2 1;
                         mkStep 2 6 2 0 ])))) ∧
     perf !! "coverage_percentage" = Some (VFloat c) ∧
     (0 < c <= 100)%R ∧
     perf !! "max_propagating_nodes" = Some (VInt (Z.of_nat m)) ∧
     1 ≤ m ≤ 6 ∧
     (connected cycle6 (node_range 6) → c = 100%R)).
Proof.
  apply (performance_of_simulation cycle6 0 _ 6 cycle6 0 _).
  - apply cycle6_nx_closed.
  - apply cycle6_origin.
  - rewrite cycle6_message_run. reflexivity.
  - apply cycle6_simple_closed.
  - lia.
  - lia.
  - rewrite cycle6_simple_run. reflexivity.
Defined.

(** * The connectivity check of the standard-library script *)

Lemma touch_present (network : adjacency) node :
  node ∈ dom network → touch network node = network.
Proof.
  intros [l Hl]%elem_of_dom. unfold touch, network_get. rewrite Hl. simpl.
  by apply insert_id.
Qed.

Lemma symmetric_nx_closed G : symmetric G → nx_closed G.
Proof.
  intros Hsym u v Hv%Hsym. unfold network_get in Hv.
  apply elem_of_dom. destruct (G !! v); [done|].
  by apply elem_of_nil in Hv.
Qed.

Lemma pending_list_visit (l : list (nat * list nat)) (visited : gset nat)
    u ns :
  NoDup l.*1 → (u, ns) ∈ l → u ∉ visited →
  sum_list ((λ kv, if decide (kv.1 ∈ {[u]} ∪ visited) then 0
                   else length kv.2) <$> l) + length ns
  = sum_list ((λ kv, if decide (kv.1 ∈ visited) then 0
                     else length kv.2) <$> l).
Proof.
  intros Hnd Hin Hu. induction l as [|[k x] l IH]; [by apply elem_of_nil in Hin|].
  rewrite !fmap_cons. cbn [sum_list sum_list_with fst snd].
  apply NoDup_cons in Hnd as [Hk Hnd].
  apply elem_of_cons in Hin as [[= <- <-]|Hin].
  - rewrite decide_True by set_solver. rewrite decide_False by done.
    assert (sum_list ((λ kv, if decide (kv.1 ∈ {[u]} ∪ visited) then 0
                             else length kv.2) <$> l)
            = sum_list ((λ kv, if decide (kv.1 ∈ visited) then 0
                               else length kv.2) <$> l)) as ->; [|simpl; lia].
    f_equal. apply list_fmap_ext. intros i [k' x'] Hi. simpl.
    assert (k' ≠ u).
    { intros ->. apply Hk. apply list_elem_of_fmap. exists (u, x').
      split; [done|]. by eapply list_elem_of_lookup_2. }
    destruct (decide (k' ∈ visited)).
    + by rewrite decide_True by set_solver.
    + by rewrite decide_False by set_solver.
  - specialize (IH Hnd Hin).
    assert (k ≠ u).
    { intros ->. apply Hk. apply list_elem_of_fmap. by exists (u, ns). }
    destruct (decide (k ∈ visited)).
    + rewrite decide_True by set_solver. simpl in *. lia.
    + rewrite decide_False by set_solver. simpl in *. lia.
Qed.

Lemma pending_degree_visit network (visited : gset nat) u :
  u ∈ dom network → u ∉ visited →
  pending_degree network ({[u]} ∪ visited) + length (network_get network u)
  = pending_degree network visited.
Proof.
  intros [ns Hns]%elem_of_dom Hu. unfold pending_degree, network_get.
  rewrite Hns. simpl. apply pending_list_visit; [|by apply elem_of_map_to_list|done].
  apply NoDup_fst_map_to_list.
Qed.

Lemma pending_degree_empty network :
  pending_degree network ∅ = degree_sum network.
Proof.
  unfold pending_degree, degree_sum. by f_equal.
Qed.

(** On a network that lists only keys as neighbours the search never
    creates a key and never runs out of fuel. *)
Lemma bfs_loop_returns network fuel : ∀ visited queue,
  nx_closed network →
  (∀ x, x ∈ queue → x ∈ dom network) →
  length queue + pending_degree network visited < fuel →
  ∃ visited',
    bfs_loop fuel network visited queue = Some (visited', network).
Proof.
  intros visited queue Hcl. revert visited queue.
  induction fuel as [|fuel IH]; intros visited queue Hq Hfuel; [lia|].
  simpl. destruct queue as [|node queue']; [by eauto|].
  assert (node ∈ dom network) as Hnode by (apply Hq; left).
  destruct (decide (node ∈ visited)).
  - apply IH; [|simpl in Hfuel; lia]. intros x Hx. apply Hq. by right.
  - rewrite touch_present by done. apply IH.
    + intros x [?|[_ ?]%list_elem_of_filter]%elem_of_app.
      * apply Hq. by right.
      * by apply (Hcl node).
    + pose proof (pending_degree_visit network visited node Hnode ltac:(done)).
      rewrite length_app. simpl in Hfuel.
      pose proof (length_filter (λ neighbor, neighbor ∉ {[node]} ∪ visited)
                    (network_get network node)).
      lia.
Qed.

Lemma bfs_loop_invariant network origin_node fuel :
  nx_closed network →
  ∀ visited queue visited' network',
    (∀ x, x ∈ queue → x ∈ dom network) →
    bfs_loop fuel network visited queue = Some (visited', network') →
    (∀ v, v ∈ visited ∨ v ∈ queue → rtc (edge network) origin_node v) →
    (∀ u v, u ∈ visited → v ∈ network_get network u →
            v ∈ visited ∨ v ∈ queue) →
    visited ⊆ dom network →
    network' = network ∧
    (∀ v, v ∈ visited ∨ v ∈ queue → v ∈ visited') ∧
    (∀ v, v ∈ visited' → rtc (edge network) origin_node v) ∧
    (∀ u v, u ∈ visited' → v ∈ network_get network u → v ∈ visited') ∧
    visited' ⊆ dom network.
Proof.
  intros Hcl.
  induction fuel as [|fuel IH];
    intros visited queue visited' network' Hq Hrun Hreach Hfront Hdom;
    [done|].
  simpl in Hrun. destruct queue as [|node queue'].
  { injection Hrun as <- <-. split_and!; [done| |by auto| |done].
    - intros v [?|?%elem_of_nil]; done.
    - intros u v Hu Hv. by destruct (Hfront u v Hu Hv) as [?|?%elem_of_nil]. }
  assert (node ∈ dom network) as Hnode by (apply Hq; left).
  destruct (decide (node ∈ visited)) as [Hvis|Hvis].
  - destruct (IH visited queue' visited' network') as (? & Hin & ? & ? & ?);
      [|done| | |done|].
    + intros x Hx. apply Hq. by right.
    + intros v [?|?]; apply Hreach; [by left|right; by right].
    + intros u v Hu Hv.
      destruct (Hfront u v Hu Hv) as [?|[->|?]%elem_of_cons]; auto.
    + split_and!; [done| |done..].
      intros v [?|[->|?]%elem_of_cons]; auto.
  - rewrite touch_present in Hrun by done.
    destruct (IH ({[node]} ∪ visited)
                (queue' ++ filter (λ neighbor, neighbor ∉ {[node]} ∪ visited)
                             (network_get network node))
                visited' network') as (? & Hin & ? & ? & ?); [|done| | | |].
    + intros x [?|[_ ?]%list_elem_of_filter]%elem_of_app.
      * apply Hq. by right.
      * by apply (Hcl node).
    + intros v [[->%elem_of_singleton|?]%elem_of_union
                |[?|[_ Hv]%list_elem_of_filter]%elem_of_app].
      * apply Hreach. right. left.
      * apply Hreach. by left.
      * apply Hreach. right. by right.
      * apply (rtc_r _ node); [|done]. apply Hreach. right. left.
    + intros u v [->%elem_of_singleton|Hu]%elem_of_union Hv.
      * destruct (decide (v ∈ {[node]} ∪ visited)); [by left|].
        right. apply elem_of_app. right. by apply list_elem_of_filter.
      * destruct (Hfront u v Hu Hv) as [?|[->|?]%elem_of_cons].
        -- left. set_solver.
        -- left. set_solver.
        -- right. apply elem_of_app. by left.
    + set_solver.
    + split_and!; [done| |done..].
      intros v [?|[->|?]%elem_of_cons]; apply Hin.
      * left. set_solver.
      * left. set_solver.
      * right. apply elem_of_app. by left.
Qed.

Lemma map_size_positive (network : adjacency) : network ≠ ∅ → 0 < size network.
Proof.
  intros Hne. destruct (size network) eqn:E; [|lia].
  by apply map_size_empty_inv in E.
Qed.

(** The three cases of [is_connected]. *)
Lemma is_connected_spec (network : adjacency) :
  nx_closed network →
  (network = ∅ → is_connected network = Some (false, network)) ∧
  (0 ∈ dom network →
   ∃ answer,
     is_connected network = Some (answer, network) ∧
     (answer = true ↔
      ∀ v, v ∈ dom network → rtc (edge network) 0 v)) ∧
  (network ≠ ∅ → 0 ∉ dom network →
   is_connected network = Some (false, <[0 := []]> network)).
Proof.
  intros Hcl. split_and!.
  - intros ->. unfold is_connected. by rewrite decide_True.
  - intros H0. unfold is_connected.
    rewrite decide_False by (intros ->; set_solver).
    destruct (bfs_loop_returns network (bfs_fuel network 1) ∅ [0])
      as [visited Hrun]; [done| | |].
    { by intros x ->%list_elem_of_singleton. }
    { rewrite pending_degree_empty. unfold bfs_fuel. simpl. lia. }
    rewrite Hrun. eexists. split; [reflexivity|].
    destruct (bfs_loop_invariant network 0 (bfs_fuel network 1) Hcl ∅ [0]
                visited network)
      as (_ & Hin & Hsound & Hclosed & Hsub); [|done| | | |].
    { by intros x ->%list_elem_of_singleton. }
    { intros v [?| ->%list_elem_of_singleton]; [set_solver|apply rtc_refl]. }
    { set_solver. }
    { set_solver. }
    rewrite bool_decide_eq_true. split.
    + intros Hsize v Hv. apply Hsound.
      rewrite (full_of_size visited (dom network)); [done..|].
      rewrite size_dom. lia.
    + intros Hall. rewrite <- size_dom. f_equal.
      apply set_eq. intros v. split; [set_solver|]. intros Hv.
      apply (closed_reachable network visited 0 v); [done|by apply Hall|].
      apply Hin. right. left.
  - intros Hne H0. unfold is_connected. rewrite decide_False by done.
    unfold bfs_fuel. cbn [bfs_loop Nat.add].
    rewrite decide_False by set_solver.
    assert (network_get network 0 = []) as ->.
    { unfold network_get. by rewrite (not_elem_of_dom_1 network 0). }
    rewrite filter_nil, app_nil_r. cbn [bfs_loop]. unfold touch.
    assert (network_get network 0 = []) as ->.
    { unfold network_get. by rewrite (not_elem_of_dom_1 network 0). }
    f_equal. f_equal. apply bool_decide_eq_false.
    rewrite union_empty_r_L, size_singleton.
    rewrite map_size_insert_None by (by apply not_elem_of_dom).
    pose proof (map_size_positive network Hne). lia.
Qed.

(** [is_connected] on a network whose neighbours are all keys: an empty
    network is reported as not connected; when node 0 is a key the search
    leaves the network unchanged and answers [True] exactly when every key
    can be reached from node 0; when node 0 is not a key the search itself
    creates the key 0 and the answer is [False]. *)
Theorem is_connected_correct (network : adjacency) :
  nx_closed network →
  (network = ∅ → is_connected network = Some (false, network)) ∧
  (0 ∈ dom network →
   ∃ answer,
     is_connected network = Some (answer, network) ∧
     (answer = true ↔
      ∀ v, v ∈ dom network → rtc (edge network) 0 v)) ∧
  (network ≠ ∅ → 0 ∉ dom network →
   is_connected network = Some (false, <[0 := []]> network)).
Proof. apply is_connected_spec. Qed.

Lemma is_connected_correct_witness :
  (cycle6 = ∅ → is_connected cycle6 = Some (false, cycle6)) ∧
  (0 ∈ dom cycle6 →
   ∃ answer,
     is_connected cycle6 = Some (answer, cycle6) ∧
     (answer = true ↔ ∀ v, v ∈ dom cycle6 → rtc (edge cycle6) 0 v)) ∧
  (cycle6 ≠ ∅ → 0 ∉ dom cycle6 →
   is_connected cycle6 = Some (false, <[0 := []]> cycle6)).
Proof. apply (is_connected_correct cycle6). apply cycle6_nx_closed. Defined.

(** * Counting components *)

Lemma pending_degree_le network (visited : gset nat) :
  pending_degree network visited ≤ degree_sum network.
Proof.
  unfold pending_degree, degree_sum.
  induction (map_to_list network) as [|kv l IH]; [done|].
  rewrite !fmap_cons. cbn [sum_list sum_list_with].
  destruct (decide _); simpl in *; lia.
Qed.

Lemma bfs_loop_grows fuel : ∀ network visited queue visited' network',
  bfs_loop fuel network visited queue = Some (visited', network') →
  ∀ v, v ∈ visited ∨ v ∈ queue → v ∈ visited'.
Proof.
  induction fuel as [|fuel IH]; intros network visited queue visited' network';
    [done|].
  simpl. destruct queue as [|node queue'].
  { intros [= <- <-] v [?|?%elem_of_nil]; done. }
  destruct (decide (node ∈ visited)).
  - intros Hrun v [?|[->|?]%elem_of_cons]; eapply IH; eauto.
  - intros Hrun v Hv. eapply IH; [exact Hrun|].
    destruct Hv as [?|[->|?]%elem_of_cons].
    + left. set_solver.
    + left. set_solver.
    + right. apply elem_of_app. by left.
Qed.

Lemma count_loop_returns network (keys : list nat) :
  nx_closed network → (∀ x, x ∈ keys → x ∈ dom network) →
  ∀ visited components,
    ∃ c, count_loop (bfs_fuel network 1) (size network) keys network
           visited components = Returned c ∧
         components ≤ c ≤ components + length keys ∧
         ((∀ x, x ∈ keys → x ∈ visited) → c = components) ∧
         ((∃ x, x ∈ keys ∧ x ∉ visited) → components < c).
Proof.
  intros Hcl. induction keys as [|node rest IH]; intros Hkeys visited c;
    cbn [count_loop length].
  - exists c. split_and!; [done|lia..|done|].
    by intros (x & ?%elem_of_nil & _).
  - assert (∀ x, x ∈ rest → x ∈ dom network) as Hrest.
    { intros x Hx. apply Hkeys. by right. }
    destruct (decide (node ∈ visited)) as [Hvis|Hvis].
    + destruct (IH Hrest visited c) as (c' & -> & Hb & Hall & Hsome).
      exists c'. split_and!; [done|lia..| |].
      * intros Hin. apply Hall. intros x Hx. apply Hin. by right.
      * intros (x & [->|Hx]%elem_of_cons & Hn); [done|]. apply Hsome. eauto.
    + destruct (bfs_loop_returns network (bfs_fuel network 1) visited [node])
        as [visited' Hrun]; [done| | |].
      { intros x ->%list_elem_of_singleton. apply Hkeys. left. }
      { pose proof (pending_degree_le network visited).
        unfold bfs_fuel. simpl. lia. }
      rewrite Hrun, decide_True by done.
      destruct (IH Hrest visited' (S c)) as (c' & -> & Hb & _ & _).
      exists c'. split_and!; [done|lia..| |intros _; lia].
      intros Hin. exfalso. apply Hvis. apply Hin. left.
Qed.

Lemma rtc_symmetric network u v :
  symmetric network → rtc (edge network) u v → rtc (edge network) v u.
Proof.
  intros Hsym. induction 1 as [|a b c Hab _ IH]; [apply rtc_refl|].
  apply (rtc_r _ b); [done|]. unfold edge in *. by apply Hsym.
Qed.

(** The count of [count_components] and the answer of [is_connected]. *)
Lemma count_components_spec (network : adjacency) (keys : list nat) :
  symmetric network → keys ≡ₚ elements (dom network) →
  (network = ∅ → count_components network keys = Returned 0) ∧
  (network ≠ ∅ →
   ∃ c, count_components network keys = Returned c ∧
        1 ≤ c ≤ size network ∧
        (0 ∈ dom network →
         ∃ answer, is_connected network = Some (answer, network) ∧
                   (answer = true ↔ c = 1))).
Proof.
  intros Hsym Hkeys. pose proof (symmetric_nx_closed _ Hsym) as Hcl. split.
  { intros ->. unfold count_components. by rewrite decide_True. }
  intros Hne. unfold count_components. rewrite decide_False by done.
  assert (∀ x, x ∈ keys ↔ x ∈ dom network) as Hin.
  { intros x. by rewrite Hkeys, elem_of_elements. }
  assert (length keys = size network) as Hlen.
  { by rewrite Hkeys, <- size_dom. }
  destruct keys as [|k rest].
  { pose proof (map_size_positive network Hne). simpl in Hlen. lia. }
  assert (k ∈ dom network) as Hk by (apply Hin; left).
  assert (∀ x, x ∈ rest → x ∈ dom network) as Hrest.
  { intros x Hx. apply Hin. by right. }
  cbn [count_loop]. rewrite decide_False by set_solver.
  destruct (bfs_loop_returns network (bfs_fuel network 1) ∅ [k])
    as [visited Hrun]; [done| | |].
  { by intros x ->%list_elem_of_singleton. }
  { rewrite pending_degree_empty. unfold bfs_fuel. simpl. lia. }
  rewrite Hrun, decide_True by done.
  destruct (count_loop_returns network rest Hcl Hrest visited 1)
    as (c & Hcount & Hb & Hall & Hsome).
  exists c. split; [done|]. split; [simpl in Hlen; lia|].
  intros H0.
  destruct (is_connected_spec network Hcl) as (_ & Hconn & _).
  destruct (Hconn H0) as (answer & Hans & Hiff).
  exists answer. split; [done|]. rewrite Hiff.
  destruct (bfs_loop_invariant network k (bfs_fuel network 1) Hcl ∅ [k]
              visited network)
    as (_ & Hgrow & Hsound & Hclosed & Hsub); [|done| | | |].
  { by intros x ->%list_elem_of_singleton. }
  { intros v [?| ->%list_elem_of_singleton]; [set_solver|apply rtc_refl]. }
  { set_solver. }
  { set_solver. }
  assert (k ∈ visited) as Hkv by (apply Hgrow; right; left).
  split.
  - intros Hreach. apply Hall. intros x Hx.
    apply (closed_reachable network visited k x); [done| |done].
    apply (rtc_trans _ 0 _).
    + apply rtc_symmetric; [done|]. by apply Hreach.
    + apply Hreach. by apply Hrest.
  - intros -> v Hv.
    assert (∀ x, x ∈ dom network → x ∈ visited) as Hvis.
    { intros x [->|Hx]%Hin%elem_of_cons; [done|].
      destruct (decide (x ∈ visited)); [done|].
      assert (1 < 1); [|lia]. apply Hsome. eauto. }
    apply (rtc_trans _ k _).
    + apply rtc_symmetric; [done|]. apply Hsound. by apply Hvis.
    + apply Hsound. by apply Hvis.
Qed.

(** [count_components] on a network with symmetric neighbour lists, for
    any order of its keys: an empty network has 0 components; otherwise
    the count lies between 1 and the number of keys, and, when node 0 is a
    key, it is 1 exactly when [is_connected] answers [True]. *)
Theorem count_components_consistent (network : adjacency) (keys : list nat) :
  symmetric network → keys ≡ₚ elements (dom network) →
  (network = ∅ → count_components network keys = Returned 0) ∧
  (network ≠ ∅ →
   ∃ c, count_components network keys = Returned c ∧
        1 ≤ c ≤ size network ∧
        (0 ∈ dom network →
         ∃ answer, is_connected network = Some (answer, network) ∧
                   (answer = true ↔ c = 1))).
Proof. apply count_components_spec. Qed.

Lemma symmetric_check (G : adjacency) :
  map_Forall (λ u neighbors, Forall (λ v, u ∈ network_get G v) neighbors) G →
  symmetric G.
Proof.
  intros Hall.
  assert (∀ u v, v ∈ network_get G u → u ∈ network_get G v) as Hhalf.
  { intros u v. unfold network_get at 1.
    destruct (G !! u) as [ns|] eqn:Hu; simpl; [|by intros ?%elem_of_nil].
    intros Hv. specialize (Hall u ns Hu). by eapply Forall_forall in Hall. }
  intros u v. split; apply Hhalf.
Qed.

Lemma cycle6_symmetric : symmetric cycle6.
Proof. apply symmetric_check. by_compute. Qed.

Lemma count_components_consistent_witness :
  (cycle6 = ∅ →
   count_components cycle6 (elements (dom cycle6)) = Returned 0) ∧
  (cycle6 ≠ ∅ →
   ∃ c, count_components cycle6 (elements (dom cycle6)) = Returned c ∧
        1 ≤ c ≤ size cycle6 ∧
        (0 ∈ dom cycle6 →
         ∃ answer, is_connected cycle6 = Some (answer, cycle6) ∧
                   (answer = true ↔ c = 1))).
Proof.
  apply (count_components_consistent cycle6 (elements (dom cycle6))).
  - apply cycle6_symmetric.
  - reflexivity.
Defined.

(** * The keys of a created network *)

Lemma connect_all_keys i neighbors : ∀ G,
  (∀ u, u ∈ dom G → network_get G u ≠ []) →
  ∀ u, u ∈ dom (foldl (λ network neighbor, connect network i neighbor)
                      G neighbors) →
       network_get (foldl (λ network neighbor, connect network i neighbor)
                          G neighbors) u ≠ [].
Proof.
  induction neighbors as [|n ns IH]; intros G HG; simpl; [done|].
  apply IH. intros u Hu. unfold connect in *.
  destruct (decide (n ∈ network_get (touch G i) i)) as [Hin|Hnin].
  - rewrite network_get_touch in *. rewrite dom_touch in Hu.
    apply elem_of_union in Hu as [->%elem_of_singleton|Hu]; [|by apply HG].
    intros Hnil. rewrite Hnil in Hin. by apply elem_of_nil in Hin.
  - rewrite !network_get_append_to, !network_get_touch.
    repeat case_decide; subst; try by destruct (network_get G _).
    apply HG. rewrite !dom_append_to, dom_touch in Hu. set_solver.
Qed.

Lemma simple_process_keys py cpn positions order :
  ∀ network st network' st',
    (∀ u, u ∈ dom network → network_get network u ≠ []) →
    simple_process py cpn positions order network st = Some (network', st') →
    ∀ u, u ∈ dom network' → network_get network' u ≠ [].
Proof.
  induction order as [|i rest IH]; intros network st network' st' HG; simpl.
  - by intros [= <- <-].
  - destruct (find_geographical_neighbors py cpn i positions st)
      as [[neighbors st1]|]; [|done].
    apply IH. by apply connect_all_keys.
Qed.

(** The keys of the network built by the standard-library script are
    exactly the nodes with at least one neighbour: a node without
    connections is not a key, so [len(network)] does not count it. *)
Theorem created_keys_have_neighbors
    (py : PyRandom) (total_nodes connections_per_node : nat)
    (positions : list position) (st : py_state py)
    (network : adjacency) (st' : py_state py) :
  create_network py total_nodes connections_per_node positions st
    = Some (network, st') →
  ∀ u, u ∈ dom network ↔ network_get network u ≠ [].
Proof.
  unfold create_network. destruct (_ =? 0); [done|]. intros Hrun u. split.
  - revert u. eapply simple_process_keys; [|exact Hrun]. set_solver.
  - intros Hne. apply elem_of_dom. unfold network_get in Hne.
    by destruct (network !! u).
Qed.

Lemma created_keys_have_neighbors_witness :
  0 ∈ dom (connect (connect ∅ 1 2) 2 1)
    ↔ network_get (connect (connect ∅ 1 2) 2 1) 0 ≠ [].
Proof.
  apply (created_keys_have_neighbors replay_py 3 2 line3 [0%R; 0%R] _ [] ).
  apply line3_simple_create.
Defined.

(** * Counting the edges of a network *)

Lemma length_directed_edges G : length (directed_edges G) = degree_sum G.
Proof.
  unfold directed_edges, degree_sum.
  induction (map_to_list G) as [|kv l IH]; [done|].
  rewrite bind_cons, length_app, length_fmap, fmap_cons, IH. done.
Qed.

Lemma elem_of_directed_edges G u v :
  (u, v) ∈ directed_edges G ↔ v ∈ network_get G u.
Proof.
  unfold directed_edges. rewrite list_elem_of_bind. split.
  - intros ([k ns] & Hin & Hk). simpl in *.
    apply list_elem_of_fmap in Hin as (w & [= -> ->] & Hw).
    apply elem_of_map_to_list in Hk. unfold network_get. by rewrite Hk.
  - intros Hv. unfold network_get in Hv.
    destruct (G !! u) as [ns|] eqn:Hu; [|by apply elem_of_nil in Hv].
    exists (u, ns). split; [|by apply elem_of_map_to_list].
    simpl. apply list_elem_of_fmap. eauto.
Qed.

Lemma NoDup_directed_edges G :
  no_duplicate_edge G → NoDup (directed_edges G).
Proof.
  intros Hdup. unfold directed_edges. apply NoDup_bind.
  - intros [k1 ns1] [k2 ns2] [a b] H1 H2 Ha Hb. simpl in *.
    apply list_elem_of_fmap in Ha as (w1 & [= -> ->] & _).
    apply list_elem_of_fmap in Hb as (w2 & [= <- _] & _).
    apply elem_of_map_to_list in H1, H2. congruence.
  - intros [k ns] Hk. simpl. apply NoDup_fmap_2; [intros ?? [=]; done|].
    apply elem_of_map_to_list in Hk. specialize (Hdup k).
    unfold network_get in Hdup. by rewrite Hk in Hdup.
  - apply NoDup_map_to_list.
Qed.

Lemma filter_partition_length {A} (P Q : A → Prop)
    `{∀ x, Decision (P x)} `{∀ x, Decision (Q x)} (l : list A) :
  (∀ x, x ∈ l → (P x ↔ ¬ Q x)) →
  length (filter P l) + length (filter Q l) = length l.
Proof.
  induction l as [|x l IH]; intros Hpq; [done|].
  rewrite !filter_cons.
  assert (length (filter P l) + length (filter Q l) = length l) as Hl.
  { apply IH. intros y Hy. apply Hpq. by right. }
  specialize (Hpq x ltac:(left)).
  destruct (decide (P x)), (decide (Q x)); simpl; try lia; tauto.
Qed.

Lemma edge_set_ascending G :
  symmetric G →  no_self_loop G →
  edge_set G = list_to_set (filter (λ p, p.1 < p.2) (directed_edges G)).
Proof.
  intros Hsym Hloop. apply set_eq. intros [a b].
  unfold edge_set. rewrite !elem_of_list_to_set, list_elem_of_filter.
  rewrite elem_of_directed_edges. simpl.
  split.
  - intros ([u ns] & Hu%list_elem_of_In%elem_of_map_to_list & Hin)
             %list_elem_of_In%in_flat_map.
    apply in_map_iff in Hin as (v & [= <- <-] & Hv%list_elem_of_In).
    assert (v ∈ network_get G u) as Huv.
    { unfold network_get. by rewrite Hu. }
    assert (u ≠ v) by (intros ->; by apply (Hloop v)).
    destruct (Nat.lt_ge_cases u v).
    + rewrite Nat.min_l, Nat.max_r by lia. done.
    + rewrite Nat.min_r, Nat.max_l by lia. split; [lia|]. by apply Hsym.
  - intros [Hlt Hb]. unfold network_get in Hb.
    destruct (G !! a) as [ns|] eqn:Ha; [|by apply elem_of_nil in Hb].
    apply list_elem_of_In, in_flat_map.
    exists (a, ns). split.
    + by apply list_elem_of_In, elem_of_map_to_list.
    + apply in_map_iff. exists b. split; [|by apply list_elem_of_In].
      by rewrite Nat.min_l, Nat.max_r by lia.
Qed.

(** Each undirected edge is listed twice. *)
Lemma degree_sum_twice_edges G :
  simple_graph G → degree_sum G = 2 * size (edge_set G).
Proof.
  intros (Hloop & Hsym & Hdup).
  pose proof (NoDup_directed_edges G Hdup) as Hnd.
  rewrite edge_set_ascending by done.
  rewrite size_list_to_set by (by apply NoDup_filter).
  rewrite <- length_directed_edges.
  rewrite <- (filter_partition_length (λ p, p.1 < p.2) (λ p, p.2 < p.1)).
  2:{ intros [u v] Huv%elem_of_directed_edges. simpl.
      assert (u ≠ v) by (intros ->; by apply (Hloop v)). lia. }
  assert (filter (λ p, p.2 < p.1) (directed_edges G)
          ≡ₚ (λ p, (p.2, p.1)) <$> filter (λ p, p.1 < p.2) (directed_edges G))
    as Hswap.
  { apply NoDup_Permutation.
    - by apply NoDup_filter.
    - apply NoDup_fmap_2; [|by apply NoDup_filter].
      intros [??] [??] [=]. by subst.
    - intros [u v]. rewrite list_elem_of_filter, list_elem_of_fmap.
      rewrite elem_of_directed_edges. simpl. split.
      + intros [Hlt Hv]. exists (v, u). split; [done|].
        apply list_elem_of_filter. split; [done|].
        apply elem_of_directed_edges. by apply Hsym.
      + intros ([a b] & [= -> ->] & [Hlt Hab%elem_of_directed_edges]%list_elem_of_filter).
        simpl in *. split; [done|]. by apply Hsym. }
  rewrite Hswap, length_fmap. lia.
Qed.

Lemma degree_sum_bound G :
  simple_graph G → degree_sum G ≤ size G * (size G - 1).
Proof.
  intros (Hloop & Hsym & Hdup). pose proof (symmetric_nx_closed G Hsym) as Hcl.
  assert (∀ kv, kv ∈ map_to_list G → length kv.2 ≤ size G - 1) as Hall.
  { intros [u ns] Hu%elem_of_map_to_list. simpl.
    assert (network_get G u = ns) as Hget.
    { unfold network_get. by rewrite Hu. }
    rewrite <- (size_list_to_set (C := gset nat) ns)
      by (rewrite <- Hget; apply Hdup).
    assert ((list_to_set ns : gset nat) ⊆ dom G ∖ {[u]}) as Hsub.
    { intros v Hv%elem_of_list_to_set. rewrite <- Hget in Hv.
      apply elem_of_difference. split; [by apply (Hcl u)|].
      intros ->%elem_of_singleton. by apply (Hloop u). }
    apply subseteq_size in Hsub.
    rewrite size_difference in Hsub.
    - by rewrite size_singleton, size_dom in Hsub.
    - apply singleton_subseteq_l. apply elem_of_dom. eauto. }
  unfold degree_sum. revert Hall. generalize (size G - 1). intros bound Hall.
  rewrite <- (length_map_to_list G).
  induction (map_to_list G) as [|kv l IH]; [done|].
  rewrite fmap_cons. cbn [sum_list sum_list_with length].
  assert (sum_list ((λ kv, length kv.2) <$> l) ≤ length l * bound)
    by (apply IH; intros x Hx; apply Hall; by right).
  specialize (Hall kv ltac:(left)). simpl in *. lia.
Qed.

Lemma simple_graph_check (G : adjacency) :
  map_Forall (λ u neighbors,
                (u ∉ neighbors) ∧ NoDup neighbors ∧
                Forall (λ v, u ∈ network_get G v) neighbors) G →
  simple_graph G.
Proof.
  intros Hall. split_and!.
  - intros u. unfold network_get.
    destruct (G !! u) as [ns|] eqn:Hu; simpl; [|apply not_elem_of_nil].
    by destruct (Hall u ns Hu).
  - apply symmetric_check. intros u ns Hu. by destruct (Hall u ns Hu) as (_ & _ & ?).
  - intros u. unfold network_get.
    destruct (G !! u) as [ns|] eqn:Hu; simpl; [|constructor].
    by destruct (Hall u ns Hu) as (_ & ? & _).
Qed.

Lemma cycle6_simple_graph : simple_graph cycle6.
Proof. apply simple_graph_check. by_compute. Qed.

(** The report of the standard-library script on a network that is a
    simple graph with node 0 among its at least two keys: [total_edges]
    is the number of undirected edges, [density] lies in [0, 1],
    [average_degree] is at most N - 1, and [is_connected] is [True]
    exactly when [number_of_components] is 1, which is exactly when every
    key can be reached from node 0. *)
Theorem simple_network_report (network : adjacency) (keys : list nat) :
  simple_graph network → 0 ∈ dom network → 1 < size network →
  keys ≡ₚ elements (dom network) →
  ∃ props answer components density average_degree,
    simple_analyze_network_properties network keys = Returned props ∧
    props !! "total_nodes" = Some (VInt (Z.of_nat (size network))) ∧
    props !! "total_edges"
      = Some (VInt (Z.of_nat (size (edge_set network)))) ∧
    props !! "density" = Some (VFloat density) ∧
    (0 <= density <= 1)%R ∧
    props !! "average_degree" = Some (VFloat average_degree) ∧
    (0 <= average_degree <= INR (size network - 1))%R ∧
    props !! "is_connected" = Some (VBool answer) ∧
    props !! "number_of_components" = Some (VInt (Z.of_nat components)) ∧
    (answer = true ↔ components = 1) ∧
    (answer = true ↔ ∀ v, v ∈ dom network → rtc (edge network) 0 v).
Proof.
  intros Hsimple H0 HN Hkeys.
  pose proof Hsimple as (Hloop & Hsym & Hdup).
  pose proof (symmetric_nx_closed _ Hsym) as Hcl.
  assert (network ≠ ∅) as Hne by (intros ->; set_solver).
  destruct (is_connected_spec network Hcl) as (_ & Hconn & _).
  destruct (Hconn H0) as (answer & Hans & Hreach).
  destruct (count_components_spec network keys Hsym Hkeys)
    as (_ & Hcount).
  destruct (Hcount Hne) as (c & Hc & _ & Hcons).
  destruct (Hcons H0) as (answer' & Hans' & Hiff).
  rewrite Hans in Hans'. injection Hans' as <-.
  pose proof (degree_sum_twice_edges network Hsimple) as Htwice.
  pose proof (degree_sum_bound network Hsimple) as Hbound.
  assert (degree_sum network / 2 = size (edge_set network)) as Hedges.
  { rewrite Htwice, Nat.mul_comm. by apply Nat.div_mul. }
  unfold simple_analyze_network_properties. rewrite Hans, Hc, Hedges.
  destruct (Nat.ltb_spec 1 (size network)) as [_|]; [|lia].
  destruct (Nat.ltb_spec 0 (size network)) as [_|]; [|lia].
  assert (0 <= INR (2 * size (edge_set network)))%R as Hpos by apply pos_INR.
  assert (INR (2 * size (edge_set network))
          <= INR (size network * (size network - 1)))%R as Hle.
  { apply le_INR. by rewrite <- Htwice. }
  remember (2 * size (edge_set network)) as listed eqn:Hlisted.
  clear Hlisted Htwice.
  do 5 eexists. split; [reflexivity|].
  assert (0 < INR (size network * (size network - 1)))%R as Hden.
  { apply lt_0_INR. nia. }
  assert (0 < INR (size network))%R as HNpos by (apply lt_0_INR; lia).
  split_and!; try by simplify_map_eq.
  - pose proof (Rinv_0_lt_compat _ Hden). unfold Rdiv. nra.
  - pose proof (Rinv_0_lt_compat _ Hden).
    assert (INR (size network * (size network - 1))
            * / INR (size network * (size network - 1)) = 1)%R
      by (field; lra).
    unfold Rdiv. nra.
  - pose proof (Rinv_0_lt_compat _ HNpos). unfold Rdiv. nra.
  - rewrite mult_INR in Hle.
    pose proof (Rinv_0_lt_compat _ HNpos).
    assert (INR (size network) * / INR (size network) = 1)%R
      by (field; lra).
    pose proof (pos_INR (size network - 1)).
    unfold Rdiv.
    apply (Rmult_le_reg_l (INR (size network))); [done|].
    rewrite <- Rmult_assoc, (Rmult_comm (INR (size network))),
      Rmult_assoc. rewrite H1. lra.
Qed.

Lemma simple_network_report_witness :
  ∃ props answer components density average_degree,
    simple_analyze_network_properties cycle6 (elements (dom cycle6))
      = Returned props ∧
    props !! "total_nodes" = Some (VInt (Z.of_nat (size cycle6))) ∧
    props !! "total_edges"
      = Some (VInt (Z.of_nat (size (edge_set cycle6)))) ∧
    props !! "density" = Some (VFloat density) ∧
    (0 <= density <= 1)%R ∧
    props !! "average_degree" = Some (VFloat average_degree) ∧
    (0 <= average_degree <= INR (size cycle6 - 1))%R ∧
    props !! "is_connected" = Some (VBool answer) ∧
    props !! "number_of_components" = Some (VInt (Z.of_nat components)) ∧
    (answer = true ↔ components = 1) ∧
    (answer = true ↔ ∀ v, v ∈ dom cycle6 → rtc (edge cycle6) 0 v).
Proof.
  apply (simple_network_report cycle6 (elements (dom cycle6))).
  - apply cycle6_simple_graph.
  - apply cycle6_origin.
  - rewrite cycle6_size. lia.
  - reflexivity.
Defined.

(** * Inserting an edge twice *)

Lemma connect_present G i neighbor :
  symmetric G → neighbor ∈ network_get G i → connect G i neighbor = G.
Proof.
  intros Hsym Hin. unfold connect.
  assert (i ∈ dom G) as Hi.
  { apply elem_of_dom. unfold network_get in Hin.
    destruct (G !! i); [done|]. by apply elem_of_nil in Hin. }
  rewrite touch_present by done. by rewrite decide_True.
Qed.

Lemma nx_add_edge_present G u v :
  nx_has_edge G u v = true → add_connections G u [v] = G.
Proof. intros Hhas. unfold add_connections. simpl. by rewrite Hhas. Qed.

(** The duplicate check makes a second insertion of an edge a no-op, from
    either endpoint: once [i] and [neighbor] are linked, linking them
    again, in the same or in the opposite direction, leaves the adjacency
    as it is. *)
Theorem second_insertion_is_noop (G : adjacency) (i neighbor : nat) :
  symmetric G → i ≠ neighbor →
  (connect (connect G i neighbor) i neighbor = connect G i neighbor ∧
   connect (connect G i neighbor) neighbor i = connect G i neighbor) ∧
  (add_connections (add_connections G i [neighbor]) i [neighbor]
     = add_connections G i [neighbor] ∧
   add_connections (add_connections G i [neighbor]) neighbor [i]
     = add_connections G i [neighbor]).
Proof.
  intros Hsym Hne. split.
  - assert (symmetric (connect G i neighbor) ∧
            neighbor ∈ network_get (connect G i neighbor) i) as [Hsym' Hin].
    { unfold connect.
      destruct (decide (neighbor ∈ network_get (touch G i) i)) as [Hin|Hnin].
      - split; [|done]. intros u v. rewrite !network_get_touch. apply Hsym.
      - rewrite network_get_touch in Hnin. split.
        + intros u v. rewrite !network_get_append_to, !network_get_touch.
          pose proof (Hsym u v).
          repeat case_decide; subst;
            rewrite ?elem_of_app, ?list_elem_of_singleton; naive_solver.
        + rewrite !network_get_append_to, !network_get_touch.
          repeat case_decide; subst;
            rewrite ?elem_of_app, ?list_elem_of_singleton; naive_solver. }
    split; apply connect_present; [done..|]. by apply Hsym'.
  - assert (∀ G', symmetric G' → symmetric (nx_add_edge G' i neighbor) ∧
              neighbor ∈ network_get (nx_add_edge G' i neighbor) i) as Hadd.
    { intros G' Hs. unfold nx_add_edge. split.
      - intros u v. rewrite !network_get_insert, !network_get_add_node.
        pose proof (Hs u v).
        repeat case_decide; subst; rewrite ?elem_of_dict_set; naive_solver.
      - rewrite !network_get_insert, !network_get_add_node.
        repeat case_decide; subst; rewrite ?elem_of_dict_set; naive_solver. }
    assert (symmetric (add_connections G i [neighbor]) ∧
            neighbor ∈ network_get (add_connections G i [neighbor]) i)
      as [Hsym' Hin].
    { unfold add_connections. simpl. unfold nx_has_edge.
      destruct (bool_decide (neighbor ∈ network_get G i)) eqn:Hhas.
      - by apply bool_decide_eq_true in Hhas.
      - by apply Hadd. }
    split; apply nx_add_edge_present, bool_decide_eq_true; [done|].
    by apply Hsym'.
Qed.

Lemma second_insertion_is_noop_witness :
  (connect (connect cycle6 0 3) 0 3 = connect cycle6 0 3 ∧
   connect (connect cycle6 0 3) 3 0 = connect cycle6 0 3) ∧
  (add_connections (add_connections cycle6 0 [3]) 0 [3]
     = add_connections cycle6 0 [3] ∧
   add_connections (add_connections cycle6 0 [3]) 3 [0]
     = add_connections cycle6 0 [3]).
Proof.
  apply (second_insertion_is_noop cycle6 0 3).
  - apply cycle6_symmetric.
  - lia.
Defined.
